(** * Floyd-Warshall with predecessor lists: the [Graph] class of
    [src/graph_logic.py], embedded shallowly.

    Python integers are [Z]; a matrix cell of [L] or [initial_adj] is an
    integer or [float('inf')]; a cell of [P] is a list of vertex indices.
    Subscripts follow Python: a negative index counts from the end and an
    index outside the list raises [IndexError].  The methods that assign to
    the fields are computations in a state-and-exception monad over the
    object's fields, so that the state reached when an exception is raised
    can be observed (as [load_from_file] does when it catches one). *)

From Stdlib Require Import ZArith List Ascii String Bool Lia.
From stdpp Require Import base tactics option numbers list.

Local Open Scope Z_scope.

(** ** Values *)

(** A cell of [L]: a Python [int], or [self.INF]. *)
Inductive weight : Type :=
| Fin (z : Z)
| Inf.

Definition is_inf (d : weight) : bool :=
  match d with Inf => true | Fin _ => false end.

(** [a < b] on cells ([int < inf] is true, [inf < anything] is false). *)
Definition wlt (a b : weight) : bool :=
  match a, b with
  | Fin x, Fin y => x <? y
  | Fin _, Inf => true
  | Inf, _ => false
  end.

(** [a == b] on cells. *)
Definition weqb (a b : weight) : bool :=
  match a, b with
  | Fin x, Fin y => x =? y
  | Inf, Inf => true
  | _, _ => false
  end.

(** ** Exceptions *)

Inductive exn : Type :=
| IndexError
| ValueError
| RecursionError.

Inductive result (A : Type) : Type :=
| Ok (a : A)
| Raise (e : exn).
Arguments Ok {A} a.
Arguments Raise {A} e.

Definition rbind {A B} (r : result A) (f : A -> result B) : result B :=
  match r with
  | Ok a => f a
  | Raise e => Raise e
  end.

(** ** Python list subscripts *)

(** The position a subscript [i] denotes in a list of length [len]. *)
Definition norm_index (len : nat) (i : Z) : option nat :=
  let n := Z.of_nat len in
  let i' := if i <? 0 then i + n else i in
  if (0 <=? i') && (i' <? n) then Some (Z.to_nat i') else None.

(** [l[i]] *)
Definition py_get {A} (l : list A) (i : Z) : result A :=
  match norm_index (length l) i with
  | Some p => match l !! p with Some x => Ok x | None => Raise IndexError end
  | None => Raise IndexError
  end.

(** [l[i] = x] *)
Definition py_set {A} (l : list A) (i : Z) (x : A) : result (list A) :=
  match norm_index (length l) i with
  | Some p => Ok (<[p := x]> l)
  | None => Raise IndexError
  end.

(** [m[i][j]] and [m[i][j] = x] on a list of rows. *)
Definition mat_get {A} (m : list (list A)) (i j : Z) : result A :=
  rbind (py_get m i) (fun row => py_get row j).

Definition mat_set {A} (m : list (list A)) (i j : Z) (x : A)
  : result (list (list A)) :=
  rbind (py_get m i) (fun row =>
  rbind (py_set row j x) (fun row' => py_set m i row')).

(** [range(n)] *)
Definition range (n : Z) : list Z := seqZ 0 n.

(** ** The object *)

Record Graph : Type := mkGraph {
  num_vertices : Z;
  L : list (list weight);
  P : list (list (list Z));
  initial_adj : list (list weight)
}.

(** [Graph.__init__] *)
Definition init_graph : Graph :=
  {| num_vertices := 0; L := []; P := []; initial_adj := [] |}.

(** State and exceptions: a method body runs on the fields and yields a
    value or a raised exception, together with the fields as they then
    are. *)
Definition M (A : Type) : Type := Graph -> result A * Graph.

Definition ret {A} (a : A) : M A := fun g => (Ok a, g).

Definition bind {A B} (m : M A) (f : A -> M B) : M B :=
  fun g => match m g with
           | (Ok a, g') => f a g'
           | (Raise e, g') => (Raise e, g')
           end.

Definition lift {A} (f : Graph -> result A) : M A := fun g => (f g, g).

Declare Scope py_scope.
Delimit Scope py_scope with py.
Notation "x <- m ;; k" := (bind m (fun x => k))
  (at level 100, m at next level, right associativity) : py_scope.
Notation "m ;;; k" := (bind m (fun _ => k))
  (at level 100, right associativity) : py_scope.
Local Open Scope py_scope.

Definition getL (i j : Z) : M weight := lift (fun g => mat_get (L g) i j).
Definition getP (i j : Z) : M (list Z) := lift (fun g => mat_get (P g) i j).
Definition getA (i j : Z) : M weight :=
  lift (fun g => mat_get (initial_adj g) i j).

Definition setL (i j : Z) (x : weight) : M unit := fun g =>
  match mat_set (L g) i j x with
  | Ok m => (Ok tt, mkGraph (num_vertices g) m (P g) (initial_adj g))
  | Raise e => (Raise e, g)
  end.

Definition setP (i j : Z) (x : list Z) : M unit := fun g =>
  match mat_set (P g) i j x with
  | Ok m => (Ok tt, mkGraph (num_vertices g) (L g) m (initial_adj g))
  | Raise e => (Raise e, g)
  end.

Definition setA (i j : Z) (x : weight) : M unit := fun g =>
  match mat_set (initial_adj g) i j x with
  | Ok m => (Ok tt, mkGraph (num_vertices g) (L g) (P g) m)
  | Raise e => (Raise e, g)
  end.

(** [for x in xs: body x] *)
Fixpoint for_each {A} (xs : list A) (body : A -> M unit) : M unit :=
  match xs with
  | [] => ret tt
  | x :: xs' => body x ;;; for_each xs' body
  end.

(** ** Text: [str.strip], [str.split] and [int] on ASCII text *)

Definition is_space (c : ascii) : bool :=
  let n := N.to_nat (N_of_ascii c) in
  ((9 <=? n) && (n <=? 13) || (28 <=? n) && (n <=? 32))%nat.

Definition digit_val (c : ascii) : option Z :=
  let n := Z.of_N (N_of_ascii c) in
  if (48 <=? n) && (n <=? 57) then Some (n - 48) else None.

Fixpoint lstrip (cs : list ascii) : list ascii :=
  match cs with
  | c :: r => if is_space c then lstrip r else cs
  | [] => []
  end.

Definition strip_chars (cs : list ascii) : list ascii :=
  rev (lstrip (rev (lstrip cs))).

(** [s.strip()] *)
Definition strip (s : string) : string :=
  string_of_list_ascii (strip_chars (list_ascii_of_string s)).

(** [s.split()]: the maximal runs of non-blank characters.  [cur] is the
    run being read, reversed. *)
Fixpoint split_chars (cur : list ascii) (cs : list ascii)
  : list (list ascii) :=
  match cs with
  | [] => match cur with [] => [] | _ => [rev cur] end
  | c :: r =>
      if is_space c
      then match cur with
           | [] => split_chars [] r
           | _ => rev cur :: split_chars [] r
           end
      else split_chars (c :: cur) r
  end.

Definition split (s : string) : list string :=
  map string_of_list_ascii (split_chars [] (list_ascii_of_string s)).

(** The digits of an integer literal: decimal digits, single underscores
    allowed between two digits.  [need] tells that a digit must come
    next. *)
Fixpoint digits (acc : Z) (need : bool) (cs : list ascii) : option Z :=
  match cs with
  | [] => if need then None else Some acc
  | c :: r =>
      match digit_val c with
      | Some d => digits (10 * acc + d) false r
      | None =>
          if Ascii.eqb c "_"%char
          then (if need then None else digits acc true r)
          else None
      end
  end.

(** [int(s)]: blanks around, an optional sign, then the digits;
    [ValueError] otherwise. *)
Definition py_int (s : string) : result Z :=
  let r :=
    match strip_chars (list_ascii_of_string s) with
    | c :: cs =>
        if Ascii.eqb c "-"%char then Z.opp <$> digits 0 true cs
        else if Ascii.eqb c "+"%char then digits 0 true cs
        else digits 0 true (c :: cs)
    | [] => None
    end in
  match r with Some z => Ok z | None => Raise ValueError end.

(** [list(map(int, toks))]: the first token that is no integer raises. *)
Fixpoint map_int (toks : list string) : result (list Z) :=
  match toks with
  | [] => Ok []
  | t :: r =>
      rbind (py_int t) (fun z =>
      rbind (map_int r) (fun zs => Ok (z :: zs)))
  end.

Definition nonblank (s : string) : bool :=
  match strip s with EmptyString => false | _ => true end.

(** ** [load_from_file] *)

(** The argument stands for the file: [None] when [os.path.exists] is
    false, otherwise the list [f.readlines()]. *)

Definition set_num_vertices (n : Z) : M unit := fun g =>
  (Ok tt, mkGraph n (L g) (P g) (initial_adj g)).

(** Lines 64-66: the three matrices are rebuilt from [self.num_vertices]. *)
Definition alloc_matrices : M unit := fun g =>
  let n := num_vertices g in
  let w := Z.to_nat n in
  (Ok tt,
   mkGraph n
     ((fun _ => replicate w Inf) <$> range n)
     ((fun _ => (fun _ => @nil Z) <$> range n) <$> range n)
     ((fun _ => replicate w Inf) <$> range n)).

(** Lines 75-82: one iteration of the loop over the edge lines. *)
Definition load_edge (lines : list string) (i : Z) : M unit :=
  if 2 + i <? Z.of_nat (length lines) then
    line <- lift (fun _ => py_get lines (2 + i)) ;;
    parts <- lift (fun _ => map_int (split line)) ;;
    u <- lift (fun _ => py_get parts 0) ;;
    v <- lift (fun _ => py_get parts 1) ;;
    w <- lift (fun _ => py_get parts 2) ;;
    setL u v (Fin w) ;;;
    setA u v (Fin w) ;;;
    preds <- getP u v ;;
    if bool_decide (u ∈ preds) then ret tt
    else setP u v (preds ++ [u])
  else ret tt.

(** Lines 54-83, the body of the [try]. *)
Definition load_body (raw : list string) : M bool :=
  let lines := filter (fun l => nonblank l = true) (strip <$> raw) in
  match lines with
  | [] => ret false
  | _ =>
      n <- lift (fun _ => rbind (py_get lines 0) py_int) ;;
      set_num_vertices n ;;;
      num_edges <- lift (fun _ => rbind (py_get lines 1) py_int) ;;
      alloc_matrices ;;;
      nv <- lift (fun g => Ok (num_vertices g)) ;;
      for_each (range nv) (fun i => setL i i (Fin 0) ;;; setA i i (Fin 0)) ;;;
      for_each (range num_edges) (load_edge lines) ;;;
      ret true
  end.

Definition load_from_file (file : option (list string)) : M bool := fun g =>
  match file with
  | None => (Ok false, g)
  | Some raw =>
      match load_body raw g with
      | (Ok b, g') => (Ok b, g')
      | (Raise _, g') => (Ok false, g')
      end
  end.

(** ** [_add_unique] *)

(** The target list after the loop: each value of the source not yet in
    the target is appended to it. *)
Definition add_unique (target source : list Z) : list Z :=
  fold_left (fun t val => if bool_decide (val ∈ t) then t else t ++ [val])
            source target.

(** ** [floyd_warshall] *)

(** Lines 104-114, the body of the innermost loop.  The cells are read
    again where the source reads them again; in particular the source of
    [_add_unique] is read after [P[i][j]] has been assigned. *)
Definition relax (k i j : Z) : M unit :=
  lik <- getL i k ;;
  if is_inf lik then ret tt else
  lkj <- getL k j ;;
  if is_inf lkj then ret tt else
  lik <- getL i k ;;
  lkj <- getL k j ;;
  match lik, lkj with
  | Fin a, Fin b =>
      let new_dist := Fin (a + b) in
      lij <- getL i j ;;
      if wlt new_dist lij then
        setL i j new_dist ;;;
        setP i j [] ;;;
        target <- getP i j ;;
        source <- getP k j ;;
        setP i j (add_unique target source)
      else
        lij <- getL i j ;;
        if weqb new_dist lij then
          target <- getP i j ;;
          source <- getP k j ;;
          setP i j (add_unique target source)
        else ret tt
  | _, _ => ret tt
  end.

(** The trace that line 117 prints after each relaxation only reads the
    matrices; output is not part of the state. *)
Definition floyd_warshall : M unit :=
  n <- lift (fun g => Ok (num_vertices g)) ;;
  for_each (range n) (fun k =>
    for_each (range n) (fun i =>
      for_each (range n) (fun j => relax k i j))).

(** ** [has_negative_cycle] *)

Fixpoint any_negative (g : Graph) (idx : list Z) : result bool :=
  match idx with
  | [] => Ok false
  | i :: r =>
      rbind (mat_get (L g) i i) (fun d =>
      if wlt d (Fin 0) then Ok true else any_negative g r)
  end.

Definition has_negative_cycle (g : Graph) : result bool :=
  any_negative g (range (num_vertices g)).

(** ** [get_negative_cycle_path] *)

(** Lines 188-192: the first [i] with [L[i][i] < 0], or [-1]. *)
Fixpoint find_start (g : Graph) (idx : list Z) : result Z :=
  match idx with
  | [] => Ok (-1)
  | i :: r =>
      rbind (mat_get (L g) i i) (fun d =>
      if wlt d (Fin 0) then Ok i else find_start g r)
  end.

(** Lines 209-214.  [left] is [max_steps - steps], the number of
    iterations the guard [steps < max_steps] still allows. *)
Fixpoint walk_back (g : Graph) (start_node : Z) (left : nat)
         (curr : Z) (path : list Z) : result (list Z) :=
  if curr =? start_node then Ok path else
  match left with
  | O => Ok path
  | S left' =>
      rbind (mat_get (P g) start_node curr) (fun preds =>
      match preds with
      | [] => Ok path
      | p :: _ => walk_back g start_node left' p (path ++ [p])
      end)
  end.

(** Lines 216-219: reverse, then close the walk when its ends differ. *)
Definition close_path (path : list Z) : list Z :=
  let rp := rev path in
  match rp, last rp with
  | first :: _, Some final =>
      if first =? final then rp else rp ++ [first]
  | _, _ => rp
  end.

Definition get_negative_cycle_path (g : Graph) : result (list Z) :=
  rbind (find_start g (range (num_vertices g))) (fun start_node =>
  if start_node =? -1 then Ok [] else
  rbind (mat_get (initial_adj g) start_node start_node) (fun a =>
  if wlt a (Fin 0) then Ok [start_node; start_node] else
  rbind (mat_get (P g) start_node start_node) (fun preds =>
  match preds with
  | [] => Ok []
  | curr :: _ =>
      let max_steps := num_vertices g * 2 in
      rbind (walk_back g start_node (Z.to_nat max_steps) curr [curr])
            (fun path => Ok (close_path path))
  end))).

(** ** [get_all_shortest_paths] *)

(** [depth] is the number of nested calls the interpreter still allows;
    a call made when none is left raises [RecursionError]. *)
Fixpoint get_all_shortest_paths (depth : nat) (g : Graph) (start end_ : Z)
  : result (list (list Z)) :=
  match depth with
  | O => Raise RecursionError
  | S depth' =>
      rbind (mat_get (L g) start end_) (fun d =>
      if is_inf d then Ok [] else
      if start =? end_ then Ok [[start]] else
      rbind (mat_get (P g) start end_) (fun preds =>
      (fix loop (preds : list Z) (all_paths : list (list Z))
         : result (list (list Z)) :=
         match preds with
         | [] => Ok all_paths
         | pred :: rest =>
             if pred =? end_ then loop rest all_paths else
             rbind (get_all_shortest_paths depth' g start pred)
               (fun sub_paths =>
                loop rest (all_paths ++ map (fun p => p ++ [end_]) sub_paths))
         end) preds []))
  end.

(** ** Running the methods on a file *)

Definition exec {A} (m : M A) (g : Graph) : Graph := snd (m g).

Definition loaded (raw : list string) : Graph :=
  exec (load_from_file (Some raw)) init_graph.

Definition closed (raw : list string) : Graph :=
  exec floyd_warshall (loaded raw).


(** * Properties *)

(** ** Arithmetic on cells *)

(** [a + b], defined when both are integers. *)
Definition wadd (a b : weight) : weight :=
  match a, b with
  | Fin x, Fin y => Fin (x + y)
  | _, _ => Inf
  end.

Definition wmin (a b : weight) : weight := if wlt b a then b else a.

(** [a <= b]: not [b < a]. *)
Definition wle (a b : weight) : Prop := wlt b a = false.

Definition finite (a : weight) : Prop := is_inf a = false.

Ltac wcases :=
  repeat match goal with
         | x : weight |- _ => destruct x
         end;
  unfold wle, finite, wmin, wadd, wlt, weqb, is_inf in *; simpl in *;
  repeat match goal with
         | H : context [(?a <? ?b)] |- _ => destruct (Z.ltb_spec a b); simpl in H
         | |- context [(?a <? ?b)] => destruct (Z.ltb_spec a b); simpl
         | H : context [(?a =? ?b)] |- _ => destruct (Z.eqb_spec a b); simpl in H
         | |- context [(?a =? ?b)] => destruct (Z.eqb_spec a b); simpl
         end;
  try (simplify_eq; first [congruence | lia | f_equal; lia]).

Lemma wle_refl a : wle a a.
Proof. wcases. Qed.

Lemma wle_trans a b c : wle a b -> wle b c -> wle a c.
Proof. wcases. Qed.

Lemma wle_finite a b : wle a b -> finite b -> finite a.
Proof. wcases. Qed.

Lemma wmin_le_l a b : wle (wmin a b) a.
Proof. wcases. Qed.

Lemma wmin_le_r a b : wle (wmin a b) b.
Proof. wcases. Qed.

(** ** Subscripts *)

Lemma norm_index_lt len i p : norm_index len i = Some p -> (p < len)%nat.
Proof.
  unfold norm_index. intros H.
  destruct (i <? 0) eqn:Hi;
    destruct (_ && _) eqn:Hc; simplify_eq;
    apply andb_true_iff in Hc as [H1 H2]; lia.
Qed.

Lemma norm_index_nonneg len i :
  0 <= i < Z.of_nat len -> norm_index len i = Some (Z.to_nat i).
Proof.
  intros Hi. unfold norm_index.
  destruct (Z.ltb_spec i 0); [lia|].
  destruct (Z.leb_spec 0 i); [|lia].
  destruct (Z.ltb_spec i (Z.of_nat len)); [|lia]. done.
Qed.

Lemma norm_index_None len i :
  norm_index len i = None <-> i < - Z.of_nat len \/ Z.of_nat len <= i.
Proof.
  unfold norm_index.
  destruct (Z.ltb_spec i 0).
  - destruct (Z.leb_spec 0 (i + Z.of_nat len));
      destruct (Z.ltb_spec (i + Z.of_nat len) (Z.of_nat len));
      simpl; split; intros; try done; try lia.
  - destruct (Z.leb_spec 0 i);
      destruct (Z.ltb_spec i (Z.of_nat len));
      simpl; split; intros; try done; try lia.
Qed.

Lemma py_get_Ok {A} (l : list A) i x :
  py_get l i = Ok x <->
  exists p, norm_index (length l) i = Some p /\ l !! p = Some x.
Proof.
  unfold py_get. split.
  - destruct (norm_index _ _) as [p|]; [|done].
    destruct (l !! p) eqn:E; [|done]. intros [= ->]. eauto.
  - intros (p & -> & ->). done.
Qed.

Lemma py_get_total {A} (l : list A) i p :
  norm_index (length l) i = Some p -> exists x, py_get l i = Ok x /\ l !! p = Some x.
Proof.
  intros Hp. pose proof (norm_index_lt _ _ _ Hp) as Hlt.
  destruct (lookup_lt_is_Some_2 l p Hlt) as [x Hx].
  exists x. split; [|done]. apply py_get_Ok. eauto.
Qed.

(** The cell at a position of a list of rows. *)
Definition cell {A} (m : list (list A)) (p q : nat) : option A :=
  match m !! p with
  | Some row => row !! q
  | None => None
  end.

Definition square {A} (n : Z) (m : list (list A)) : Prop :=
  length m = Z.to_nat n /\ forall p row, m !! p = Some row -> length row = Z.to_nat n.

Lemma mat_get_Ok {A} (m : list (list A)) i j x :
  mat_get m i j = Ok x <->
  exists p q row, norm_index (length m) i = Some p /\ m !! p = Some row /\
                  norm_index (length row) j = Some q /\ row !! q = Some x.
Proof.
  unfold mat_get, rbind. split.
  - destruct (py_get m i) as [row|] eqn:E; [|done].
    apply py_get_Ok in E as (p & Hp & Hrow).
    intros (q & Hq & Hx)%py_get_Ok. eauto 10.
  - intros (p & q & row & Hp & Hrow & Hq & Hx).
    assert (py_get m i = Ok row) as -> by (apply py_get_Ok; eauto).
    apply py_get_Ok; eauto.
Qed.

Lemma mat_set_Ok {A} (m : list (list A)) i j x m' :
  mat_set m i j x = Ok m' <->
  exists p q row, norm_index (length m) i = Some p /\ m !! p = Some row /\
                  norm_index (length row) j = Some q /\
                  m' = <[p := <[q := x]> row]> m.
Proof.
  unfold mat_set, rbind. split.
  - destruct (py_get m i) as [row|] eqn:E; [|done].
    apply py_get_Ok in E as (p & Hp & Hrow).
    unfold py_set. destruct (norm_index (length row) j) as [q|] eqn:Hq; [|done].
    rewrite Hp. intros [= <-]. eauto 10.
  - intros (p & q & row & Hp & Hrow & Hq & ->).
    assert (py_get m i = Ok row) as -> by (apply py_get_Ok; eauto).
    unfold py_set. rewrite Hq, Hp. done.
Qed.

Lemma mat_set_Raise {A} (m : list (list A)) n i j x :
  square n m ->
  (exists e, mat_set m i j x = Raise e) <->
  (i < - n \/ n <= i \/ j < - n \/ n <= j \/ n < 0).
Proof.
  intros [Hlen Hrows]. unfold mat_set, rbind, py_get, py_set.
  destruct (norm_index (length m) i) as [p|] eqn:Hp.
  - pose proof (norm_index_lt _ _ _ Hp) as Hlt.
    destruct (lookup_lt_is_Some_2 m p Hlt) as [row Hrow]. rewrite Hrow.
    pose proof (Hrows _ _ Hrow) as Hr.
    assert (~ (i < - n \/ n <= i) /\ 0 <= n) as [Hi Hn].
    { split; [|lia]. intros Hbad.
      assert (norm_index (length m) i = None); [|congruence].
      apply norm_index_None. lia. }
    destruct (norm_index (length row) j) as [q|] eqn:Hq.
    + split; [intros [e ?]; done|]. intros Hbad.
      assert (norm_index (length row) j = None); [|congruence].
      apply norm_index_None. lia.
    + apply norm_index_None in Hq. split; [|eauto]. intros _. lia.
  - apply norm_index_None in Hp. split; [|eauto]. intros _. lia.
Qed.

Lemma cell_insert {A} (m : list (list A)) p q row x p' q' :
  m !! p = Some row -> (q < length row)%nat ->
  cell (<[p := <[q := x]> row]> m) p' q' =
  if decide (p' = p /\ q' = q) then Some x else cell m p' q'.
Proof.
  intros Hrow Hq. unfold cell.
  destruct (decide (p' = p)) as [->|Hne].
  - rewrite list_lookup_insert_eq by (by eapply lookup_lt_Some).
    rewrite Hrow.
    destruct (decide (q' = q)) as [->|Hq'].
    + rewrite list_lookup_insert_eq by done. by rewrite decide_True.
    + rewrite list_lookup_insert_ne by done. rewrite decide_False by tauto. done.
  - rewrite list_lookup_insert_ne by done. rewrite decide_False by tauto. done.
Qed.

Lemma square_insert {A} n (m : list (list A)) p q row x :
  square n m -> m !! p = Some row ->
  square n (<[p := <[q := x]> row]> m).
Proof.
  intros [Hlen Hrows] Hrow. split.
  - by rewrite length_insert.
  - intros p' row' H'.
    destruct (decide (p' = p)) as [->|Hne].
    + rewrite list_lookup_insert_eq in H' by (by eapply lookup_lt_Some).
      simplify_eq. rewrite length_insert. eauto.
    + rewrite list_lookup_insert_ne in H' by done. eauto.
Qed.

(** On a square matrix a subscript pair in [0, n) reads the cell at that
    position. *)
Lemma mat_get_cell {A} n (m : list (list A)) i j :
  square n m -> 0 <= i < n -> 0 <= j < n ->
  exists x, mat_get m i j = Ok x /\ cell m (Z.to_nat i) (Z.to_nat j) = Some x.
Proof.
  intros [Hlen Hrows] Hi Hj.
  destruct (lookup_lt_is_Some_2 m (Z.to_nat i)) as [row Hrow]; [lia|].
  pose proof (Hrows _ _ Hrow) as Hr.
  destruct (lookup_lt_is_Some_2 row (Z.to_nat j)) as [x Hx]; [lia|].
  exists x. split.
  - apply mat_get_Ok. exists (Z.to_nat i), (Z.to_nat j), row.
    split_and!; try done; apply norm_index_nonneg; lia.
  - unfold cell. by rewrite Hrow.
Qed.

(** The position in [0, n) that subscript [i] denotes. *)
Definition wrap (n i : Z) : Z := if i <? 0 then i + n else i.

Lemma norm_index_wrap len i p :
  norm_index len i = Some p ->
  p = Z.to_nat (wrap (Z.of_nat len) i) /\ 0 <= wrap (Z.of_nat len) i < Z.of_nat len.
Proof.
  unfold norm_index, wrap. destruct (i <? 0);
    destruct (_ && _) eqn:Hc; intros; simplify_eq;
    apply andb_true_iff in Hc as [H1 H2]; lia.
Qed.

Lemma mat_get_inj {A} n (m : list (list A)) i j x :
  square n m -> 0 <= i < n -> 0 <= j < n ->
  mat_get m i j = Ok x <-> cell m (Z.to_nat i) (Z.to_nat j) = Some x.
Proof.
  intros Hsq Hi Hj.
  destruct (mat_get_cell n m i j Hsq Hi Hj) as (y & Hy & Hc).
  rewrite Hy, Hc. split; intros; simplify_eq; done.
Qed.

Lemma mat_set_view {A} n (m : list (list A)) i j x m' :
  square n m -> mat_set m i j x = Ok m' ->
  0 <= wrap n i < n /\ 0 <= wrap n j < n /\ square n m' /\
  forall a b, 0 <= a < n -> 0 <= b < n ->
    mat_get m' a b =
    if decide (a = wrap n i /\ b = wrap n j) then Ok x else mat_get m a b.
Proof.
  intros Hsq (p & q & row & Hp & Hrow & Hq & ->)%mat_set_Ok.
  pose proof Hsq as [Hlen Hrows].
  pose proof (Hrows _ _ Hrow) as Hr.
  apply norm_index_wrap in Hp as [-> Hwi].
  apply norm_index_wrap in Hq as [-> Hwj].
  assert (Z.of_nat (length m) = n) as Em by lia.
  assert (Z.of_nat (length row) = n) as Er by lia.
  rewrite Em in *. rewrite Er in *.
  pose proof (square_insert n m _ (Z.to_nat (wrap n j)) row x Hsq Hrow) as Hsq'.
  split_and!; try (done || lia).
  intros a b Ha Hb.
  destruct (mat_get_cell n _ a b Hsq' Ha Hb) as (y & Hy & Hc).
  rewrite Hy. rewrite cell_insert in Hc by (done || lia).
  destruct (decide (a = wrap n i /\ b = wrap n j)) as [[-> ->]|Hne].
  - rewrite decide_True in Hc by done. by simplify_eq.
  - rewrite decide_False in Hc by lia.
    symmetry. by apply (mat_get_inj n).
Qed.

Lemma mat_set_total {A} n (m : list (list A)) i j x :
  square n m -> - n <= i < n -> - n <= j < n ->
  exists m', mat_set m i j x = Ok m'.
Proof.
  intros Hsq Hi Hj.
  destruct (mat_set m i j x) as [m'|e] eqn:E; [eauto|].
  assert (exists e, mat_set m i j x = Raise e) as Hr by eauto.
  apply (mat_set_Raise m n) in Hr; [lia|done].
Qed.

Lemma mat_get_wrap {A} n (m : list (list A)) i j :
  square n m -> - n <= i < n -> - n <= j < n ->
  mat_get m i j = mat_get m (wrap n i) (wrap n j).
Proof.
  intros Hsq Hi Hj. pose proof Hsq as [Hlen Hrows].
  assert (0 <= wrap n i < n /\ 0 <= wrap n j < n) as [Hwi Hwj].
  { unfold wrap. destruct (Z.ltb_spec i 0), (Z.ltb_spec j 0); lia. }
  destruct (mat_get_cell n m _ _ Hsq Hwi Hwj) as (x & Hx & Hc).
  rewrite Hx. apply mat_get_Ok.
  unfold cell in Hc. destruct (m !! Z.to_nat (wrap n i)) as [row|] eqn:Hrow; [|done].
  pose proof (Hrows _ _ Hrow) as Hr.
  exists (Z.to_nat (wrap n i)), (Z.to_nat (wrap n j)), row.
  split_and!; try done.
  - rewrite Hlen. unfold norm_index, wrap.
    rewrite Z2Nat.id by lia.
    destruct (Z.ltb_spec i 0).
    + destruct (Z.leb_spec 0 (i + n)); [|lia].
      destruct (Z.ltb_spec (i + n) n); [|lia]. done.
    + destruct (Z.leb_spec 0 i); [|lia].
      destruct (Z.ltb_spec i n); [|lia]. done.
  - rewrite Hr. unfold norm_index, wrap.
    rewrite Z2Nat.id by lia.
    destruct (Z.ltb_spec j 0).
    + destruct (Z.leb_spec 0 (j + n)); [|lia].
      destruct (Z.ltb_spec (j + n) n); [|lia]. done.
    + destruct (Z.leb_spec 0 j); [|lia].
      destruct (Z.ltb_spec j n); [|lia]. done.
Qed.

Lemma wrap_id n i : 0 <= i -> wrap n i = i.
Proof. unfold wrap. destruct (Z.ltb_spec i 0); lia. Qed.

Lemma mat_set_same {A} (m : list (list A)) i j x :
  mat_get m i j = Ok x -> mat_set m i j x = Ok m.
Proof.
  intros (p & q & row & Hp & Hrow & Hq & Hx)%mat_get_Ok.
  apply mat_set_Ok. exists p, q, row. split_and!; try done.
  rewrite (list_insert_id row q x Hx). by rewrite list_insert_id.
Qed.

(** ** Views of the matrices *)

Definition Lf (g : Graph) (i j : Z) : weight :=
  match mat_get (L g) i j with Ok x => x | Raise _ => Inf end.

Definition Pf (g : Graph) (i j : Z) : list Z :=
  match mat_get (P g) i j with Ok x => x | Raise _ => [] end.

Definition Af (g : Graph) (i j : Z) : weight :=
  match mat_get (initial_adj g) i j with Ok x => x | Raise _ => Inf end.

(** The three matrices are [n] by [n], [n] the vertex count. *)
Definition shaped (g : Graph) : Prop :=
  square (num_vertices g) (L g) /\
  square (num_vertices g) (P g) /\
  square (num_vertices g) (initial_adj g).

Definition vertex (g : Graph) (i : Z) : Prop := 0 <= i < num_vertices g.

Lemma getL_Lf g i j :
  shaped g -> vertex g i -> vertex g j -> mat_get (L g) i j = Ok (Lf g i j).
Proof.
  intros (HL & _ & _) Hi Hj. unfold Lf.
  destruct (mat_get_cell _ _ i j HL Hi Hj) as (x & -> & _). done.
Qed.

Lemma getP_Pf g i j :
  shaped g -> vertex g i -> vertex g j -> mat_get (P g) i j = Ok (Pf g i j).
Proof.
  intros (_ & HP & _) Hi Hj. unfold Pf.
  destruct (mat_get_cell _ _ i j HP Hi Hj) as (x & -> & _). done.
Qed.

Lemma getA_Af g i j :
  shaped g -> vertex g i -> vertex g j ->
  mat_get (initial_adj g) i j = Ok (Af g i j).
Proof.
  intros (_ & _ & HA) Hi Hj. unfold Af.
  destruct (mat_get_cell _ _ i j HA Hi Hj) as (x & -> & _). done.
Qed.

(** ** Running monadic code *)

Lemma bind_Ok {A B} (m : M A) (f : A -> M B) g a g1 :
  m g = (Ok a, g1) -> bind m f g = f a g1.
Proof. unfold bind. by intros ->. Qed.

Lemma bind_Raise {A B} (m : M A) (f : A -> M B) g e g1 :
  m g = (Raise e, g1) -> bind m f g = (Raise e, g1).
Proof. unfold bind. by intros ->. Qed.

Lemma for_each_app {A} (xs ys : list A) body g :
  for_each (xs ++ ys) body g = bind (for_each xs body) (fun _ => for_each ys body) g.
Proof.
  revert g. induction xs as [|x xs IH]; intros g; simpl.
  - done.
  - unfold bind. destruct (body x g) as [[[]|e] g1]; [|done].
    rewrite IH. done.
Qed.

(** Effect of the three assignments on the views. *)
Lemma setL_spec g i j x :
  shaped g -> - num_vertices g <= i < num_vertices g ->
  - num_vertices g <= j < num_vertices g ->
  exists g', setL i j x g = (Ok tt, g') /\ shaped g' /\
    num_vertices g' = num_vertices g /\ P g' = P g /\
    initial_adj g' = initial_adj g /\
    forall a b, vertex g a -> vertex g b ->
      Lf g' a b = if decide (a = wrap (num_vertices g) i /\ b = wrap (num_vertices g) j)
                  then x else Lf g a b.
Proof.
  intros (HL & HP & HA) Hi Hj.
  destruct (mat_set_total _ (L g) i j x HL Hi Hj) as [m' Hm'].
  destruct (mat_set_view _ _ _ _ _ _ HL Hm') as (_ & _ & Hsq & Hget).
  eexists. unfold setL. rewrite Hm'. split; [done|].
  split_and!; try done.
  intros a b Ha Hb. unfold Lf; simpl. rewrite Hget by done.
  by case_decide.
Qed.

Lemma setP_spec g i j x :
  shaped g -> - num_vertices g <= i < num_vertices g ->
  - num_vertices g <= j < num_vertices g ->
  exists g', setP i j x g = (Ok tt, g') /\ shaped g' /\
    num_vertices g' = num_vertices g /\ L g' = L g /\
    initial_adj g' = initial_adj g /\
    forall a b, vertex g a -> vertex g b ->
      Pf g' a b = if decide (a = wrap (num_vertices g) i /\ b = wrap (num_vertices g) j)
                  then x else Pf g a b.
Proof.
  intros (HL & HP & HA) Hi Hj.
  destruct (mat_set_total _ (P g) i j x HP Hi Hj) as [m' Hm'].
  destruct (mat_set_view _ _ _ _ _ _ HP Hm') as (_ & _ & Hsq & Hget).
  eexists. unfold setP. rewrite Hm'. split; [done|].
  split_and!; try done.
  intros a b Ha Hb. unfold Pf; simpl. rewrite Hget by done.
  by case_decide.
Qed.

Lemma setA_spec g i j x :
  shaped g -> - num_vertices g <= i < num_vertices g ->
  - num_vertices g <= j < num_vertices g ->
  exists g', setA i j x g = (Ok tt, g') /\ shaped g' /\
    num_vertices g' = num_vertices g /\ L g' = L g /\ P g' = P g /\
    forall a b, vertex g a -> vertex g b ->
      Af g' a b = if decide (a = wrap (num_vertices g) i /\ b = wrap (num_vertices g) j)
                  then x else Af g a b.
Proof.
  intros (HL & HP & HA) Hi Hj.
  destruct (mat_set_total _ (initial_adj g) i j x HA Hi Hj) as [m' Hm'].
  destruct (mat_set_view _ _ _ _ _ _ HA Hm') as (_ & _ & Hsq & Hget).
  eexists. unfold setA. rewrite Hm'. split; [done|].
  split_and!; try done.
  intros a b Ha Hb. unfold Af; simpl. rewrite Hget by done.
  by case_decide.
Qed.

Lemma getL_run g i j :
  shaped g -> vertex g i -> vertex g j -> getL i j g = (Ok (Lf g i j), g).
Proof. intros. unfold getL, lift. by rewrite getL_Lf. Qed.

Lemma getP_run g i j :
  shaped g -> vertex g i -> vertex g j -> getP i j g = (Ok (Pf g i j), g).
Proof. intros. unfold getP, lift. by rewrite getP_Pf. Qed.

(** ** [_add_unique] *)

Lemma add_unique_snoc t s v :
  add_unique t (s ++ [v]) =
  if bool_decide (v ∈ add_unique t s) then add_unique t s
  else add_unique t s ++ [v].
Proof. unfold add_unique. by rewrite fold_left_app. Qed.

Lemma elem_of_add_unique t s x :
  x ∈ add_unique t s <-> x ∈ t \/ x ∈ s.
Proof.
  revert t. induction s as [|v s IH]; intros t; simpl.
  - rewrite elem_of_nil. tauto.
  - change (x ∈ add_unique (if bool_decide (v ∈ t) then t else t ++ [v]) s
            <-> x ∈ t \/ x ∈ v :: s).
    rewrite IH, elem_of_cons. case_bool_decide as Hv.
    + split; [tauto|]. intros [?|[->|?]]; tauto.
    + rewrite elem_of_app, list_elem_of_singleton. tauto.
Qed.

(** Nothing is appended when the source brings no new value. *)
Lemma add_unique_incl t s :
  (forall x, x ∈ s -> x ∈ t) -> add_unique t s = t.
Proof.
  revert t. induction s as [|v s IH]; intros t Hs; [done|].
  change (add_unique (if bool_decide (v ∈ t) then t else t ++ [v]) s = t).
  rewrite bool_decide_eq_true_2 by (apply Hs; left).
  apply IH. intros x Hx. apply Hs. by right.
Qed.

(** The call of line 111 or 114 with [i = k]: target and source are one
    list object; no value is appended, the list is unchanged. *)
Lemma add_unique_self t : add_unique t t = t.
Proof. by apply add_unique_incl. Qed.

(** The target is kept as a prefix, in its order. *)
Lemma add_unique_prefix t s : exists ext, add_unique t s = t ++ ext.
Proof.
  revert t. induction s as [|v s IH]; intros t.
  - exists []. by rewrite app_nil_r.
  - change (exists ext, add_unique (if bool_decide (v ∈ t) then t else t ++ [v]) s
                        = t ++ ext).
    case_bool_decide; [apply IH|].
    destruct (IH (t ++ [v])) as [ext ->]. exists ([v] ++ ext). by rewrite app_assoc.
Qed.

Lemma add_unique_NoDup t s : NoDup t -> NoDup (add_unique t s).
Proof.
  revert t. induction s as [|v s IH]; intros t Ht; [done|].
  change (NoDup (add_unique (if bool_decide (v ∈ t) then t else t ++ [v]) s)).
  apply IH. case_bool_decide as Hv; [done|].
  apply NoDup_app. split_and!; [done| |apply NoDup_singleton].
  intros x Hx ->%list_elem_of_singleton. done.
Qed.

(** Into an empty target a duplicate-free source is copied as it is. *)
Lemma add_unique_nil_gen t s :
  NoDup (t ++ s) -> add_unique t s = t ++ s.
Proof.
  revert t. induction s as [|v s IH]; intros t Hnd.
  - by rewrite app_nil_r.
  - change (add_unique (if bool_decide (v ∈ t) then t else t ++ [v]) s
            = t ++ v :: s).
    apply NoDup_app in Hnd as (Ht & Hts & Hs).
    rewrite bool_decide_eq_false_2.
    2:{ intros Hv. apply (Hts _ Hv). left. }
    rewrite (IH (t ++ [v])); [by rewrite <- app_assoc|].
    rewrite <- app_assoc. simpl. apply NoDup_app. done.
Qed.

Lemma add_unique_nil s : NoDup s -> add_unique [] s = s.
Proof. intros. by rewrite add_unique_nil_gen. Qed.

(** ** One relaxation *)

Ltac split_cell a b i j :=
  destruct (decide (a = i /\ b = j)) as [[? ?]|?];
  [subst a b; rewrite ?decide_True by done
  |rewrite ?decide_False by done].

(** The cell [L[i][j]] and the cell [P[i][j]] after [relax k i j], from
    the matrices before it. *)
Definition relaxed_L (l : Z -> Z -> weight) (k i j : Z) : weight :=
  wmin (l i j) (wadd (l i k) (l k j)).

Definition relaxed_P (l : Z -> Z -> weight) (p : Z -> Z -> list Z)
           (k i j : Z) : list Z :=
  let new_dist := wadd (l i k) (l k j) in
  if is_inf new_dist then p i j
  else if wlt new_dist (l i j)
       then (if bool_decide (i = k) then [] else add_unique [] (p k j))
  else if weqb new_dist (l i j) then add_unique (p i j) (p k j)
  else p i j.

Lemma relax_spec g k i j :
  shaped g -> vertex g k -> vertex g i -> vertex g j ->
  exists g', relax k i j g = (Ok tt, g') /\ shaped g' /\
    num_vertices g' = num_vertices g /\
    initial_adj g' = initial_adj g /\
    (forall a b, vertex g a -> vertex g b ->
       Lf g' a b = if decide (a = i /\ b = j)
                   then relaxed_L (Lf g) k i j else Lf g a b) /\
    (forall a b, vertex g a -> vertex g b ->
       Pf g' a b = if decide (a = i /\ b = j)
                   then relaxed_P (Lf g) (Pf g) k i j else Pf g a b).
Proof.
  intros Hg Hk Hi Hj.
  assert (forall a b, vertex g a -> vertex g b ->
            Lf g a b = if decide (a = i /\ b = j)
                       then Lf g i j else Lf g a b) as HLsame.
  { intros a b _ _. case_decide as H; [by destruct H as [-> ->]|done]. }
  assert (forall a b, vertex g a -> vertex g b ->
            Pf g a b = if decide (a = i /\ b = j)
                       then Pf g i j else Pf g a b) as HPsame.
  { intros a b _ _. case_decide as H; [by destruct H as [-> ->]|done]. }
  unfold relax, relaxed_L, relaxed_P.
  rewrite (bind_Ok _ _ _ _ _ (getL_run g i k Hg Hi Hk)).
  cbv beta zeta.
  destruct (Lf g i k) as [x|] eqn:Eik; cbn [is_inf wadd].
  2:{ exists g. split_and!; try done. }
  rewrite (bind_Ok _ _ _ _ _ (getL_run g k j Hg Hk Hj)).
  cbv beta zeta.
  destruct (Lf g k j) as [y|] eqn:Ekj; cbn [is_inf wadd].
  2:{ exists g. split_and!; try done. }
  rewrite (bind_Ok _ _ _ _ _ (getL_run g i k Hg Hi Hk)), Eik.
  rewrite (bind_Ok _ _ _ _ _ (getL_run g k j Hg Hk Hj)), Ekj.
  rewrite (bind_Ok _ _ _ _ _ (getL_run g i j Hg Hi Hj)).
  cbv beta zeta.
  assert (- num_vertices g <= i < num_vertices g) as Hi' by (unfold vertex in *; lia).
  assert (- num_vertices g <= j < num_vertices g) as Hj' by (unfold vertex in *; lia).
  assert (wrap (num_vertices g) i = i) as Wi by (apply wrap_id; unfold vertex in *; lia).
  assert (wrap (num_vertices g) j = j) as Wj by (apply wrap_id; unfold vertex in *; lia).
  destruct (wlt (Fin (x + y)) (Lf g i j)) eqn:Hlt.
  - (* strictly better *)
    destruct (setL_spec g i j (Fin (x + y)) Hg Hi' Hj')
      as (g1 & R1 & Hg1 & N1 & P1 & A1 & V1).
    rewrite (bind_Ok _ _ _ _ _ R1).
    assert (vertex g1 i /\ vertex g1 j /\ vertex g1 k) as (Hi1 & Hj1 & Hk1)
      by (unfold vertex in *; rewrite N1; done).
    destruct (setP_spec g1 i j [] Hg1) as (g2 & R2 & Hg2 & N2 & L2 & A2 & V2);
      [lia..|].
    rewrite (bind_Ok _ _ _ _ _ R2).
    assert (vertex g2 i /\ vertex g2 j /\ vertex g2 k) as (Hi2 & Hj2 & Hk2)
      by (unfold vertex in *; rewrite N2, N1; done).
    rewrite (bind_Ok _ _ _ _ _ (getP_run g2 i j Hg2 Hi2 Hj2)).
    rewrite (bind_Ok _ _ _ _ _ (getP_run g2 k j Hg2 Hk2 Hj2)).
    destruct (setP_spec g2 i j (add_unique (Pf g2 i j) (Pf g2 k j)) Hg2)
      as (g3 & R3 & Hg3 & N3 & L3 & A3 & V3); [lia..|].
    exists g3. unfold vertex in *.
    rewrite N1 in *. rewrite N2 in *. rewrite Wi, Wj in *.
    split_and!; try congruence.
    + intros a b Ha Hb. unfold Lf at 1. rewrite L3, L2.
      fold (Lf g1 a b). rewrite V1 by done.
      split_cell a b i j; [|done]. unfold wmin. by rewrite Hlt.
    + intros a b Ha Hb. rewrite V3 by done.
      rewrite !V2 by done.
      assert (forall c d, Pf g1 c d = Pf g c d) as E1
        by (intros; unfold Pf; by rewrite P1).
      rewrite !E1.
      split_cell a b i j; [|done].
      case_bool_decide as Hik.
      * subst k. rewrite decide_True by done. done.
      * rewrite decide_False by (intros [? _]; done). done.
  - rewrite (bind_Ok _ _ _ _ _ (getL_run g i j Hg Hi Hj)).
    cbv beta zeta.
    destruct (weqb (Fin (x + y)) (Lf g i j)) eqn:Heq.
    + (* tie *)
      rewrite (bind_Ok _ _ _ _ _ (getP_run g i j Hg Hi Hj)).
      rewrite (bind_Ok _ _ _ _ _ (getP_run g k j Hg Hk Hj)).
      destruct (setP_spec g i j (add_unique (Pf g i j) (Pf g k j)) Hg Hi' Hj')
        as (g3 & R3 & Hg3 & N3 & L3 & A3 & V3).
      exists g3. unfold vertex in *. rewrite Wi, Wj in *. split_and!; try done.
      intros a b Ha Hb. unfold Lf at 1. rewrite L3. fold (Lf g a b).
      split_cell a b i j; [|done].
      unfold wmin. by rewrite Hlt.
    + exists g. split_and!; try done.
      intros a b Ha Hb.
      split_cell a b i j; [|done].
      unfold wmin. by rewrite Hlt.
Qed.

(** ** Loops *)

Lemma elem_of_range n x : x ∈ range n <-> 0 <= x < n.
Proof. unfold range. rewrite elem_of_seqZ. lia. Qed.

Lemma range_succ n : 0 <= n -> range (n + 1) = range n ++ [n].
Proof.
  intros Hn. unfold range. rewrite seqZ_app by lia.
  replace (0 + n) with n by lia. done.
Qed.

Lemma range_neg n : n <= 0 -> range n = [].
Proof.
  intros Hn. unfold range, seqZ.
  replace (Z.to_nat n) with 0%nat by lia. done.
Qed.

Lemma NoDup_range n : NoDup (range n).
Proof. apply NoDup_seqZ. Qed.

(** A nested loop is the loop over the concatenated index lists. *)
Lemma for_each_nested {A B} (xs : list A) (f : A -> list B)
      (body : B -> M unit) g :
  for_each xs (fun x => for_each (f x) body) g = for_each (xs ≫= f) body g.
Proof.
  revert g. induction xs as [|x xs IH]; intros g; [done|].
  simpl. rewrite for_each_app. unfold bind.
  destruct (for_each (f x) body g) as [[[]|e] g1]; [|done].
  apply IH.
Qed.

(** A loop whose body keeps an invariant and never raises runs to its
    end and keeps the invariant. *)
Lemma for_each_inv {A} (Inv : Graph -> Prop) (ok : A -> Prop)
      (body : A -> M unit) xs g :
  (forall x g, ok x -> Inv g -> exists g', body x g = (Ok tt, g') /\ Inv g') ->
  Forall ok xs -> Inv g ->
  exists g', for_each xs body g = (Ok tt, g') /\ Inv g'.
Proof.
  intros Hbody Hxs. revert g.
  induction Hxs as [|x xs Hx Hxs IH]; intros g Hg; simpl.
  - exists g. done.
  - destruct (Hbody x g Hx Hg) as (g1 & R1 & Hg1).
    rewrite (bind_Ok _ _ _ _ _ R1). apply IH, Hg1.
Qed.

(** The index pairs of one pass, in the order of the two inner loops. *)
Definition pairs (n : Z) : list (Z * Z) :=
  i ← range n; j ← range n; [(i, j)].

Definition relax_pair (k : Z) (ij : Z * Z) : M unit := relax k ij.1 ij.2.

(** One iteration of the outer loop. *)
Definition pass (n k : Z) : M unit :=
  for_each (range n) (fun i => for_each (range n) (fun j => relax k i j)).

Lemma elem_of_pairs n i j : (i, j) ∈ pairs n <-> 0 <= i < n /\ 0 <= j < n.
Proof.
  unfold pairs. rewrite list_elem_of_bind. split.
  - intros (a & (b & Hab & Hb)%list_elem_of_bind & Ha).
    apply list_elem_of_singleton in Hab. simplify_eq.
    apply elem_of_range in Ha, Hb. done.
  - intros [Hi Hj]. exists i. split; [|by apply elem_of_range].
    apply list_elem_of_bind. exists j. split; [|by apply elem_of_range].
    by apply list_elem_of_singleton.
Qed.

Lemma NoDup_pairs n : NoDup (pairs n).
Proof.
  unfold pairs. apply NoDup_bind; [| |apply NoDup_range].
  - intros a1 a2 [b c] _ _ (x & Hx & _)%list_elem_of_bind
           (y & Hy & _)%list_elem_of_bind.
    apply list_elem_of_singleton in Hx, Hy. congruence.
  - intros a _. apply NoDup_bind; [| |apply NoDup_range].
    + intros b1 b2 c _ _ Hx%list_elem_of_singleton Hy%list_elem_of_singleton.
      congruence.
    + intros b _. apply NoDup_singleton.
Qed.

Lemma pass_pairs n k g :
  pass n k g = for_each (pairs n) (relax_pair k) g.
Proof.
  unfold pass, pairs.
  rewrite <- for_each_nested.
  assert (forall xs g, for_each xs (fun i => for_each (range n) (fun j => relax k i j)) g
          = for_each xs (fun x => for_each (range n ≫= fun j => [(x, j)]) (relax_pair k)) g) as H.
  { induction xs as [|x xs IH]; intros g0; [done|]. simpl. unfold bind.
    rewrite <- for_each_nested.
    assert (forall ys g, for_each ys (fun j => relax k x j) g
            = for_each ys (fun j => for_each [(x, j)] (relax_pair k)) g) as H2.
    { induction ys as [|y ys IH2]; intros g1; [done|]. simpl. unfold bind.
      unfold relax_pair at 1. simpl.
      destruct (relax k x y g1) as [[[]|e] g2]; [|done]. simpl. apply IH2. }
    rewrite H2.
    destruct (for_each (range n) _ g0) as [[[]|e] g2]; [|done]. apply IH. }
  apply H.
Qed.

Lemma floyd_warshall_passes g :
  floyd_warshall g =
  for_each (range (num_vertices g)) (pass (num_vertices g)) g.
Proof. unfold floyd_warshall, bind, lift. done. Qed.

Definition relax_triple (t : Z * Z * Z) : M unit := relax t.1.1 t.1.2 t.2.

(** The triples of [floyd_warshall], in the order of its three loops. *)
Definition triples (n : Z) : list (Z * Z * Z) :=
  k ← range n; i ← range n; j ← range n; [(k, i, j)].

Lemma floyd_warshall_triples g :
  floyd_warshall g = for_each (triples (num_vertices g)) relax_triple g.
Proof.
  rewrite floyd_warshall_passes. unfold triples.
  rewrite <- for_each_nested.
  assert (forall ks g1,
    for_each ks (pass (num_vertices g)) g1 =
    for_each ks (fun k => for_each
      (range (num_vertices g) ≫= fun i =>
         range (num_vertices g) ≫= fun j => [(k, i, j)]) relax_triple) g1) as H.
  { induction ks as [|k ks IH]; intros g1; [done|]. simpl. unfold bind.
    assert (pass (num_vertices g) k g1 =
            for_each (range (num_vertices g) ≫= fun i =>
               range (num_vertices g) ≫= fun j => [(k, i, j)]) relax_triple g1)
      as ->.
    { unfold pass. rewrite <- for_each_nested.
      generalize (range (num_vertices g)) at 1 3. intros xs. revert g1.
      induction xs as [|x xs IHx]; intros g1; [done|]. simpl. unfold bind.
      rewrite <- for_each_nested.
      assert (forall ys g2, for_each ys (fun j => relax k x j) g2 =
                for_each ys (fun j => for_each [(k, x, j)] relax_triple) g2) as ->.
      { induction ys as [|y ys IHy]; intros g2; [done|]. simpl. unfold bind.
        change (relax_triple (k, x, y) g2) with (relax k x y g2).
        destruct (relax k x y g2) as [[[]|] g3]; [|done]. simpl. apply IHy. }
      destruct (for_each (range (num_vertices g)) _ g1) as [[[]|] g3]; [|done].
      apply IHx. }
    destruct (for_each _ relax_triple g1) as [[[]|] g3]; [|done]. apply IH. }
  apply H.
Qed.

Lemma elem_of_triples n k i j :
  (k, i, j) ∈ triples n -> 0 <= k < n /\ 0 <= i < n /\ 0 <= j < n.
Proof.
  unfold triples.
  intros (a & (b & (c & Hc & Hj)%list_elem_of_bind & Hi)%list_elem_of_bind & Hk)
         %list_elem_of_bind.
  apply list_elem_of_singleton in Hc. simplify_eq.
  apply elem_of_range in Hk, Hi, Hj. done.
Qed.

(** ** What every run of relaxations keeps *)

(** [g] is a state the loops can reach from [g0]: same shape, same
    [initial_adj], no distance larger than in [g0]. *)
Definition follows (g0 g : Graph) : Prop :=
  shaped g /\ num_vertices g = num_vertices g0 /\
  initial_adj g = initial_adj g0 /\
  forall a b, vertex g0 a -> vertex g0 b -> wle (Lf g a b) (Lf g0 a b).

Lemma follows_refl g : shaped g -> follows g g.
Proof. intros. split_and!; try done. intros. apply wle_refl. Qed.

Lemma relax_follows g0 g k i j :
  follows g0 g -> vertex g0 k -> vertex g0 i -> vertex g0 j ->
  exists g', relax k i j g = (Ok tt, g') /\ follows g0 g'.
Proof.
  intros (Hg & Hn & HA & Hle) Hk Hi Hj.
  assert (forall a, vertex g0 a -> vertex g a) as Hv
    by (unfold vertex; intros; lia).
  destruct (relax_spec g k i j Hg (Hv _ Hk) (Hv _ Hi) (Hv _ Hj))
    as (g' & R & Hg' & N' & A' & VL & VP).
  exists g'. split; [done|]. split_and!; try congruence.
  intros a b Ha Hb.
  eapply wle_trans; [|by apply Hle]. rewrite VL by auto.
  split_cell a b i j; [|apply wle_refl].
  unfold relaxed_L. apply wmin_le_l.
Qed.

Lemma pass_follows g0 g k :
  follows g0 g -> vertex g0 k ->
  exists g', pass (num_vertices g0) k g = (Ok tt, g') /\ follows g0 g'.
Proof.
  intros Hg Hk. rewrite pass_pairs.
  apply (for_each_inv (follows g0)
           (fun ij => vertex g0 ij.1 /\ vertex g0 ij.2)); [| |done].
  - intros [i j] g1 [Hi Hj] Hg1. by apply relax_follows.
  - apply Forall_forall. intros [i j] Hij%elem_of_pairs. done.
Qed.

(** The closure never raises on a well-shaped object. *)
Lemma floyd_warshall_follows g :
  shaped g -> exists g', floyd_warshall g = (Ok tt, g') /\ follows g g'.
Proof.
  intros Hg. rewrite floyd_warshall_passes.
  apply (for_each_inv (follows g) (vertex g)).
  - intros k g1 Hk Hg1. by apply pass_follows.
  - apply Forall_forall. intros k Hk%elem_of_range. done.
  - by apply follows_refl.
Qed.

(** ** A pass whose pivot has no negative self-distance *)

Definition nonneg (d : weight) : Prop := wlt d (Fin 0) = false.

Lemma relaxed_L_col l k a : nonneg (l k k) -> relaxed_L l k a k = l a k.
Proof.
  unfold relaxed_L, nonneg. generalize (l a k), (l k k). intros x y. wcases.
Qed.

Lemma relaxed_L_row l k b : nonneg (l k k) -> relaxed_L l k k b = l k b.
Proof.
  unfold relaxed_L, nonneg. generalize (l k b), (l k k). intros x y. wcases.
Qed.

Lemma relaxed_P_row l p k b : nonneg (l k k) -> relaxed_P l p k k b = p k b.
Proof.
  unfold relaxed_P, nonneg. cbv zeta. intros Hk.
  destruct (is_inf _) eqn:E1; [done|].
  destruct (wlt (wadd _ _) _) eqn:E2.
  { revert Hk E2. generalize (l k b), (l k k). intros x y. wcases. }
  destruct (weqb _ _); [|done]. apply add_unique_self.
Qed.

(** After the relaxations of a duplicate-free list of pairs, with pivot
    [k], exactly the cells of the list have been relaxed, each from the
    matrices as they were before the first of them. *)
Lemma pass_list k ps : forall g,
  shaped g -> NoDup ps ->
  Forall (fun ij => vertex g ij.1 /\ vertex g ij.2) ps ->
  vertex g k -> nonneg (Lf g k k) ->
  exists g', for_each ps (relax_pair k) g = (Ok tt, g') /\ shaped g' /\
    num_vertices g' = num_vertices g /\ initial_adj g' = initial_adj g /\
    forall a b, vertex g a -> vertex g b ->
      Lf g' a b = (if bool_decide ((a, b) ∈ ps)
                   then relaxed_L (Lf g) k a b else Lf g a b) /\
      Pf g' a b = (if bool_decide ((a, b) ∈ ps)
                   then relaxed_P (Lf g) (Pf g) k a b else Pf g a b).
Proof.
  induction ps as [|[i j] ps IH]; intros g Hg Hnd Hps Hk Hkk.
  - exists g. split_and!; try done.
  - apply NoDup_cons in Hnd as [Hnotin Hnd].
    apply Forall_cons in Hps as [[Hi Hj] Hps]. simpl in Hi, Hj.
    destruct (relax_spec g k i j Hg Hk Hi Hj)
      as (g1 & R1 & Hg1 & N1 & A1 & VL & VP).
    simpl. unfold relax_pair at 1. simpl. rewrite (bind_Ok _ _ _ _ _ R1).
    assert (forall a, vertex g a <-> vertex g1 a) as Hv
      by (unfold vertex; intros; rewrite N1; done).
    assert (forall a, vertex g a -> Lf g1 a k = Lf g a k) as Hcol.
    { intros a Ha. rewrite VL by done.
      split_cell a k i j; [|done]. by apply relaxed_L_col. }
    assert (forall b, vertex g b -> Lf g1 k b = Lf g k b) as Hrow.
    { intros b Hb. rewrite VL by done.
      split_cell k b i j; [|done]. by apply relaxed_L_row. }
    assert (forall b, vertex g b -> Pf g1 k b = Pf g k b) as HProw.
    { intros b Hb. rewrite VP by done.
      split_cell k b i j; [|done]. by apply relaxed_P_row. }
    destruct (IH g1) as (g' & R & Hg' & N' & A' & V); try done.
    { eapply Forall_impl; [exact Hps|]. intros [a b] [? ?]. split; by apply Hv. }
    { by apply Hv. }
    { by rewrite Hcol. }
    exists g'. split_and!; try congruence.
    intros a b Ha Hb.
    destruct (V a b) as [V1 V2]; [by apply Hv..|].
    rewrite V1, V2. clear V1 V2.
    destruct (decide ((a, b) = (i, j))) as [E|Hne].
    + simplify_eq.
      rewrite (bool_decide_eq_false_2 _ Hnotin).
      rewrite bool_decide_eq_true_2 by left.
      rewrite VL, VP by done. rewrite !decide_True by done. done.
    + assert (~ (a = i /\ b = j)) as Hne' by (intros [? ?]; congruence).
      assert (Lf g1 a b = Lf g a b) as E1
        by (rewrite VL by done; by rewrite decide_False).
      assert (Pf g1 a b = Pf g a b) as E2
        by (rewrite VP by done; by rewrite decide_False).
      assert (bool_decide ((a, b) ∈ (i, j) :: ps) = bool_decide ((a, b) ∈ ps)) as ->.
      { apply bool_decide_ext. rewrite elem_of_cons. tauto. }
      unfold relaxed_L, relaxed_P.
      rewrite E1, E2, Hcol, !Hrow, HProw by done. done.
Qed.

(** A whole pass relaxes every cell from the matrices before the pass. *)
Lemma pass_spec g k :
  shaped g -> vertex g k -> nonneg (Lf g k k) ->
  exists g', pass (num_vertices g) k g = (Ok tt, g') /\ shaped g' /\
    num_vertices g' = num_vertices g /\ initial_adj g' = initial_adj g /\
    forall a b, vertex g a -> vertex g b ->
      Lf g' a b = relaxed_L (Lf g) k a b /\
      Pf g' a b = relaxed_P (Lf g) (Pf g) k a b.
Proof.
  intros Hg Hk Hkk. rewrite pass_pairs.
  destruct (pass_list k (pairs (num_vertices g)) g)
    as (g' & R & Hg' & N' & A' & V); try done.
  { apply NoDup_pairs. }
  { apply Forall_forall. intros [i j] Hij%elem_of_pairs. done. }
  exists g'. split_and!; try done.
  intros a b Ha Hb. destruct (V a b Ha Hb) as [V1 V2].
  rewrite bool_decide_eq_true_2 in V1, V2 by (by apply elem_of_pairs).
  done.
Qed.

(** ** The closure when no self-distance is negative *)

(** The triangle inequality through the pivots below [m]. *)
Definition tri (n : Z) (l : Z -> Z -> weight) (m : Z) : Prop :=
  forall i j x, 0 <= i < n -> 0 <= j < n -> 0 <= x < m -> x < n ->
    wle (l i j) (wadd (l i x) (l x j)).

(** Where a pivot below [m] lies on a shortest connection, the
    predecessors recorded from the pivot are recorded for the pair. *)
Definition pinc (n : Z) (l : Z -> Z -> weight) (p : Z -> Z -> list Z)
           (m : Z) : Prop :=
  forall i j x, 0 <= i < n -> 0 <= j < n -> 0 <= x < m -> x < n ->
    finite (l i x) -> finite (l x j) -> wadd (l i x) (l x j) = l i j ->
    forall v, v ∈ p x j -> v ∈ p i j.

Lemma tri_arith (ij ix xj ik kj kx xk kk : weight) :
  nonneg kk ->
  wle ij (wadd ix xj) -> wle kj (wadd kx xj) ->
  wle ik (wadd ix xk) -> wle kk (wadd kx xk) ->
  wle (wmin ij (wadd ik kj))
      (wadd (wmin ix (wadd ik kx)) (wmin xj (wadd xk kj))).
Proof. unfold nonneg. wcases. Qed.

Lemma tri_step n l l' k :
  0 <= k < n -> nonneg (l k k) -> tri n l k ->
  (forall a b, 0 <= a < n -> 0 <= b < n -> l' a b = relaxed_L l k a b) ->
  tri n l' (k + 1).
Proof.
  intros Hk Hkk Ht Hl' i j x Hi Hj Hx Hxn.
  rewrite !Hl' by lia.
  destruct (decide (x = k)) as [->|Hne].
  - rewrite relaxed_L_col, relaxed_L_row by done. apply wmin_le_r.
  - unfold relaxed_L. apply tri_arith with (kk := l k k); try done;
      apply Ht; lia.
Qed.

(** Membership in a relaxed predecessor list, when the pivot has no
    negative self-distance. *)
Lemma elem_of_relaxed_P l p k a b v :
  nonneg (l k k) ->
  v ∈ relaxed_P l p k a b <->
  (v ∈ p a b /\ wle (l a b) (wadd (l a k) (l k b))) \/
  (v ∈ p k b /\ finite (wadd (l a k) (l k b)) /\
   wle (wadd (l a k) (l k b)) (l a b)).
Proof.
  intros Hkk. unfold relaxed_P. cbv zeta.
  destruct (is_inf (wadd (l a k) (l k b))) eqn:E1.
  { assert (wadd (l a k) (l k b) = Inf) as -> by (by destruct (wadd _ _)).
    split; [intros; left; split; [done|]; by destruct (l a b)|].
    intros [[? _]|(_ & ? & _)]; done. }
  destruct (wlt (wadd (l a k) (l k b)) (l a b)) eqn:E2.
  { case_bool_decide as Hak.
    - subst a. exfalso. revert Hkk E2. unfold nonneg.
      generalize (l k k), (l k b). intros x y. wcases.
    - rewrite elem_of_add_unique, elem_of_nil.
      split.
      + intros [[]|Hv]. right. split_and!; try done.
        revert E2. generalize (wadd (l a k) (l k b)), (l a b). intros x y. wcases.
      + intros [[_ Hle]|[Hv _]]; [|by right].
        unfold wle in Hle. congruence. }
  destruct (weqb (wadd (l a k) (l k b)) (l a b)) eqn:E3.
  - rewrite elem_of_add_unique.
    assert (wle (l a b) (wadd (l a k) (l k b)) /\
            wle (wadd (l a k) (l k b)) (l a b)) as [H1 H2].
    { revert E3. generalize (wadd (l a k) (l k b)), (l a b). intros x y. wcases. }
    split; [intros [?|?]; [left|right]; done|].
    intros [[? _]|[? _]]; [by left|by right].
  - split; [intros; left; split; [done|]|].
    + revert E2. generalize (wadd (l a k) (l k b)), (l a b). intros x y. wcases.
    + intros [[? _]|(_ & _ & Hle)]; [done|]. exfalso.
      revert E1 E2 E3 Hle.
      generalize (wadd (l a k) (l k b)), (l a b). intros x y. wcases.
Qed.

Lemma pinc_arith_pivot (xj xk kj ij ix ik kx kk : weight) :
  nonneg kk ->
  wle ik (wadd ix xk) -> wle kk (wadd kx xk) ->
  finite (wadd xk kj) -> wle (wadd xk kj) xj ->
  finite (wmin ix (wadd ik kx)) ->
  wadd (wmin ix (wadd ik kx)) (wmin xj (wadd xk kj)) = wmin ij (wadd ik kj) ->
  finite (wadd ik kj) /\ wle (wadd ik kj) ij.
Proof. unfold nonneg. wcases; split; wcases. Qed.

Lemma pinc_arith_old (xj xk kj ij ix ik kx kk : weight) :
  nonneg kk ->
  wle ij (wadd ix xj) -> wle kj (wadd kx xj) ->
  wle xj (wadd xk kj) ->
  finite (wmin ix (wadd ik kx)) -> finite (wmin xj (wadd xk kj)) ->
  wadd (wmin ix (wadd ik kx)) (wmin xj (wadd xk kj)) = wmin ij (wadd ik kj) ->
  (finite ix /\ finite xj /\ wadd ix xj = ij /\ wle ij (wadd ik kj)) \/
  (finite kx /\ finite xj /\ wadd kx xj = kj /\
   finite (wadd ik kj) /\ wle (wadd ik kj) ij).
Proof.
  unfold nonneg. wcases;
    solve [left; split_and!; wcases | right; split_and!; wcases].
Qed.

Lemma pinc_arith_new (ij ik kj : weight) :
  finite ik -> finite kj -> wadd ik kj = wmin ij (wadd ik kj) ->
  finite (wadd ik kj) /\ wle (wadd ik kj) ij.
Proof. wcases; split; wcases. Qed.

Lemma pinc_step n l p l' p' k :
  0 <= k < n -> nonneg (l k k) -> tri n l k -> pinc n l p k ->
  (forall a b, 0 <= a < n -> 0 <= b < n -> l' a b = relaxed_L l k a b) ->
  (forall a b, 0 <= a < n -> 0 <= b < n -> p' a b = relaxed_P l p k a b) ->
  pinc n l' p' (k + 1).
Proof.
  intros Hk Hkk Ht Hp Hl' Hp' i j x Hi Hj Hx Hxn Fix Fxj Htie v Hv.
  rewrite (Hl' i x), (Hl' x j), (Hl' i j) in Htie by lia.
  rewrite Hl' in Fix by lia. rewrite Hl' in Fxj by lia.
  rewrite Hp' in Hv by lia. rewrite Hp' by lia.
  apply elem_of_relaxed_P; [done|].
  destruct (decide (x = k)) as [->|Hne].
  - rewrite relaxed_P_row in Hv by done.
    rewrite relaxed_L_col in Fix by done.
    rewrite relaxed_L_row in Fxj by done.
    rewrite relaxed_L_col, relaxed_L_row in Htie by done.
    right. split; [done|]. by apply pinc_arith_new.
  - apply elem_of_relaxed_P in Hv as [[Hv Hle]|(Hv & Hfin & Hle)]; [| |done].
    + unfold relaxed_L in *.
      destruct (pinc_arith_old (l x j) (l x k) (l k j) (l i j) (l i x)
                  (l i k) (l k x) (l k k))
        as [(F1 & F2 & E & Hc)|(F1 & F2 & E & Hf & Hc)]; try done;
        try (apply Ht; lia).
      * left. split; [|done]. apply (Hp i j x); (done || lia).
      * right. split; [|done]. apply (Hp k j x); (done || lia).
    + unfold relaxed_L in *. right. split; [done|].
      apply (pinc_arith_pivot (l x j) (l x k) (l k j) (l i j) (l i x)
               (l i k) (l k x) (l k k)); try done; apply Ht; lia.
Qed.

Definition no_negative (g : Graph) : Prop :=
  forall x, vertex g x -> nonneg (Lf g x x).

Lemma nonneg_mono a b : wle a b -> nonneg a -> nonneg b.
Proof. unfold nonneg. wcases. Qed.

Lemma follows_trans g0 g1 g2 : follows g0 g1 -> follows g1 g2 -> follows g0 g2.
Proof.
  intros (H1 & N1 & A1 & L1) (H2 & N2 & A2 & L2).
  split_and!; try congruence.
  intros a b Ha Hb. eapply wle_trans; [|by apply L1].
  apply L2; unfold vertex in *; lia.
Qed.

Lemma follows_no_negative g0 g : follows g0 g -> no_negative g -> no_negative g0.
Proof.
  intros (_ & N & _ & Hle) Hg x Hx.
  eapply nonneg_mono; [by apply Hle|]. apply Hg. unfold vertex in *. lia.
Qed.

(** The state after the first [m] passes. *)
Lemma passes_inv g0 (m : nat) :
  shaped g0 -> Z.of_nat m <= num_vertices g0 ->
  exists g, for_each (range (Z.of_nat m)) (pass (num_vertices g0)) g0 = (Ok tt, g) /\
    follows g0 g /\
    (no_negative g ->
     tri (num_vertices g0) (Lf g) (Z.of_nat m) /\
     pinc (num_vertices g0) (Lf g) (Pf g) (Z.of_nat m)).
Proof.
  intros Hg0. induction m as [|m IH]; intros Hm.
  - exists g0. split_and!; [done|by apply follows_refl|].
    intros _. split; intros i j x; lia.
  - destruct IH as (g & R & Hf & Hinv); [lia|].
    replace (Z.of_nat (S m)) with (Z.of_nat m + 1) by lia.
    rewrite range_succ, for_each_app by lia.
    rewrite (bind_Ok _ _ _ _ _ R). simpl.
    pose proof Hf as (Hg & N & A & Hle).
    assert (vertex g (Z.of_nat m)) as Hk by (unfold vertex; lia).
    destruct (pass_follows g g (Z.of_nat m)) as (g' & R' & Hf');
      [by apply follows_refl|done|].
    rewrite <- N. rewrite (bind_Ok _ _ _ _ _ R'). simpl.
    exists g'. split_and!; [done|by eapply follows_trans|].
    intros Hnn.
    pose proof (follows_no_negative _ _ Hf' Hnn) as Hnn0.
    destruct (Hinv Hnn0) as [Ht Hp].
    destruct (pass_spec g (Z.of_nat m) Hg Hk (Hnn0 _ Hk))
      as (g'' & R'' & _ & _ & _ & V).
    rewrite R' in R''. simplify_eq.
    rewrite N in *.
    split.
    + eapply tri_step; [| |exact Ht|]; [lia|by apply Hnn0|].
      intros a b Ha Hb. apply V; unfold vertex; lia.
    + eapply pinc_step; [| |exact Ht|exact Hp| |]; [lia|by apply Hnn0| |].
      * intros a b Ha Hb. apply V; unfold vertex; lia.
      * intros a b Ha Hb. apply V; unfold vertex; lia.
Qed.

(** The closure: it returns; distances have not grown; and when no
    self-distance is negative at the end, the triangle inequality holds
    throughout and predecessor lists are closed under composition. *)
Lemma floyd_warshall_inv g0 :
  shaped g0 ->
  exists g, floyd_warshall g0 = (Ok tt, g) /\ follows g0 g /\
    (no_negative g ->
     tri (num_vertices g0) (Lf g) (num_vertices g0) /\
     pinc (num_vertices g0) (Lf g) (Pf g) (num_vertices g0)).
Proof.
  intros Hg0. rewrite floyd_warshall_passes.
  destruct (Z.le_gt_cases 0 (num_vertices g0)) as [Hn|Hn].
  - destruct (passes_inv g0 (Z.to_nat (num_vertices g0)) Hg0) as (g & R & Hf & H);
      [lia|].
    rewrite Z2Nat.id in * by done. eauto.
  - rewrite range_neg by lia. exists g0.
    split_and!; [done|by apply follows_refl|].
    intros _. split; intros i j x; lia.
Qed.

(** ** Running the closure again *)

Lemma setP_same g i j :
  shaped g -> vertex g i -> vertex g j -> setP i j (Pf g i j) g = (Ok tt, g).
Proof.
  intros Hg Hi Hj. unfold setP.
  rewrite (mat_set_same _ _ _ _ (getP_Pf g i j Hg Hi Hj)). by destruct g.
Qed.

(** On matrices that satisfy the triangle inequality and are closed
    under composition, a relaxation changes nothing. *)
Lemma relax_fixed g k i j :
  shaped g -> vertex g k -> vertex g i -> vertex g j ->
  tri (num_vertices g) (Lf g) (num_vertices g) ->
  pinc (num_vertices g) (Lf g) (Pf g) (num_vertices g) ->
  relax k i j g = (Ok tt, g).
Proof.
  intros Hg Hk Hi Hj Ht Hp. unfold relax.
  rewrite (bind_Ok _ _ _ _ _ (getL_run g i k Hg Hi Hk)). cbv beta.
  pose proof (Ht i j k Hi Hj Hk ltac:(unfold vertex in *; lia)) as Hle.
  pose proof (Hp i j k Hi Hj Hk ltac:(unfold vertex in *; lia)) as Hsub.
  destruct (Lf g i k) as [x|] eqn:Eik; cbn [is_inf]; [|done].
  rewrite (bind_Ok _ _ _ _ _ (getL_run g k j Hg Hk Hj)). cbv beta.
  destruct (Lf g k j) as [y|] eqn:Ekj; cbn [is_inf]; [|done].
  rewrite (bind_Ok _ _ _ _ _ (getL_run g i k Hg Hi Hk)), Eik.
  rewrite (bind_Ok _ _ _ _ _ (getL_run g k j Hg Hk Hj)), Ekj.
  rewrite (bind_Ok _ _ _ _ _ (getL_run g i j Hg Hi Hj)). cbv beta zeta.
  cbn [wadd] in Hle, Hsub. unfold wle in Hle.
  destruct (wlt (Fin (x + y)) (Lf g i j)) eqn:Hlt.
  { unfold wle in Hle. congruence. }
  rewrite (bind_Ok _ _ _ _ _ (getL_run g i j Hg Hi Hj)). cbv beta.
  destruct (weqb (Fin (x + y)) (Lf g i j)) eqn:Heq; [|done].
  rewrite (bind_Ok _ _ _ _ _ (getP_run g i j Hg Hi Hj)).
  rewrite (bind_Ok _ _ _ _ _ (getP_run g k j Hg Hk Hj)).
  rewrite add_unique_incl; [by apply setP_same|].
  apply Hsub; try done.
  destruct (Lf g i j); simpl in Heq; [|done].
  apply Z.eqb_eq in Heq. by subst.
Qed.

Lemma floyd_warshall_fixed g :
  shaped g ->
  tri (num_vertices g) (Lf g) (num_vertices g) ->
  pinc (num_vertices g) (Lf g) (Pf g) (num_vertices g) ->
  floyd_warshall g = (Ok tt, g).
Proof.
  intros Hg Ht Hp. rewrite floyd_warshall_passes.
  destruct (for_each_inv (fun g' => g' = g) (vertex g)
              (pass (num_vertices g)) (range (num_vertices g)) g)
    as (g' & R & ->); [| |done|done].
  - intros k ? Hk ->. rewrite pass_pairs.
    apply (for_each_inv (fun g' => g' = g)
             (fun ij => vertex g ij.1 /\ vertex g ij.2)); [| |done].
    + intros [i j] ? [Hi Hj] ->. exists g. split; [|done].
      by apply relax_fixed.
    + apply Forall_forall. intros [i j] Hij%elem_of_pairs. done.
  - apply Forall_forall. intros k Hk%elem_of_range. done.
Qed.

(** ** [has_negative_cycle] on a well-shaped object *)

Lemma any_negative_spec g idx :
  shaped g -> Forall (vertex g) idx ->
  exists b, any_negative g idx = Ok b /\
    (b = true <-> exists i, i ∈ idx /\ wlt (Lf g i i) (Fin 0) = true).
Proof.
  intros Hg. induction 1 as [|i idx Hi Hidx IH]; simpl.
  - exists false. split; [done|]. split; [done|].
    intros (i & Hi%elem_of_nil & _). done.
  - rewrite (getL_Lf g i i Hg Hi Hi). simpl.
    destruct (wlt (Lf g i i) (Fin 0)) eqn:E.
    + exists true. split; [done|]. split; [|done]. intros _.
      exists i. split; [left|done].
    + destruct IH as (b & -> & Hb). exists b. split; [done|].
      rewrite Hb. split.
      * intros (i' & Hi' & Hn). exists i'. split; [by right|done].
      * intros (i' & [->|Hi']%elem_of_cons & Hn); [congruence|eauto].
Qed.

Lemma has_negative_cycle_spec g :
  shaped g ->
  exists b, has_negative_cycle g = Ok b /\
    (b = true <-> exists i, vertex g i /\ wlt (Lf g i i) (Fin 0) = true).
Proof.
  intros Hg. unfold has_negative_cycle.
  destruct (any_negative_spec g (range (num_vertices g)) Hg) as (b & Hb & Hiff).
  { apply Forall_forall. intros i Hi%elem_of_range. done. }
  exists b. split; [done|]. rewrite Hiff.
  split; intros (i & Hi & Hn); exists i; (split; [|done]); by apply elem_of_range.
Qed.

Lemma has_negative_cycle_false g :
  shaped g -> has_negative_cycle g = Ok false -> no_negative g.
Proof.
  intros Hg Hf x Hx.
  destruct (has_negative_cycle_spec g Hg) as (b & Hb & Hiff).
  rewrite Hf in Hb. simplify_eq.
  unfold nonneg. destruct (wlt (Lf g x x) (Fin 0)) eqn:E; [|done].
  assert (false = true); [|done]. apply Hiff. eauto.
Qed.

(** ** [load_from_file] *)

Lemma mat_set_bounds {A} n (m : list (list A)) i j x m' :
  square n m -> mat_set m i j x = Ok m' -> - n <= i < n /\ - n <= j < n.
Proof.
  intros Hsq Hm.
  destruct (decide (- n <= i < n /\ - n <= j < n)) as [|Hbad]; [done|].
  assert (exists e, mat_set m i j x = Raise e) as [e He].
  { apply (mat_set_Raise m n); [done|]. lia. }
  congruence.
Qed.

Lemma mat_set_out {A} n (m : list (list A)) i j x :
  square n m -> ~ (- n <= i < n /\ - n <= j < n) ->
  exists e, mat_set m i j x = Raise e.
Proof. intros Hsq Hbad. apply (mat_set_Raise m n); [done|]. lia. Qed.

(** Lines 78-82: storing one edge [u v w]. *)
Definition store_edge (u v w : Z) : M unit :=
  setL u v (Fin w) ;;;
  setA u v (Fin w) ;;;
  preds <- getP u v ;;
  if bool_decide (u ∈ preds) then ret tt
  else setP u v (preds ++ [u]).

Lemma store_edge_raises g u v w :
  shaped g ->
  ~ (- num_vertices g <= u < num_vertices g /\
     - num_vertices g <= v < num_vertices g) ->
  exists e, store_edge u v w g = (Raise e, g).
Proof.
  intros (HL & _ & _) Hbad.
  destruct (mat_set_out _ (L g) u v (Fin w) HL Hbad) as [e He].
  exists e. unfold store_edge, bind, setL. by rewrite He.
Qed.

Lemma store_edge_spec g u v w :
  shaped g -> L g = initial_adj g ->
  - num_vertices g <= u < num_vertices g ->
  - num_vertices g <= v < num_vertices g ->
  let u' := wrap (num_vertices g) u in
  let v' := wrap (num_vertices g) v in
  exists g', store_edge u v w g = (Ok tt, g') /\ shaped g' /\
    num_vertices g' = num_vertices g /\ L g' = initial_adj g' /\
    vertex g u' /\ vertex g v' /\
    forall a b, vertex g a -> vertex g b ->
      Lf g' a b = (if decide (a = u' /\ b = v') then Fin w else Lf g a b) /\
      Pf g' a b = (if decide (a = u' /\ b = v')
                   then (if bool_decide (u ∈ Pf g u' v') then Pf g u' v'
                         else Pf g u' v' ++ [u])
                   else Pf g a b).
Proof.
  intros Hg HLA Hu Hv u' v'.
  pose proof Hg as (HL & HP & HA).
  destruct (mat_set_total _ (L g) u v (Fin w) HL Hu Hv) as [m' Hm'].
  destruct (mat_set_view _ _ _ _ _ _ HL Hm') as (Hu' & Hv' & Hsq & Hget).
  fold u' in Hu', Hget. fold v' in Hv', Hget.
  set (g1 := mkGraph (num_vertices g) m' (P g) m').
  assert (shaped g1) as Hg1 by (split_and!; done).
  assert ((setL u v (Fin w) ;;; setA u v (Fin w)) g = (Ok tt, g1)) as R1.
  { unfold bind, setL. rewrite Hm'. unfold setA. simpl. rewrite <- HLA, Hm'. done. }
  assert (Pf g1 u v = Pf g u' v') as EP.
  { unfold Pf. simpl. by rewrite (mat_get_wrap _ _ u v HP Hu Hv). }
  assert (mat_get (P g1) u v = Ok (Pf g u' v')) as GP.
  { simpl. rewrite (mat_get_wrap _ _ u v HP Hu Hv).
    by apply (getP_Pf g). }
  assert (forall a b, vertex g a -> vertex g b ->
            Lf g1 a b = if decide (a = u' /\ b = v') then Fin w else Lf g a b) as VL.
  { intros a b Ha Hb. unfold Lf. simpl. rewrite Hget by done. by case_decide. }
  unfold store_edge.
  assert (forall k : M unit,
            (setL u v (Fin w) ;;; setA u v (Fin w) ;;; k) g = k g1) as Hseq.
  { intros k. unfold bind in *.
    destruct (setL u v (Fin w) g) as [[[]|e] g0]; [|done].
    destruct (setA u v (Fin w) g0) as [[[]|e] g0']; by simplify_eq. }
  rewrite Hseq. unfold bind at 1, getP at 1, lift. rewrite GP.
  case_bool_decide as Hin.
  - exists g1. split_and!; try (done || (unfold vertex; lia)).
    intros a b Ha Hb. split; [by apply VL|].
    split_cell a b u' v'; done.
  - destruct (setP_spec g1 u v (Pf g u' v' ++ [u]) Hg1 Hu Hv)
      as (g2 & R2 & Hg2 & N2 & L2 & A2 & V2).
    assert (L g2 = initial_adj g2) by (rewrite L2, A2; done).
    exists g2. split_and!; try (done || congruence || (unfold vertex; lia)).
    intros a b Ha Hb. split.
    + unfold Lf at 1. rewrite L2. by apply VL.
    + rewrite V2 by done. fold u' v'. split_cell a b u' v'; done.
Qed.

(** The three integers [parts[0]], [parts[1]], [parts[2]] of edge line
    [i], or the exception raised on the way. *)
Definition edge_at (lines : list string) (i : Z) : result (Z * Z * Z) :=
  rbind (py_get lines (2 + i)) (fun line =>
  rbind (map_int (split line)) (fun parts =>
  rbind (py_get parts 0) (fun u =>
  rbind (py_get parts 1) (fun v =>
  rbind (py_get parts 2) (fun w => Ok (u, v, w)))))).

Lemma load_edge_unfold lines i g :
  load_edge lines i g =
  if 2 + i <? Z.of_nat (length lines) then
    match edge_at lines i with
    | Ok (u, v, w) => store_edge u v w g
    | Raise e => (Raise e, g)
    end
  else (Ok tt, g).
Proof.
  unfold load_edge, edge_at. destruct (_ <? _); [|done].
  unfold bind at 1, lift at 1. destruct (py_get lines (2 + i)) as [line|]; [|done].
  unfold bind at 1, lift at 1. simpl.
  destruct (map_int (split line)) as [parts|]; [|done].
  unfold bind at 1, lift at 1. simpl.
  destruct (py_get parts 0) as [u|]; [|done].
  unfold bind at 1, lift at 1. simpl.
  destruct (py_get parts 1) as [v|]; [|done].
  unfold bind at 1, lift at 1. simpl.
  destruct (py_get parts 2) as [w|]; [|done].
  done.
Qed.

(** What holds of the object between two iterations of the edge loop. *)
Definition loaded_inv (g : Graph) : Prop :=
  shaped g /\ L g = initial_adj g /\
  (forall a, vertex g a -> finite (Lf g a a)) /\
  (forall a b, vertex g a -> vertex g b -> Pf g a b <> [] -> finite (Lf g a b)) /\
  (forall a b, vertex g a -> vertex g b ->
     finite (Lf g a b) -> a <> b -> Pf g a b <> []).

Lemma store_edge_inv g u v w g' :
  loaded_inv g -> store_edge u v w g = (Ok tt, g') ->
  loaded_inv g' /\ num_vertices g' = num_vertices g.
Proof.
  intros (Hg & HLA & Hd & Hpf & Hfp) R.
  destruct (decide (- num_vertices g <= u < num_vertices g /\
                    - num_vertices g <= v < num_vertices g)) as [[Hu Hv]|Hbad].
  2:{ destruct (store_edge_raises g u v w Hg Hbad) as [e He]. congruence. }
  destruct (store_edge_spec g u v w Hg HLA Hu Hv)
    as (g1 & R1 & Hg1 & N1 & LA1 & Hu' & Hv' & V).
  rewrite R in R1. simplify_eq.
  assert (forall a, vertex g1 a -> vertex g a) as Hvx
    by (unfold vertex; intros; lia).
  split; [|done]. split_and!; try done.
  - intros a Ha%Hvx. destruct (V a a Ha Ha) as [-> _].
    destruct (decide (a = _ /\ a = _)); [reflexivity|auto].
  - intros a b Ha%Hvx Hb%Hvx. destruct (V a b Ha Hb) as [-> ->].
    destruct (decide (a = _ /\ b = _)); [reflexivity|auto].
  - intros a b Ha%Hvx Hb%Hvx. destruct (V a b Ha Hb) as [-> ->].
    destruct (decide (a = _ /\ b = _)); [|auto]. intros _ _.
    case_bool_decide as Hin.
    + intros E. rewrite E in Hin. by apply elem_of_nil in Hin.
    + by destruct (Pf g _ _).
Qed.

Lemma load_edge_inv lines i g g' :
  loaded_inv g -> load_edge lines i g = (Ok tt, g') ->
  loaded_inv g' /\ num_vertices g' = num_vertices g.
Proof.
  intros Hg. rewrite load_edge_unfold.
  destruct (_ <? _); [|by intros [= <-]].
  destruct (edge_at lines i) as [[[u v] w]|]; [|done].
  by apply store_edge_inv.
Qed.

(** A loop whose body keeps an invariant whenever it returns. *)
Lemma for_each_inv_Ok {A} (Inv : Graph -> Prop) (body : A -> M unit) xs :
  (forall x g g', Inv g -> body x g = (Ok tt, g') -> Inv g') ->
  forall g g', Inv g -> for_each xs body g = (Ok tt, g') -> Inv g'.
Proof.
  intros Hbody. induction xs as [|x xs IH]; intros g g' Hg; simpl.
  - by intros [= <-].
  - unfold bind. destruct (body x g) as [[[]|e] g1] eqn:E; [|done].
    apply IH. by eapply Hbody.
Qed.


(** A matrix built by the comprehensions of lines 64-66. *)
Lemma square_fresh {A} n (x : A) (w : nat) :
  w = Z.to_nat n -> square n ((fun _ : Z => replicate w x) <$> range n).
Proof.
  intros ->. split.
  - unfold range. by rewrite length_fmap, length_seqZ.
  - intros p row. rewrite list_lookup_fmap.
    destruct (range n !! p); simpl; [|done].
    intros [= <-]. apply length_replicate.
Qed.

Lemma square_fresh_P n :
  square n ((fun _ : Z => (fun _ : Z => @nil Z) <$> range n) <$> range n).
Proof.
  split.
  - unfold range. by rewrite length_fmap, length_seqZ.
  - intros p row. rewrite list_lookup_fmap.
    destruct (range n !! p); simpl; [|done].
    intros [= <-]. unfold range. by rewrite length_fmap, length_seqZ.
Qed.

Lemma alloc_matrices_spec g :
  exists g', alloc_matrices g = (Ok tt, g') /\ shaped g' /\
    num_vertices g' = num_vertices g /\ L g' = initial_adj g' /\
    forall a b, vertex g a -> vertex g b -> Lf g' a b = Inf /\ Pf g' a b = [].
Proof.
  eexists. split; [reflexivity|].
  assert (shaped (alloc_matrices g).2) as Hs.
  { split_and!; simpl; try (by apply square_fresh). apply square_fresh_P. }
  split_and!; try done.
  intros a b Ha Hb. destruct Hs as (HL & HP & _). simpl in *.
  split.
  - destruct (mat_get_cell _ _ a b HL Ha Hb) as (x & Hx & Hc).
    unfold Lf. simpl. rewrite Hx.
    unfold cell in Hc. rewrite list_lookup_fmap in Hc.
    destruct (range _ !! _); simpl in Hc; [|done].
    apply lookup_replicate in Hc as [-> _]. done.
  - destruct (mat_get_cell _ _ a b HP Ha Hb) as (x & Hx & Hc).
    unfold Pf. simpl. rewrite Hx.
    unfold cell in Hc. rewrite list_lookup_fmap in Hc.
    destruct (range _ !! _); simpl in Hc; [|done].
    rewrite list_lookup_fmap in Hc.
    destruct (range _ !! _); simpl in Hc; [|done]. by simplify_eq.
Qed.

(** Lines 69-71. *)
Definition zero_diagonal (i : Z) : M unit :=
  setL i i (Fin 0) ;;; setA i i (Fin 0).

Lemma zero_diagonal_loop xs : forall g,
  shaped g -> L g = initial_adj g -> Forall (vertex g) xs ->
  exists g', for_each xs zero_diagonal g = (Ok tt, g') /\ shaped g' /\
    num_vertices g' = num_vertices g /\ P g' = P g /\
    L g' = initial_adj g' /\
    forall a b, vertex g a -> vertex g b ->
      Lf g' a b = if bool_decide (a = b /\ a ∈ xs) then Fin 0 else Lf g a b.
Proof.
  induction xs as [|i xs IH]; intros g Hg HLA Hxs.
  - exists g. split_and!; try done. intros a b _ _.
    rewrite bool_decide_eq_false_2; [done|]. intros [_ []%elem_of_nil].
  - apply Forall_cons in Hxs as [Hi Hxs].
    pose proof Hg as (HL & HP & HA).
    destruct (mat_set_total _ (L g) i i (Fin 0) HL) as [m' Hm'];
      [unfold vertex in Hi; lia..|].
    destruct (mat_set_view _ _ _ _ _ _ HL Hm') as (_ & _ & Hsq & Hget).
    rewrite wrap_id in Hget by (unfold vertex in Hi; lia).
    set (g1 := mkGraph (num_vertices g) m' (P g) m').
    assert (zero_diagonal i g = (Ok tt, g1)) as R1.
    { unfold zero_diagonal, bind, setL. rewrite Hm'. unfold setA. simpl.
      rewrite <- HLA, Hm'. done. }
    simpl. rewrite (bind_Ok _ _ _ _ _ R1).
    destruct (IH g1) as (g' & R & Hg' & N' & P' & LA' & V); try done.
    exists g'. split_and!; try done.
    intros a b Ha Hb. rewrite V by done.
    assert (Lf g1 a b = if decide (a = i /\ b = i) then Fin 0 else Lf g a b) as ->.
    { unfold Lf. simpl. rewrite Hget by done. by case_decide. }
    destruct (decide (a = b /\ a ∈ xs)) as [[-> Hin]|Hn].
    + rewrite !bool_decide_eq_true_2; [done| |done]. split; [done|by right].
    + rewrite (bool_decide_eq_false_2 _ Hn).
      destruct (decide (a = i /\ b = i)) as [[-> ->]|Hn'].
      * rewrite bool_decide_eq_true_2; [done|]. split; [done|left].
      * rewrite bool_decide_eq_false_2; [done|].
        intros [-> [->|?]%elem_of_cons]; tauto.
Qed.

(** The object when the edge loop starts. *)
Lemma prepared_inv g :
  exists g', (alloc_matrices ;;;
              nv <- lift (fun g => Ok (num_vertices g)) ;;
              for_each (range nv) zero_diagonal) g = (Ok tt, g') /\
    loaded_inv g' /\ num_vertices g' = num_vertices g /\
    forall a b, vertex g a -> vertex g b -> Pf g' a b = [].
Proof.
  destruct (alloc_matrices_spec g) as (g1 & R1 & Hg1 & N1 & LA1 & V1).
  rewrite (bind_Ok _ _ _ _ _ R1). unfold bind at 1, lift at 1.
  destruct (zero_diagonal_loop (range (num_vertices g1)) g1)
    as (g2 & R2 & Hg2 & N2 & P2 & LA2 & V2); try done.
  { apply Forall_forall. by intros i Hi%elem_of_range. }
  exists g2. split; [done|].
  assert (forall a, vertex g2 a -> vertex g a) as Hv
    by (unfold vertex; intros; lia).
  assert (forall a, vertex g a -> vertex g1 a) as Hv1
    by (unfold vertex; intros; lia).
  assert (forall a b, vertex g a -> vertex g b -> Pf g2 a b = []) as HP.
  { intros a b Ha Hb. unfold Pf. rewrite P2. by apply V1. }
  split_and!; try done; try congruence.
  split_and!; try done.
  - intros a Ha%Hv. rewrite V2 by auto.
    rewrite bool_decide_eq_true_2; [done|].
    split; [done|]. apply elem_of_range. unfold vertex in *. lia.
  - intros a b Ha%Hv Hb%Hv Hne. by rewrite HP in Hne.
  - intros a b Ha%Hv Hb%Hv Hfin Hne.
    rewrite V2 in Hfin by auto.
    rewrite bool_decide_eq_false_2 in Hfin by tauto.
    destruct (V1 a b Ha Hb) as [E _]. by rewrite E in Hfin.
Qed.

(** The list [lines] of line 54. *)
Definition file_lines (raw : list string) : list string :=
  filter (fun l => nonblank l = true) (strip <$> raw).

(** The ways through the body of the [try]. *)
Lemma load_body_cases raw g :
  let lines := file_lines raw in
  (lines = [] /\ load_body raw g = (Ok false, g)) \/
  (lines <> [] /\ exists e,
     rbind (py_get lines 0) py_int = Raise e /\
     load_body raw g = (Raise e, g)) \/
  (lines <> [] /\ exists n e,
     rbind (py_get lines 0) py_int = Ok n /\
     rbind (py_get lines 1) py_int = Raise e /\
     load_body raw g = (Raise e, mkGraph n (L g) (P g) (initial_adj g))) \/
  (lines <> [] /\ exists n m gp,
     rbind (py_get lines 0) py_int = Ok n /\
     rbind (py_get lines 1) py_int = Ok m /\
     loaded_inv gp /\ num_vertices gp = n /\
     (forall a b, vertex gp a -> vertex gp b -> Pf gp a b = []) /\
     load_body raw g =
     match for_each (range m) (load_edge lines) gp with
     | (Ok _, g') => (Ok true, g')
     | (Raise e, g') => (Raise e, g')
     end).
Proof.
  intros lines. unfold load_body. fold (file_lines raw). fold lines.
  destruct lines as [|l0 rest] eqn:El; [left; done|right].
  rewrite <- El. assert (lines <> []) as Hne by (by rewrite El).
  destruct (rbind (py_get lines 0) py_int) as [n|e] eqn:E0.
  2:{ left. split; [done|]. exists e. split; [done|].
      by apply bind_Raise. }
  right.
  rewrite (bind_Ok _ _ g n g) by done.
  set (g1 := mkGraph n (L g) (P g) (initial_adj g)).
  rewrite (bind_Ok _ _ g tt g1) by done.
  destruct (rbind (py_get lines 1) py_int) as [m|e] eqn:E1.
  2:{ left. split; [done|]. exists n, e. split_and!; done. }
  right. split; [done|].
  rewrite (bind_Ok _ _ g1 m g1) by done.
  destruct (prepared_inv g1) as (gp & Rp & Hinv & Np & HP).
  exists n, m, gp. split_and!; try done.
  { intros a b Ha Hb. apply HP; unfold vertex in *; rewrite <- Np; done. }
  change (fun i : Z => setL i i (Fin 0);;; setA i i (Fin 0)) with zero_diagonal.
  revert Rp. unfold bind, lift.
  destruct (alloc_matrices g1) as [[[]|] g2]; [|done].
  destruct (for_each (range (num_vertices g2)) zero_diagonal g2) as [[[]|] g3];
    [|done].
  intros [= ->].
  destruct (for_each (range m) (load_edge lines) gp) as [[[]|] g4]; done.
Qed.

(** An object as [load_from_file] leaves it when it returns [True]. *)
Definition constructed (g : Graph) : Prop :=
  exists raw g0, load_from_file (Some raw) g0 = (Ok true, g).

Lemma constructed_inv g : constructed g -> loaded_inv g.
Proof.
  intros (raw & g0 & Hload). unfold load_from_file in Hload.
  destruct (load_body_cases raw g0)
    as [[_ E]|[(_ & e & _ & E)|[(_ & n & e & _ & _ & E)|
        (_ & n & m & gp & _ & _ & Hinv & Hn & _ & E)]]];
    rewrite E in Hload; try done.
  destruct (for_each (range m) (load_edge (file_lines raw)) gp)
    as [[[]|] g'] eqn:R; [|done].
  simplify_eq.
  eapply (for_each_inv_Ok loaded_inv); [|exact Hinv|exact R].
  intros i g1 g2 H1 R1. by eapply load_edge_inv.
Qed.

Lemma constructed_shaped g : constructed g -> shaped g.
Proof. by intros (? & _)%constructed_inv. Qed.

(** ** Walks in the input graph *)

(** The weight of the arc from [u] to [v] in the graph that was read:
    the entry of [initial_adj], except that the zero put on the diagonal
    by line 71 is no arc ([Inf] stands for "no arc").  A zero self-loop
    read from the file is left out with it; it cannot make a cycle
    negative. *)
Definition arc_weight (g : Graph) (u v : Z) : weight :=
  if (u =? v) && weqb (Af g u v) (Fin 0) then Inf else Af g u v.

(** The weight of the walk that starts at [u] and visits [vs]. *)
Fixpoint walk_weight (g : Graph) (u : Z) (vs : list Z) : weight :=
  match vs with
  | [] => Fin 0
  | v :: r => wadd (arc_weight g u v) (walk_weight g v r)
  end.

(** A closed walk of negative weight: it leaves [u], follows at least
    one arc, and ends in [u]. *)
Definition negative_cycle (g : Graph) : Prop :=
  exists u vs, vertex g u /\ Forall (vertex g) vs /\ last vs = Some u /\
               wlt (walk_weight g u vs) (Fin 0) = true.

Lemma walk_weight_app g u vs ws t :
  last (u :: vs) = Some t ->
  walk_weight g u (vs ++ ws) = wadd (walk_weight g u vs) (walk_weight g t ws).
Proof.
  revert u. induction vs as [|v vs IH]; intros u Hl; simpl.
  - simpl in Hl. simplify_eq. by destruct (walk_weight g t ws).
  - rewrite (IH v).
    + generalize (arc_weight g u v), (walk_weight g v vs), (walk_weight g t ws).
      intros x y z. wcases.
    + by rewrite last_cons_cons in Hl.
Qed.

Lemma wadd_mono a a' b b' : wle a a' -> wle b b' -> wle (wadd a b) (wadd a' b').
Proof. wcases. Qed.

(** A negative cycle proper: a closed walk of negative weight that
    visits no vertex twice. *)
Definition simple_negative_cycle (g : Graph) : Prop :=
  exists u vs, vertex g u /\ Forall (vertex g) vs /\ last vs = Some u /\
               NoDup vs /\ wlt (walk_weight g u vs) (Fin 0) = true.

Lemma last_cons_app_cons {A} (v : A) l2 x l3 :
  last (v :: l2 ++ x :: l3) = last (x :: l3).
Proof.
  rewrite app_comm_cons, last_app.
  destruct (last (x :: l3)) eqn:E; [done|]. by apply last_None in E.
Qed.

Lemma shorten_arith (a c w3 w : weight) :
  finite (wadd a w) -> wle (wadd c w3) w ->
  wlt c (Fin 0) = true \/
  (wle (wadd a w3) (wadd a w)).
Proof. wcases; (by left) || (right; wcases). Qed.

(** A walk of finite weight either runs through a negative cycle proper,
    or has the same ends as a walk without repeated vertex that weighs no
    more. *)
Lemma shorten_walk g vs : forall u,
  Forall (vertex g) vs -> finite (walk_weight g u vs) ->
  simple_negative_cycle g \/
  exists vs', Forall (vertex g) vs' /\ NoDup vs' /\
              last (u :: vs') = last (u :: vs) /\
              wle (walk_weight g u vs') (walk_weight g u vs).
Proof.
  induction vs as [|v r IH]; intros u Hvs Hfin.
  - right. exists []. split_and!; try done; try constructor; apply wle_refl.
  - apply Forall_cons in Hvs as [Hv Hr]. simpl in Hfin.
    assert (finite (walk_weight g v r)) as Hfr.
    { revert Hfin. generalize (arc_weight g u v), (walk_weight g v r).
      intros x y. wcases. }
    destruct (IH v Hr Hfr) as [Hc|(r' & Hr' & Hnd & Hl & Hle)]; [by left|].
    destruct (decide (v ∈ r')) as [Hin|Hnin].
    + apply list_elem_of_split in Hin as (l2 & l3 & ->).
      apply Forall_app in Hr' as [Hl2 Hl3].
      apply Forall_cons in Hl3 as [_ Hl3].
      assert (NoDup (l2 ++ [v]) /\ NoDup (v :: l3)) as [Hnd2 Hnd3].
      { apply NoDup_app in Hnd as (N2 & N23 & N3). split; [|done].
        apply NoDup_app. split_and!; [done| |apply NoDup_singleton].
        intros x Hx ->%list_elem_of_singleton. apply (N23 v Hx). left. }
      assert (walk_weight g v (l2 ++ v :: l3) =
              wadd (walk_weight g v (l2 ++ [v])) (walk_weight g v l3)) as Hsplit.
      { replace (l2 ++ v :: l3) with ((l2 ++ [v]) ++ l3)
          by (by rewrite <- app_assoc).
        apply walk_weight_app.
        rewrite app_comm_cons. apply last_snoc. }
      rewrite Hsplit in Hle.
      destruct (shorten_arith (arc_weight g u v) (walk_weight g v (l2 ++ [v]))
                  (walk_weight g v l3) (walk_weight g v r) Hfin Hle)
        as [Hneg|Hle'].
      * left. exists v, (l2 ++ [v]). split_and!; try done.
        -- apply Forall_app. split; [done|]. by apply Forall_singleton.
        -- apply last_snoc.
      * right. exists (v :: l3). split_and!; try done.
        -- by constructor.
        -- rewrite !last_cons_cons. rewrite <- Hl.
           symmetry. apply last_cons_app_cons.
    + right. exists (v :: r'). split_and!.
      * by constructor.
      * by constructor.
      * by rewrite !last_cons_cons.
      * simpl. apply wadd_mono; [apply wle_refl|done].
Qed.

Lemma negative_cycle_simple g :
  negative_cycle g <-> simple_negative_cycle g.
Proof.
  split.
  - intros (u & vs & Hu & Hvs & Hl & Hneg).
    assert (finite (walk_weight g u vs)) as Hfin
      by (by destruct (walk_weight g u vs)).
    destruct (shorten_walk g vs u Hvs Hfin)
      as [Hc|(vs' & Hvs' & Hnd & Hl' & Hle)]; [done|].
    exists u, vs'. split_and!; try done.
    + destruct vs as [|v vs]; [done|]. rewrite last_cons_cons, Hl in Hl'.
      destruct vs' as [|v' vs']; [|by rewrite last_cons_cons in Hl'].
      exfalso. change (walk_weight g u []) with (Fin 0) in Hle.
      revert Hneg Hle.
      generalize (walk_weight g u (v :: vs)). intros x. clear. wcases.
    + revert Hneg Hle.
      generalize (walk_weight g u vs), (walk_weight g u vs').
      intros x y. clear. wcases.
  - intros (u & vs & Hu & Hvs & Hl & _ & Hneg). exists u, vs. done.
Qed.

(** Every finite entry of [L] is the weight of a walk of the graph that
    was read, the empty walk included. *)
Definition walk_inv (g0 g : Graph) : Prop :=
  forall i j z, vertex g0 i -> vertex g0 j -> Lf g i j = Fin z ->
    exists vs, Forall (vertex g0) vs /\ last (i :: vs) = Some j /\
               walk_weight g0 i vs = Fin z.

Lemma walk_inv_init g : L g = initial_adj g -> walk_inv g g.
Proof.
  intros HLA i j z Hi Hj Hz.
  assert (Af g i j = Fin z) as HA by (unfold Af; rewrite <- HLA; exact Hz).
  destruct (decide (i = j /\ z = 0)) as [[-> ->]|Hne].
  - exists []. done.
  - exists [j]. split_and!; [by constructor|done|].
    simpl. unfold arc_weight. rewrite HA. simpl.
    destruct (Z.eqb_spec i j), (Z.eqb_spec z 0); simpl;
      try (f_equal; lia); tauto.
Qed.

Lemma relax_walk_inv g0 g k i j g' :
  follows g0 g -> walk_inv g0 g ->
  vertex g0 k -> vertex g0 i -> vertex g0 j ->
  relax k i j g = (Ok tt, g') -> walk_inv g0 g'.
Proof.
  intros (Hg & N & _ & _) Hw Hk Hi Hj R a b z Ha Hb Hz.
  assert (forall c, vertex g0 c -> vertex g c) as Hv
    by (unfold vertex; intros; lia).
  destruct (relax_spec g k i j Hg (Hv _ Hk) (Hv _ Hi) (Hv _ Hj))
    as (g1 & R1 & _ & _ & _ & VL & _).
  rewrite R in R1. simplify_eq.
  rewrite VL in Hz by auto.
  destruct (decide (a = i /\ b = j)) as [[-> ->]|Hne]; [|by apply Hw].
  unfold relaxed_L, wmin in Hz.
  destruct (wlt (wadd (Lf g i k) (Lf g k j)) (Lf g i j)); [|by apply Hw].
  destruct (Lf g i k) as [x|] eqn:Ex; [|done].
  destruct (Lf g k j) as [y|] eqn:Ey; [|done].
  simpl in Hz. simplify_eq.
  destruct (Hw i k x Hi Hk Ex) as (vs & Hvs & Hl1 & Hw1).
  destruct (Hw k j y Hk Hj Ey) as (ws & Hws & Hl2 & Hw2).
  exists (vs ++ ws). split_and!.
  - by apply Forall_app.
  - destruct ws as [|w ws]; [simpl in Hl2; simplify_eq; by rewrite app_nil_r|].
    rewrite app_comm_cons, last_app.
    rewrite last_cons_cons in Hl2. rewrite Hl2. done.
  - rewrite (walk_weight_app g0 i vs ws k Hl1), Hw1, Hw2. done.
Qed.

Lemma floyd_warshall_walk_inv g g' :
  shaped g -> L g = initial_adj g ->
  floyd_warshall g = (Ok tt, g') -> walk_inv g g'.
Proof.
  intros Hg HLA R. rewrite floyd_warshall_passes in R.
  set (Inv := fun g1 => follows g g1 /\ walk_inv g g1).
  assert (forall k g1 g2, vertex g k -> Inv g1 ->
            pass (num_vertices g) k g1 = (Ok tt, g2) -> Inv g2) as Hpass.
  { intros k g1 g2 Hk H1 R1. rewrite pass_pairs in R1.
    assert (forall ps, Forall (fun ij => vertex g ij.1 /\ vertex g ij.2) ps ->
              forall g1 g2, Inv g1 ->
                for_each ps (relax_pair k) g1 = (Ok tt, g2) -> Inv g2) as Hps.
    { induction 1 as [|[i j] ps [Hi Hj] _ IH]; intros h1 h2 Hh1; simpl.
      - by intros [= <-].
      - unfold bind. change (relax_pair k (i, j) h1) with (relax k i j h1).
        simpl in Hi, Hj. destruct Hh1 as [Hf Hw].
        destruct (relax_follows g h1 k i j Hf Hk Hi Hj) as (h4 & E4 & Hf4).
        rewrite E4. apply IH. split; [done|].
        by apply (relax_walk_inv g h1 k i j h4). }
    eapply Hps; [|exact H1|exact R1].
    apply Forall_forall. by intros [i j] Hij%elem_of_pairs. }
  assert (forall ks, Forall (vertex g) ks -> forall g1 g2, Inv g1 ->
            for_each ks (pass (num_vertices g)) g1 = (Ok tt, g2) -> Inv g2) as Hks.
  { induction 1 as [|k ks Hk _ IH]; intros g1 g2 H1; simpl.
    - by intros [= <-].
    - unfold bind. destruct (pass (num_vertices g) k g1) as [[[]|] g3] eqn:E;
        [|done].
      apply IH. by eapply Hpass. }
  eapply Hks; [|split; [by apply follows_refl|by apply walk_inv_init]|exact R].
  apply Forall_forall. by intros k Hk%elem_of_range.
Qed.

Lemma arc_weight_bound g0 g u v :
  L g0 = initial_adj g0 -> follows g0 g -> vertex g0 u -> vertex g0 v ->
  wle (Lf g u v) (arc_weight g0 u v).
Proof.
  intros HLA (_ & _ & _ & Hle) Hu Hv.
  eapply wle_trans; [by apply Hle|].
  unfold arc_weight, Af, Lf. rewrite HLA.
  destruct (_ && _); [|apply wle_refl].
  by destruct (mat_get _ _ _) as [[]|].
Qed.

(** Under the triangle inequality an entry of [L] is at most the weight
    of any walk between its two vertices. *)
Lemma walk_bound g0 g vs : forall u t,
  L g0 = initial_adj g0 -> follows g0 g ->
  tri (num_vertices g0) (Lf g) (num_vertices g0) ->
  vertex g0 u -> Forall (vertex g0) vs -> last vs = Some t ->
  wle (Lf g u t) (walk_weight g0 u vs).
Proof.
  induction vs as [|v vs IH]; intros u t HLA Hf Ht Hu Hvs Hl; [done|].
  apply Forall_cons in Hvs as [Hv Hvs]. simpl.
  destruct vs as [|v' vs].
  - simpl in Hl. simplify_eq. simpl.
    eapply wle_trans; [by apply arc_weight_bound|].
    generalize (arc_weight g0 u t). intros x. clear. wcases.
  - rewrite last_cons_cons in Hl.
    assert (vertex g0 t) as Htv.
    { apply last_Some_elem_of in Hl.
      rewrite Forall_forall in Hvs. by apply Hvs. }
    eapply wle_trans.
    + apply (Ht u t v); unfold vertex in *; lia.
    + apply wadd_mono; [by apply arc_weight_bound|by apply IH].
Qed.

(** ** Example files *)

(** Two vertices on a cycle of weight -1. *)
Definition negative_file : list string :=
  ["2"; "2"; "0 1 1"; "1 0 -2"]%string.

(** The tie of the second example: 0->1->2 and 0->2 both cost 3. *)
Definition tie_file : list string :=
  ["3"; "3"; "0 1 1"; "1 2 2"; "0 2 3"]%string.

(** A cycle of weight zero between 1 and 2, entered from 0. *)
Definition zero_cycle_file : list string :=
  ["3"; "3"; "0 1 1"; "1 2 0"; "2 1 0"]%string.

(** Two negative two-cycles through vertex 2. *)
Definition two_cycles_file : list string :=
  ["3"; "4"; "0 2 -2"; "1 2 -2"; "2 0 -1"; "2 1 -2"]%string.

(** Edges 0->2, 1->2, 1->3, 2->1, 3->0, all of weight -1. *)
Definition dead_end_file : list string :=
  ["4"; "5"; "0 2 -1"; "1 2 -1"; "1 3 -1"; "2 1 -1"; "3 0 -1"]%string.

Lemma loaded_constructed raw :
  (load_from_file (Some raw) init_graph).1 = Ok true -> constructed (loaded raw).
Proof.
  intros H. exists raw, init_graph. unfold loaded, exec.
  destruct (load_from_file (Some raw) init_graph) as [r g]. simpl in *. by subst.
Qed.

Lemma vertex_check g i :
  (0 <=? i) && (i <? num_vertices g) = true -> vertex g i.
Proof. intros [H1 H2]%andb_true_iff. unfold vertex. lia. Qed.

Lemma floyd_warshall_returns g :
  shaped g -> floyd_warshall g = (Ok tt, exec floyd_warshall g).
Proof.
  intros Hg. destruct (floyd_warshall_follows g Hg) as (g' & R & _).
  unfold exec. by rewrite R.
Qed.

(** * The specification, statement by statement *)

(** C4, as stated, fails where a negative cycle exists: on
    [negative_file] the closure ends with [L[0][0] = -1], and
    [L[0][0] + L[0][0] = -2] is smaller. *)
Lemma C4_counterexample :
  ~ (forall g g' i j k,
       constructed g -> floyd_warshall g = (Ok tt, g') ->
       vertex g' i -> vertex g' j -> vertex g' k ->
       finite (Lf g' i k) -> finite (Lf g' k j) ->
       wle (Lf g' i j) (wadd (Lf g' i k) (Lf g' k j))).
Proof.
  intros H.
  specialize (H (loaded negative_file) (closed negative_file) 0 0 0).
  assert (wle (Lf (closed negative_file) 0 0)
              (wadd (Lf (closed negative_file) 0 0) (Lf (closed negative_file) 0 0)))
    as Hbad.
  { apply H.
    - apply loaded_constructed. vm_compute. reflexivity.
    - vm_compute. reflexivity.
    - apply vertex_check. vm_compute. reflexivity.
    - apply vertex_check. vm_compute. reflexivity.
    - apply vertex_check. vm_compute. reflexivity.
    - vm_compute. reflexivity.
    - vm_compute. reflexivity. }
  vm_compute in Hbad. discriminate Hbad.
Qed.

(** C4 (amended): after [floyd_warshall] completes on a constructed
    graph for which [has_negative_cycle()] then returns false, for all
    vertices i, j, k with [L[i][k]] and [L[k][j]] finite,
    [L[i][j] <= L[i][k] + L[k][j]]. *)
Theorem C4_triangle_inequality g g' i j k :
  constructed g -> floyd_warshall g = (Ok tt, g') ->
  has_negative_cycle g' = Ok false ->
  vertex g' i -> vertex g' j -> vertex g' k ->
  finite (Lf g' i k) -> finite (Lf g' k j) ->
  wle (Lf g' i j) (wadd (Lf g' i k) (Lf g' k j)).
Proof.
  intros Hc R Hneg Hi Hj Hk _ _.
  destruct (floyd_warshall_inv g (constructed_shaped g Hc))
    as (g1 & R1 & (Hg1 & N1 & _) & Hinv).
  rewrite R in R1. simplify_eq.
  destruct Hinv as [Ht _]; [by apply has_negative_cycle_false|].
  unfold vertex in *. apply Ht; lia.
Qed.

Lemma C4_witness :
  wle (Lf (closed tie_file) 0 2)
      (wadd (Lf (closed tie_file) 0 1) (Lf (closed tie_file) 1 2)).
Proof.
  apply (C4_triangle_inequality (loaded tie_file) (closed tie_file) 0 2 1).
  - exists tie_file, init_graph. vm_compute. reflexivity.
  - vm_compute. reflexivity.
  - vm_compute. reflexivity.
  - apply vertex_check. vm_compute. reflexivity.
  - apply vertex_check. vm_compute. reflexivity.
  - apply vertex_check. vm_compute. reflexivity.
  - vm_compute. reflexivity.
  - vm_compute. reflexivity.
Defined.

(** C5, as stated, fails where a negative cycle exists: on
    [negative_file] the second run lowers the distances again. *)
Lemma C5_counterexample :
  ~ (forall g g1 g2,
       constructed g -> floyd_warshall g = (Ok tt, g1) ->
       floyd_warshall g1 = (Ok tt, g2) ->
       L g2 = L g1 /\ P g2 = P g1).
Proof.
  intros H.
  destruct (H (loaded negative_file) (closed negative_file)
              (exec floyd_warshall (closed negative_file))) as [HL _].
  - apply loaded_constructed. vm_compute. reflexivity.
  - vm_compute. reflexivity.
  - vm_compute. reflexivity.
  - vm_compute in HL. discriminate HL.
Qed.

(** C5 (amended): for every constructed graph for which
    [has_negative_cycle()] returns false after [floyd_warshall], a second
    run of [floyd_warshall] on the result returns and leaves the object,
    so [L] and [P], exactly as the first run left them. *)
Theorem C5_idempotent g g1 :
  constructed g -> floyd_warshall g = (Ok tt, g1) ->
  has_negative_cycle g1 = Ok false ->
  floyd_warshall g1 = (Ok tt, g1).
Proof.
  intros Hc R Hneg.
  destruct (floyd_warshall_inv g (constructed_shaped g Hc))
    as (g' & R' & (Hg1 & N1 & _) & Hinv).
  rewrite R in R'. simplify_eq.
  destruct Hinv as [Ht Hp]; [by apply has_negative_cycle_false|].
  apply floyd_warshall_fixed; [done|by rewrite N1..].
Qed.

Lemma C5_witness :
  floyd_warshall (closed tie_file) = (Ok tt, closed tie_file).
Proof.
  apply (C5_idempotent (loaded tie_file) (closed tie_file)).
  - exists tie_file, init_graph. vm_compute. reflexivity.
  - vm_compute. reflexivity.
  - vm_compute. reflexivity.
Defined.

(** C2: after the closure of a constructed graph, [has_negative_cycle()]
    returns true if and only if some [L[i][i] < 0], and that holds if and
    only if the graph that was read has a directed cycle of negative
    total weight (a closed walk without repeated vertex; equally, any
    closed walk of negative weight). *)
Theorem C2_negative_cycle_detection g g' :
  constructed g -> floyd_warshall g = (Ok tt, g') ->
  exists b, has_negative_cycle g' = Ok b /\
    (b = true <-> exists i, vertex g' i /\ wlt (Lf g' i i) (Fin 0) = true) /\
    ((exists i, vertex g' i /\ wlt (Lf g' i i) (Fin 0) = true) <->
     simple_negative_cycle g) /\
    (simple_negative_cycle g <-> negative_cycle g).
Proof.
  intros Hc R.
  destruct (constructed_inv g Hc) as (Hg & HLA & _).
  destruct (floyd_warshall_inv g Hg) as (g1 & R1 & Hf & Hinv).
  rewrite R in R1. simplify_eq.
  pose proof Hf as (Hg1 & N1 & _ & _).
  destruct (has_negative_cycle_spec g1 Hg1) as (b & Hb & Hiff).
  exists b. split_and!; [done|done| |by rewrite negative_cycle_simple].
  rewrite <- negative_cycle_simple. split.
  - intros (i & Hi & Hneg).
    assert (vertex g i) as Hi0 by (unfold vertex in *; lia).
    destruct (Lf g1 i i) as [z|] eqn:Ez; [|done].
    destruct (floyd_warshall_walk_inv g g1 Hg HLA R i i z Hi0 Hi0 Ez)
      as (vs & Hvs & Hl & Hw).
    exists i, vs. split_and!; try done.
    + destruct vs as [|v vs]; [|by rewrite last_cons_cons in Hl].
      simpl in Hw, Hneg. by simplify_eq.
    + by rewrite Hw.
  - intros (u & vs & Hu & Hvs & Hl & Hneg).
    destruct b; [by apply Hiff|]. exfalso.
    pose proof (has_negative_cycle_false g1 Hg1 Hb) as Hnn.
    destruct (Hinv Hnn) as [Ht _].
    pose proof (walk_bound g g1 vs u u HLA Hf Ht Hu Hvs Hl) as Hle.
    assert (vertex g1 u) as Hu1 by (unfold vertex in *; lia).
    specialize (Hnn u Hu1). revert Hnn Hle Hneg. unfold nonneg.
    generalize (Lf g1 u u), (walk_weight g u vs). intros x y. clear. wcases.
Qed.

Lemma C2_witness :
  exists b, has_negative_cycle (closed negative_file) = Ok b /\
    (b = true <-> exists i, vertex (closed negative_file) i /\
                            wlt (Lf (closed negative_file) i i) (Fin 0) = true) /\
    ((exists i, vertex (closed negative_file) i /\
                wlt (Lf (closed negative_file) i i) (Fin 0) = true) <->
     simple_negative_cycle (loaded negative_file)) /\
    (simple_negative_cycle (loaded negative_file) <->
     negative_cycle (loaded negative_file)).
Proof.
  apply (C2_negative_cycle_detection (loaded negative_file)
           (closed negative_file)).
  - exists negative_file, init_graph. vm_compute. reflexivity.
  - vm_compute. reflexivity.
Defined.

(** ** Path enumeration *)

(** The result in the words of the specification: for each predecessor
    [p] in list order, [p = end_] skipped, every path enumerated for [p]
    with [end_] appended; the first enumeration that raises makes the
    whole raise. *)
Fixpoint extended_paths (enum : Z -> result (list (list Z))) (end_ : Z)
         (preds : list Z) : result (list (list Z)) :=
  match preds with
  | [] => Ok []
  | p :: rest =>
      if p =? end_ then extended_paths enum end_ rest else
      rbind (enum p) (fun sub_paths =>
      rbind (extended_paths enum end_ rest) (fun others =>
      Ok (map (fun path => path ++ [end_]) sub_paths ++ others)))
  end.

Lemma get_all_shortest_paths_unfold depth g start end_ :
  get_all_shortest_paths (S depth) g start end_ =
  rbind (mat_get (L g) start end_) (fun d =>
  if is_inf d then Ok [] else
  if start =? end_ then Ok [[start]] else
  rbind (mat_get (P g) start end_) (fun preds =>
  extended_paths (get_all_shortest_paths depth g start) end_ preds)).
Proof.
  simpl. destruct (mat_get (L g) start end_) as [d|]; [|done]. simpl.
  destruct (is_inf d); [done|]. destruct (start =? end_); [done|].
  destruct (mat_get (P g) start end_) as [preds|]; [|done]. simpl.
  assert (forall acc,
    (fix loop (preds0 : list Z) (all_paths : list (list Z)) {struct preds0} :
       result (list (list Z)) :=
       match preds0 with
       | [] => Ok all_paths
       | pred :: rest =>
           if pred =? end_ then loop rest all_paths
           else rbind (get_all_shortest_paths depth g start pred)
                  (fun sub_paths =>
                   loop rest (all_paths ++ map (fun p => p ++ [end_]) sub_paths))
       end) preds acc =
    rbind (extended_paths (get_all_shortest_paths depth g start) end_ preds)
      (fun r => Ok (acc ++ r))) as H.
  { induction preds as [|p rest IH]; intros acc.
    - simpl. by rewrite app_nil_r.
    - simpl. destruct (p =? end_); [apply IH|].
      destruct (get_all_shortest_paths depth g start p) as [sub|]; [|done].
      simpl. rewrite IH.
      destruct (extended_paths _ _ rest) as [others|]; [|done].
      simpl. by rewrite app_assoc. }
  rewrite H. by destruct (extended_paths _ _ preds).
Qed.

Lemma extended_paths_mono (enum enum' : Z -> result (list (list Z))) end_ preds :
  (forall p r, enum p = Ok r -> enum' p = Ok r) ->
  forall r, extended_paths enum end_ preds = Ok r ->
            extended_paths enum' end_ preds = Ok r.
Proof.
  intros Henum. induction preds as [|p rest IH]; intros r; simpl; [done|].
  destruct (p =? end_); [apply IH|].
  destruct (enum p) as [sub|] eqn:E; [|done].
  rewrite (Henum p sub E). simpl.
  destruct (extended_paths enum end_ rest) as [others|]; [|done].
  by rewrite (IH others eq_refl).
Qed.

(** A call that returns with [depth] frames returns the same with
    more. *)
Lemma get_all_shortest_paths_mono depth g : forall start end_ r,
  get_all_shortest_paths depth g start end_ = Ok r ->
  get_all_shortest_paths (S depth) g start end_ = Ok r.
Proof.
  induction depth as [|d IH]; intros start end_ r; [done|].
  rewrite !get_all_shortest_paths_unfold.
  destruct (mat_get (L g) start end_) as [x|]; [|done]. simpl.
  destruct (is_inf x); [done|]. destruct (start =? end_); [done|].
  destruct (mat_get (P g) start end_) as [preds|]; [|done]. simpl.
  apply extended_paths_mono. intros p r'. apply IH.
Qed.

Lemma closed_diagonal_finite g0 g a :
  constructed g0 -> floyd_warshall g0 = (Ok tt, g) -> vertex g a ->
  finite (Lf g a a).
Proof.
  intros Hc R Ha.
  destruct (constructed_inv g0 Hc) as (Hg & _ & Hd & _).
  destruct (floyd_warshall_follows g0 Hg) as (g1 & R1 & (_ & N & _ & Hle)).
  rewrite R in R1. simplify_eq.
  assert (vertex g0 a) as Ha0 by (unfold vertex in *; lia).
  eapply wle_finite; [by apply Hle|by apply Hd].
Qed.

Lemma tie_file_paths depth :
  Lf (closed tie_file) 0 2 = Fin 3 /\
  exists paths,
    get_all_shortest_paths (3 + depth) (closed tie_file) 0 2 = Ok paths /\
    [0; 1; 2] ∈ paths /\ [0; 2] ∈ paths.
Proof.
  split; [vm_compute; reflexivity|].
  exists [[0; 2]; [0; 1; 2]]. split; [vm_compute; reflexivity|].
  split; [right; left|left].
Qed.

Lemma get_all_shortest_paths_cases g0 g start end_ depth :
  constructed g0 -> floyd_warshall g0 = (Ok tt, g) ->
  vertex g start -> vertex g end_ ->
  (Lf g start end_ = Inf ->
   get_all_shortest_paths (S depth) g start end_ = Ok []) /\
  (start = end_ ->
   get_all_shortest_paths (S depth) g start end_ = Ok [[start]]) /\
  (Lf g start end_ <> Inf -> start <> end_ ->
   get_all_shortest_paths (S depth) g start end_ =
   extended_paths (get_all_shortest_paths depth g start) end_
                  (Pf g start end_)).
Proof.
  intros Hc R Hs He.
  destruct (floyd_warshall_follows g0 (constructed_shaped g0 Hc))
    as (g1 & R1 & (Hg & _)).
  rewrite R in R1. simplify_eq.
  rewrite get_all_shortest_paths_unfold.
  rewrite (getL_Lf g1 start end_ Hg Hs He), (getP_Pf g1 start end_ Hg Hs He).
  cbn [rbind]. split_and!.
  - by intros ->.
  - intros <-. pose proof (closed_diagonal_finite g0 g1 start Hc R Hs) as Hfin.
    unfold finite in Hfin. rewrite Hfin. by rewrite Z.eqb_refl.
  - intros Hfin Hne. destruct (Lf g1 start end_); [|done]. cbn [is_inf].
    destruct (Z.eqb_spec start end_); done.
Qed.

(** The enumeration from 0 on a state whose predecessor lists send 1
    to 2 and 2 back to 1: no number of frames is enough. *)
Lemma zero_cycle_recursion g :
  mat_get (L g) 0 0 = Ok (Fin 0) ->
  mat_get (L g) 0 1 = Ok (Fin 1) ->
  mat_get (L g) 0 2 = Ok (Fin 1) ->
  mat_get (P g) 0 1 = Ok [0; 2] ->
  mat_get (P g) 0 2 = Ok [1] ->
  forall depth,
    get_all_shortest_paths depth g 0 1 = Raise RecursionError.
Proof.
  intros L00 L01 L02 P01 P02.
  assert (forall depth,
            get_all_shortest_paths depth g 0 1 = Raise RecursionError /\
            get_all_shortest_paths depth g 0 2 = Raise RecursionError) as H.
  { induction depth as [|d [IH1 IH2]]; [done|].
    rewrite !get_all_shortest_paths_unfold, L01, L02, P01, P02.
    cbn [rbind is_inf extended_paths Z.eqb Pos.eqb].
    rewrite IH1, IH2. split; [|done].
    destruct d as [|d]; [done|].
    rewrite get_all_shortest_paths_unfold, L00. done. }
  intros depth. apply H.
Qed.

(** C3 does not hold of the code in its third case.  After the closure
    of [zero_cycle_file], 0 and 1 are vertices, [L[0][1] = 1] is finite,
    [0 <> 1] and [P[0][1] = [0, 2]]; the enumeration for the predecessor
    0 gives [[0]], so that the union the claim describes holds [0, 1] at
    least.  The call for (0, 1) returns no list at all: the walk through
    the predecessors goes from 1 to 2 and back without end, and the
    call ends in [RecursionError] however many frames it is allowed.
    (Where the call does return, it returns what the claim says:
    [get_all_shortest_paths_cases]; and the example of the claim holds:
    [tie_file_paths].) *)
Lemma C3_union_not_returned :
  constructed (loaded zero_cycle_file) /\
  floyd_warshall (loaded zero_cycle_file) = (Ok tt, closed zero_cycle_file) /\
  has_negative_cycle (closed zero_cycle_file) = Ok false /\
  vertex (closed zero_cycle_file) 0 /\ vertex (closed zero_cycle_file) 1 /\
  Lf (closed zero_cycle_file) 0 1 = Fin 1 /\
  Pf (closed zero_cycle_file) 0 1 = [0; 2] /\
  get_all_shortest_paths 1 (closed zero_cycle_file) 0 0 = Ok [[0]] /\
  forall depth paths,
    get_all_shortest_paths depth (closed zero_cycle_file) 0 1 <> Ok paths.
Proof.
  split; [apply loaded_constructed; vm_compute; reflexivity|].
  split; [vm_compute; reflexivity|].
  split; [vm_compute; reflexivity|].
  split; [apply vertex_check; vm_compute; reflexivity|].
  split; [apply vertex_check; vm_compute; reflexivity|].
  split; [vm_compute; reflexivity|].
  split; [vm_compute; reflexivity|].
  split; [vm_compute; reflexivity|].
  intros depth paths.
  rewrite (zero_cycle_recursion (closed zero_cycle_file)).
  - intros H. discriminate H.
  - vm_compute. reflexivity.
  - vm_compute. reflexivity.
  - vm_compute. reflexivity.
  - vm_compute. reflexivity.
  - vm_compute. reflexivity.
Qed.

(** ** The negative-cycle walk *)

Lemma close_path_closed path :
  close_path path <> [] -> head (close_path path) = last (close_path path).
Proof.
  unfold close_path. destruct (rev path) as [|first rest] eqn:E; [done|].
  destruct (last (first :: rest)) as [final|] eqn:El.
  - destruct (Z.eqb_spec first final) as [->|Hne]; intros _.
    + by rewrite El.
    + by rewrite last_snoc.
  - by apply last_None in El.
Qed.

(** C10: a non-empty list returned by [get_negative_cycle_path] begins
    and ends with the same vertex; where the first vertex [s] with
    [L[s][s] < 0] has a negative self-loop in [initial_adj], the list is
    [[s, s]]. *)
Theorem C10_cycle_path_closed g path :
  get_negative_cycle_path g = Ok path -> path <> [] ->
  head path = last path /\
  (forall s a, find_start g (range (num_vertices g)) = Ok s -> s <> -1 ->
     mat_get (initial_adj g) s s = Ok a -> wlt a (Fin 0) = true ->
     path = [s; s]).
Proof.
  unfold get_negative_cycle_path, rbind.
  destruct (find_start g _) as [start_node|]; [|done].
  destruct (Z.eqb_spec start_node (-1)) as [->|Hs].
  { intros [= <-]. done. }
  destruct (mat_get (initial_adj g) _ _) as [a|] eqn:EA; [|done].
  destruct (wlt a (Fin 0)) eqn:Ea.
  { intros [= <-] _. split; [done|]. intros s a' Hs' _ _ _. by simplify_eq. }
  destruct (mat_get (P g) _ _) as [[|curr preds]|]; [by intros [= <-]| |done].
  destruct (walk_back _ _ _ _ _) as [p|]; [|done].
  intros [= <-] Hne. split; [by apply close_path_closed|].
  intros s a' Hs' _ Ha' Ha. simplify_eq. rewrite EA in Ha'. simplify_eq.
  congruence.
Qed.

Lemma C10_witness :
  head [0; 1; 0] = last [0; 1; 0] /\
  (forall s a,
     find_start (closed negative_file)
       (range (num_vertices (closed negative_file))) = Ok s -> s <> -1 ->
     mat_get (initial_adj (closed negative_file)) s s = Ok a ->
     wlt a (Fin 0) = true -> [0; 1; 0] = [s; s]).
Proof.
  apply (C10_cycle_path_closed (closed negative_file) [0; 1; 0]).
  - vm_compute. reflexivity.
  - intros H. inversion H.
Defined.

(** C6 does not hold of the code (whose docstring promises [[]] when the
    cycle cannot be rebuilt).  On [two_cycles_file] the closure leaves
    [L[0][0] < 0], so the walk starts from vertex 0; it follows
    2, 1, 2, 1, ... and is stopped by the bound of 2n = 6 steps at
    vertex 2, never having come back to 0.  On [dead_end_file] the walk
    from vertex 0 reaches vertex 3, where [P[0][3]] is empty.  In both
    runs what is returned is the walk reversed, not the empty list.
    [has_negative_cycle] returns true. *)
Lemma C6_unfinished_walk_returned :
  (let g := closed two_cycles_file in
   constructed (loaded two_cycles_file) /\
   floyd_warshall (loaded two_cycles_file) = (Ok tt, g) /\
   has_negative_cycle g = Ok true /\
   find_start g (range (num_vertices g)) = Ok 0 /\
   mat_get (P g) 0 0 = Ok [2] /\
   walk_back g 0 (Z.to_nat (num_vertices g * 2)) 2 [2]
     = Ok [2; 1; 2; 1; 2; 1; 2] /\
   get_negative_cycle_path g = Ok [2; 1; 2; 1; 2; 1; 2]) /\
  (let g := closed dead_end_file in
   constructed (loaded dead_end_file) /\
   floyd_warshall (loaded dead_end_file) = (Ok tt, g) /\
   has_negative_cycle g = Ok true /\
   find_start g (range (num_vertices g)) = Ok 0 /\
   mat_get (P g) 0 0 = Ok [3] /\ mat_get (P g) 0 3 = Ok [] /\
   walk_back g 0 (Z.to_nat (num_vertices g * 2)) 3 [3] = Ok [3] /\
   get_negative_cycle_path g = Ok [3]).
Proof.
  split.
  - split; [apply loaded_constructed; vm_compute; reflexivity|].
    vm_compute. repeat split; reflexivity.
  - split; [apply loaded_constructed; vm_compute; reflexivity|].
    vm_compute. repeat split; reflexivity.
Qed.

(** ** A relaxation with [i = k] *)

(** The relaxations of [floyd_warshall] on [negative_file] that come
    before the one with k = 1, i = 1, j = 0, in order. *)
Definition steps_before : list (Z * Z * Z) :=
  [(0, 0, 0); (0, 0, 1); (0, 1, 0); (0, 1, 1); (1, 0, 0); (1, 0, 1)].

Definition before_slip : Graph :=
  exec (for_each steps_before relax_triple) (loaded negative_file).

Definition after_slip : Graph := exec (relax 1 1 0) before_slip.

(** C1 does not hold of the code for [i = k] (the comment of line 110
    says the predecessors of k->j are copied).  In the run on
    [negative_file], when the relaxation with k = 1, i = 1, j = 0 is
    reached, [P[1][0] = [1]], and the candidate
    [L[1][1] + L[1][0] = -1 + -2 = -3] is below [L[1][0] = -2].  The
    relaxation sets [L[1][0]] to -3 and leaves [P[1][0]] empty: line 109
    has emptied the very list that line 111 then reads as [P[k][j]]. *)
Lemma C1_reset_with_i_eq_k_empties :
  constructed (loaded negative_file) /\
  triples (num_vertices (loaded negative_file))
    = steps_before ++ [(1, 1, 0); (1, 1, 1)] /\
  for_each steps_before relax_triple (loaded negative_file)
    = (Ok tt, before_slip) /\
  Lf before_slip 1 1 = Fin (-1) /\ Lf before_slip 1 0 = Fin (-2) /\
  Pf before_slip 1 0 = [1] /\
  relax 1 1 0 before_slip = (Ok tt, after_slip) /\
  Lf after_slip 1 0 = Fin (-3) /\ Pf after_slip 1 0 = [] /\
  exec (relax 1 1 1) after_slip = closed negative_file.
Proof.
  split; [apply loaded_constructed; vm_compute; reflexivity|].
  vm_compute. repeat split; reflexivity.
Qed.

(** The same in general: a strictly better candidate found with [i = k]
    leaves [P[i][j]] empty, whatever [P[k][j]] held. *)
Lemma relax_i_eq_k_empties g k j :
  shaped g -> vertex g k -> vertex g j ->
  wlt (wadd (Lf g k k) (Lf g k j)) (Lf g k j) = true ->
  exists g', relax k k j g = (Ok tt, g') /\ vertex g' k /\ vertex g' j /\
             Pf g' k j = [].
Proof.
  intros Hg Hk Hj Hlt.
  destruct (relax_spec g k k j Hg Hk Hk Hj) as (g' & R & _ & N & _ & _ & VP).
  exists g'. split_and!; [done|unfold vertex in *; lia..|].
  rewrite VP by done. rewrite decide_True by done.
  unfold relaxed_P. cbv zeta. rewrite Hlt.
  destruct (is_inf _) eqn:E.
  - destruct (wadd _ _); done.
  - by rewrite bool_decide_eq_true_2.
Qed.

(** ** Path enumeration over a cycle of weight zero *)

(** C8 does not hold of the code.  On [zero_cycle_file] no self-distance
    is negative after the closure, so [has_negative_cycle()] is false;
    but [P[0][1] = [0, 2]] and [P[0][2] = [1]], and the call for (0, 1)
    calls itself for (0, 2), which calls itself for (0, 1): whatever
    number of frames is allowed, the call ends in [RecursionError]. *)
Lemma C8_zero_cycle_recursion :
  constructed (loaded zero_cycle_file) /\
  floyd_warshall (loaded zero_cycle_file) = (Ok tt, closed zero_cycle_file) /\
  has_negative_cycle (closed zero_cycle_file) = Ok false /\
  forall depth,
    get_all_shortest_paths depth (closed zero_cycle_file) 0 1
    = Raise RecursionError.
Proof.
  split; [apply loaded_constructed; vm_compute; reflexivity|].
  split; [vm_compute; reflexivity|].
  split; [vm_compute; reflexivity|].
  assert (mat_get (L (closed zero_cycle_file)) 0 0 = Ok (Fin 0)) as L00
    by (vm_compute; reflexivity).
  assert (mat_get (L (closed zero_cycle_file)) 0 1 = Ok (Fin 1)) as L01
    by (vm_compute; reflexivity).
  assert (mat_get (L (closed zero_cycle_file)) 0 2 = Ok (Fin 1)) as L02
    by (vm_compute; reflexivity).
  assert (mat_get (P (closed zero_cycle_file)) 0 1 = Ok [0; 2]) as P01
    by (vm_compute; reflexivity).
  assert (mat_get (P (closed zero_cycle_file)) 0 2 = Ok [1]) as P02
    by (vm_compute; reflexivity).
  generalize dependent (closed zero_cycle_file). intros g L00 L01 L02 P01 P02.
  assert (forall depth,
            get_all_shortest_paths depth g 0 1 = Raise RecursionError /\
            get_all_shortest_paths depth g 0 2 = Raise RecursionError) as H.
  { induction depth as [|d [IH1 IH2]]; [done|].
    rewrite !get_all_shortest_paths_unfold, L01, L02, P01, P02.
    cbn [rbind is_inf extended_paths Z.eqb Pos.eqb].
    rewrite IH1, IH2. split; [|done].
    destruct d as [|d]; [done|].
    rewrite get_all_shortest_paths_unfold, L00. done. }
  intros depth. apply H.
Qed.

(** ** Predecessor lists and finite distances *)

(** The states of the object from a successful [load_from_file] on,
    through any relaxations of vertices. *)
Inductive reached : Graph -> Prop :=
| reached_load g : constructed g -> reached g
| reached_relax g k i j g' :
    reached g -> vertex g k -> vertex g i -> vertex g j ->
    relax k i j g = (Ok tt, g') -> reached g'.

Definition preds_finite (g : Graph) : Prop :=
  forall i j, vertex g i -> vertex g j -> Pf g i j <> [] -> finite (Lf g i j).

Lemma relaxed_finite l p k i j :
  (p i j <> [] -> finite (l i j)) ->
  relaxed_P l p k i j <> [] -> finite (relaxed_L l k i j).
Proof.
  unfold relaxed_P, relaxed_L. cbv zeta. intros Hp.
  destruct (is_inf (wadd (l i k) (l k j))) eqn:E1.
  { intros H%Hp. revert H. generalize (l i j), (wadd (l i k) (l k j)).
    intros x y. wcases. }
  destruct (wlt (wadd (l i k) (l k j)) (l i j)) eqn:E2.
  { intros _. unfold wmin. by rewrite E2. }
  destruct (weqb (wadd (l i k) (l k j)) (l i j)) eqn:E3.
  { intros _. revert E1 E3. generalize (l i j), (wadd (l i k) (l k j)).
    intros x y. wcases. }
  intros H%Hp. revert H. generalize (l i j), (wadd (l i k) (l k j)).
  intros x y. wcases.
Qed.

Lemma reached_inv g : reached g -> shaped g /\ preds_finite g.
Proof.
  induction 1 as [g Hc|g k i j g' _ [Hg Hpf] Hk Hi Hj R].
  - destruct (constructed_inv g Hc) as (Hg & _ & _ & Hpf & _). done.
  - destruct (relax_spec g k i j Hg Hk Hi Hj)
      as (g1 & R1 & Hg1 & N1 & _ & VL & VP).
    rewrite R in R1. simplify_eq. split; [done|].
    intros a b Ha Hb.
    assert (vertex g a /\ vertex g b) as [Ha0 Hb0]
      by (unfold vertex in *; lia).
    rewrite VL, VP by done.
    destruct (decide (a = i /\ b = j)) as [[-> ->]|Hne]; [|by apply Hpf].
    apply relaxed_finite. by apply Hpf.
Qed.

(** No predecessor list holds a vertex twice. *)
Definition preds_nodup (g : Graph) : Prop :=
  forall i j, vertex g i -> vertex g j -> NoDup (Pf g i j).

Lemma load_edge_nodup lines i g g' :
  loaded_inv g /\ preds_nodup g -> load_edge lines i g = (Ok tt, g') ->
  loaded_inv g' /\ preds_nodup g'.
Proof.
  intros [Hinv Hnd] R.
  destruct (load_edge_inv lines i g g' Hinv R) as [Hinv' N]. split; [done|].
  rewrite load_edge_unfold in R.
  destruct (_ <? _); [|by simplify_eq].
  destruct (edge_at lines i) as [[[u v] w]|]; [|done].
  destruct Hinv as (Hg & HLA & _).
  destruct (decide (- num_vertices g <= u < num_vertices g /\
                    - num_vertices g <= v < num_vertices g)) as [[Hu Hv]|Hbad].
  2:{ destruct (store_edge_raises g u v w Hg Hbad) as [e He]. congruence. }
  destruct (store_edge_spec g u v w Hg HLA Hu Hv)
    as (g1 & R1 & _ & _ & _ & Hu' & Hv' & V).
  rewrite R in R1. simplify_eq.
  intros a b Ha Hb.
  assert (vertex g a /\ vertex g b) as [Ha0 Hb0] by (unfold vertex in *; lia).
  destruct (V a b Ha0 Hb0) as [_ ->].
  destruct (decide (a = _ /\ b = _)); [|by apply Hnd].
  case_bool_decide as Hin; [by apply Hnd|].
  apply NoDup_app. split_and!; [by apply Hnd| |apply NoDup_singleton].
  intros x Hx ->%list_elem_of_singleton. done.
Qed.

Lemma constructed_nodup g : constructed g -> preds_nodup g.
Proof.
  intros (raw & g0 & Hload). unfold load_from_file in Hload.
  destruct (load_body_cases raw g0)
    as [[_ E]|[(_ & e & _ & E)|[(_ & n & e & _ & _ & E)|
        (_ & n & m & gp & _ & _ & Hinv & Hn & HP & E)]]];
    rewrite E in Hload; try done.
  destruct (for_each (range m) (load_edge (file_lines raw)) gp)
    as [[[]|] g'] eqn:R; [|done].
  simplify_eq.
  apply (for_each_inv_Ok (fun g1 => loaded_inv g1 /\ preds_nodup g1)
           (load_edge (file_lines raw)) (range m)
           (fun i g1 g2 => load_edge_nodup _ i g1 g2) gp g); [|done].
  split; [done|]. intros a b Ha Hb. rewrite HP by done. constructor.
Qed.

Lemma reached_nodup g : reached g -> preds_nodup g.
Proof.
  induction 1 as [g Hc|g k i j g' Hr Hnd Hk Hi Hj R].
  - by apply constructed_nodup.
  - destruct (reached_inv g Hr) as [Hg _].
    destruct (relax_spec g k i j Hg Hk Hi Hj)
      as (g1 & R1 & _ & N1 & _ & _ & VP).
    rewrite R in R1. simplify_eq.
    intros a b Ha Hb.
    assert (vertex g a /\ vertex g b) as [Ha0 Hb0] by (unfold vertex in *; lia).
    rewrite VP by done.
    destruct (decide (a = i /\ b = j)) as [[-> ->]|Hne]; [|by apply Hnd].
    unfold relaxed_P. cbv zeta.
    destruct (is_inf _); [by apply Hnd|].
    destruct (wlt _ _).
    { case_bool_decide; [constructor|]. apply add_unique_NoDup. constructor. }
    destruct (weqb _ _); [|by apply Hnd].
    apply add_unique_NoDup. by apply Hnd.
Qed.

(** What a relaxation with [i <> k] does, in the terms of C1: nothing
    when [L[i][k]] or [L[k][j]] is infinite; otherwise, for the candidate
    [L[i][k] + L[k][j]], a strictly smaller one replaces [L[i][j]] and
    [P[i][j]] becomes the list [P[k][j]]; an equal one has [P[k][j]]
    merged into [P[i][j]]; a larger one changes nothing. *)
Lemma relax_as_specified g k i j :
  reached g -> vertex g k -> vertex g i -> vertex g j -> i <> k ->
  exists g', relax k i j g = (Ok tt, g') /\
    (forall a b, vertex g a -> vertex g b -> ~ (a = i /\ b = j) ->
       Lf g' a b = Lf g a b /\ Pf g' a b = Pf g a b) /\
    match Lf g i k, Lf g k j with
    | Fin x, Fin y =>
        if wlt (Fin (x + y)) (Lf g i j)
        then Lf g' i j = Fin (x + y) /\ Pf g' i j = Pf g k j
        else if weqb (Fin (x + y)) (Lf g i j)
        then Lf g' i j = Lf g i j /\
             Pf g' i j = add_unique (Pf g i j) (Pf g k j) /\
             exists added, Pf g' i j = Pf g i j ++ added
        else Lf g' i j = Lf g i j /\ Pf g' i j = Pf g i j
    | _, _ => Lf g' i j = Lf g i j /\ Pf g' i j = Pf g i j
    end.
Proof.
  intros Hr Hk Hi Hj Hik.
  destruct (reached_inv g Hr) as [Hg _].
  pose proof (reached_nodup g Hr k j Hk Hj) as Hnd.
  destruct (relax_spec g k i j Hg Hk Hi Hj) as (g' & R & _ & _ & _ & VL & VP).
  exists g'. split; [done|]. split.
  - intros a b Ha Hb Hne. rewrite VL, VP by done.
    by rewrite !decide_False by done.
  - rewrite VL, VP by done. rewrite !decide_True by done.
    unfold relaxed_L, relaxed_P, wmin. cbv zeta.
    destruct (Lf g i k) as [x|]; [|done].
    destruct (Lf g k j) as [y|]; [|done].
    cbn [wadd is_inf].
    destruct (wlt (Fin (x + y)) (Lf g i j)).
    + rewrite bool_decide_eq_false_2 by done.
      by rewrite add_unique_nil.
    + destruct (weqb (Fin (x + y)) (Lf g i j)); [|done].
      split_and!; try done. apply add_unique_prefix.
Qed.

Lemma relaxations_reached g ts : forall g',
  reached g ->
  Forall (fun t => vertex g t.1.1 /\ vertex g t.1.2 /\ vertex g t.2) ts ->
  for_each ts relax_triple g = (Ok tt, g') ->
  reached g' /\ num_vertices g' = num_vertices g.
Proof.
  induction ts as [|[[k i] j] ts IH] using rev_ind; intros g' Hr Hin.
  - by intros [= <-].
  - apply Forall_app in Hin as [Hin Hlast].
    apply Forall_singleton in Hlast as (Hk & Hi & Hj). simpl in Hk, Hi, Hj.
    rewrite for_each_app. unfold bind.
    destruct (for_each ts relax_triple g) as [[[]|] g1] eqn:E; [|done].
    destruct (IH g1 Hr Hin eq_refl) as [Hr1 N1].
    simpl. unfold bind. change (relax_triple (k, i, j) g1) with (relax k i j g1).
    destruct (reached_inv g1 Hr1) as [Hg1 _].
    assert (vertex g1 k /\ vertex g1 i /\ vertex g1 j) as (Hk1 & Hi1 & Hj1)
      by (unfold vertex in *; lia).
    destruct (relax_spec g1 k i j Hg1 Hk1 Hi1 Hj1) as (g2 & R2 & _ & N2 & _).
    rewrite R2. intros [= <-]. split; [|lia].
    exact (reached_relax g1 k i j g2 Hr1 Hk1 Hi1 Hj1 R2).
Qed.

(** The state after any number of the relaxations of [floyd_warshall],
    run on a reached state, is a reached state. *)
Lemma floyd_warshall_prefix_reached g done_ todo g' :
  reached g -> triples (num_vertices g) = done_ ++ todo ->
  for_each done_ relax_triple g = (Ok tt, g') -> reached g'.
Proof.
  intros Hr Hsplit R.
  eapply relaxations_reached; [exact Hr| |exact R].
  apply Forall_forall. intros [[k i] j] Ht. apply elem_of_triples.
  rewrite Hsplit. apply elem_of_app. by left.
Qed.

(** C9, as stated, fails already after loading: a self-loop read from the
    file makes [P[0][0]] non-empty although i = j. *)
Lemma C9_counterexample :
  ~ (forall g i j, constructed g -> vertex g i -> vertex g j ->
       (Pf g i j <> [] <-> finite (Lf g i j) /\ i <> j)).
Proof.
  intros H.
  destruct (H (loaded ["1"; "1"; "0 0 5"]%string) 0 0) as [H1 _].
  - apply loaded_constructed. vm_compute. reflexivity.
  - apply vertex_check. vm_compute. reflexivity.
  - apply vertex_check. vm_compute. reflexivity.
  - destruct H1 as [_ Hne]; [|by apply Hne].
    vm_compute. intros E. discriminate E.
Qed.

(** C9 (amended): at every point after successful construction,
    immediately after [load_from_file] and after each relaxation, a
    non-empty [P[i][j]] implies that [L[i][j]] is finite; and immediately
    after [load_from_file], [P[i][j]] is non-empty whenever [L[i][j]] is
    finite and i <> j. *)
Theorem C9_predecessors_imply_finite g i j :
  reached g -> vertex g i -> vertex g j ->
  (Pf g i j <> [] -> finite (Lf g i j)) /\
  (constructed g -> finite (Lf g i j) -> i <> j -> Pf g i j <> []).
Proof.
  intros Hr Hi Hj. split.
  - destruct (reached_inv g Hr) as [_ Hpf]. by apply Hpf.
  - intros Hc. destruct (constructed_inv g Hc) as (_ & _ & _ & _ & Hfp).
    by apply Hfp.
Qed.

Lemma C9_witness :
  (Pf after_slip 1 0 <> [] -> finite (Lf after_slip 1 0)) /\
  (constructed after_slip -> finite (Lf after_slip 1 0) -> 1 <> 0 ->
   Pf after_slip 1 0 <> []).
Proof.
  apply (C9_predecessors_imply_finite after_slip 1 0).
  - apply (floyd_warshall_prefix_reached (loaded negative_file)
             (steps_before ++ [(1, 1, 0)]) [(1, 1, 1)]).
    + apply reached_load. exists negative_file, init_graph.
      vm_compute. reflexivity.
    + vm_compute. reflexivity.
    + vm_compute. reflexivity.
  - apply vertex_check. vm_compute. reflexivity.
  - apply vertex_check. vm_compute. reflexivity.
Defined.

(** ** Malformed files *)





(** * Further properties of the methods *)

Lemma vertices_check g vs :
  forallb (fun i => (0 <=? i) && (i <? num_vertices g)) vs = true ->
  Forall (vertex g) vs.
Proof.
  intros H. apply Forall_forall. intros x Hx%list_elem_of_In.
  rewrite forallb_forall in H. by apply vertex_check, H.
Qed.

(** ** The closure as a whole *)

(** X5: on an object whose three matrices are n by n, [floyd_warshall]
    returns without raising, keeps [num_vertices], the shape and
    [initial_adj], and leaves no distance larger than it was. *)
Theorem floyd_warshall_never_increases g :
  shaped g ->
  exists g', floyd_warshall g = (Ok tt, g') /\ shaped g' /\
    num_vertices g' = num_vertices g /\ initial_adj g' = initial_adj g /\
    forall i j, vertex g i -> vertex g j -> wle (Lf g' i j) (Lf g i j).
Proof.
  intros Hg. destruct (floyd_warshall_follows g Hg) as (g' & R & Hs & N & A & Hle).
  exists g'. done.
Qed.

Lemma floyd_warshall_never_increases_witness :
  exists g', floyd_warshall (loaded tie_file) = (Ok tt, g') /\ shaped g' /\
    num_vertices g' = num_vertices (loaded tie_file) /\
    initial_adj g' = initial_adj (loaded tie_file) /\
    forall i j, vertex (loaded tie_file) i -> vertex (loaded tie_file) j ->
      wle (Lf g' i j) (Lf (loaded tie_file) i j).
Proof.
  apply (floyd_warshall_never_increases (loaded tie_file)).
  apply constructed_shaped. exists tie_file, init_graph.
  vm_compute. reflexivity.
Defined.

(** X6: after the closure of a constructed graph every finite [L[i][j]]
    is the weight of a walk from i to j along arcs of the graph that was
    read (the walk without arcs when that is the zero of the diagonal),
    negative cycles or not. *)
Theorem distances_are_walk_weights g0 g i j z :
  constructed g0 -> floyd_warshall g0 = (Ok tt, g) ->
  vertex g0 i -> vertex g0 j -> Lf g i j = Fin z ->
  exists vs, Forall (vertex g0) vs /\ last (i :: vs) = Some j /\
             walk_weight g0 i vs = Fin z.
Proof.
  intros Hc R Hi Hj Hz.
  destruct (constructed_inv g0 Hc) as (Hg & HLA & _).
  by apply (floyd_warshall_walk_inv g0 g Hg HLA R).
Qed.

Lemma distances_are_walk_weights_witness :
  exists vs, Forall (vertex (loaded tie_file)) vs /\ last (0 :: vs) = Some 2 /\
             walk_weight (loaded tie_file) 0 vs = Fin 3.
Proof.
  apply (distances_are_walk_weights (loaded tie_file) (closed tie_file) 0 2 3).
  - exists tie_file, init_graph. vm_compute. reflexivity.
  - vm_compute. reflexivity.
  - apply vertex_check. vm_compute. reflexivity.
  - apply vertex_check. vm_compute. reflexivity.
  - vm_compute. reflexivity.
Defined.

(** X7: when [has_negative_cycle()] is false after the closure of a
    constructed graph, [L[u][t]] is at most the weight of every walk of
    at least one arc from u to t in the graph that was read. *)
Theorem distances_are_minimal g0 g u t vs :
  constructed g0 -> floyd_warshall g0 = (Ok tt, g) ->
  has_negative_cycle g = Ok false ->
  vertex g0 u -> Forall (vertex g0) vs -> last vs = Some t ->
  wle (Lf g u t) (walk_weight g0 u vs).
Proof.
  intros Hc R Hneg Hu Hvs Hl.
  destruct (constructed_inv g0 Hc) as (Hg & HLA & _).
  destruct (floyd_warshall_inv g0 Hg) as (g1 & R1 & Hf & Hinv).
  rewrite R in R1. simplify_eq.
  pose proof Hf as (Hg1 & _).
  destruct (Hinv (has_negative_cycle_false g1 Hg1 Hneg)) as [Ht _].
  by apply walk_bound.
Qed.

Lemma distances_are_minimal_witness :
  wle (Lf (closed tie_file) 0 2) (walk_weight (loaded tie_file) 0 [1; 2]).
Proof.
  apply (distances_are_minimal (loaded tie_file) (closed tie_file) 0 2 [1; 2]).
  - exists tie_file, init_graph. vm_compute. reflexivity.
  - vm_compute. reflexivity.
  - vm_compute. reflexivity.
  - apply vertex_check. vm_compute. reflexivity.
  - apply vertices_check. vm_compute. reflexivity.
  - reflexivity.
Defined.

(** X8: when [has_negative_cycle()] is false after the closure of a
    constructed graph and [L[i][k] + L[k][j] = L[i][j]] with both terms
    finite, every predecessor recorded in [P[k][j]] is recorded in
    [P[i][j]]. *)
Theorem predecessors_closed_under_composition g0 g i k j v :
  constructed g0 -> floyd_warshall g0 = (Ok tt, g) ->
  has_negative_cycle g = Ok false ->
  vertex g i -> vertex g k -> vertex g j ->
  finite (Lf g i k) -> finite (Lf g k j) ->
  wadd (Lf g i k) (Lf g k j) = Lf g i j ->
  v ∈ Pf g k j -> v ∈ Pf g i j.
Proof.
  intros Hc R Hneg Hi Hk Hj F1 F2 Htie Hv.
  destruct (floyd_warshall_inv g0 (constructed_shaped g0 Hc))
    as (g1 & R1 & (Hg1 & N1 & _) & Hinv).
  rewrite R in R1. simplify_eq.
  destruct (Hinv (has_negative_cycle_false g1 Hg1 Hneg)) as [_ Hp].
  unfold vertex in *. apply (Hp i j k); (done || lia).
Qed.

Lemma predecessors_closed_under_composition_witness :
  1 ∈ Pf (closed tie_file) 0 2.
Proof.
  apply (predecessors_closed_under_composition
           (loaded tie_file) (closed tie_file) 0 1 2 1).
  - exists tie_file, init_graph. vm_compute. reflexivity.
  - vm_compute. reflexivity.
  - vm_compute. reflexivity.
  - apply vertex_check. vm_compute. reflexivity.
  - apply vertex_check. vm_compute. reflexivity.
  - apply vertex_check. vm_compute. reflexivity.
  - vm_compute. reflexivity.
  - vm_compute. reflexivity.
  - vm_compute. reflexivity.
  - vm_compute. left.
Defined.

(** ** What a successful load leaves *)

Lemma prepared_values g :
  exists g', (alloc_matrices ;;;
              nv <- lift (fun g => Ok (num_vertices g)) ;;
              for_each (range nv) zero_diagonal) g = (Ok tt, g') /\
    forall a b, vertex g a -> vertex g b ->
      Lf g' a b = if a =? b then Fin 0 else Inf.
Proof.
  destruct (alloc_matrices_spec g) as (g1 & R1 & Hg1 & N1 & LA1 & V1).
  rewrite (bind_Ok _ _ _ _ _ R1). unfold bind at 1, lift at 1.
  destruct (zero_diagonal_loop (range (num_vertices g1)) g1)
    as (g2 & R2 & Hg2 & N2 & P2 & LA2 & V2); try done.
  { apply Forall_forall. by intros i Hi%elem_of_range. }
  exists g2. split; [done|]. intros a b Ha Hb.
  assert (vertex g1 a /\ vertex g1 b) as [Ha1 Hb1]
    by (unfold vertex in *; lia).
  rewrite V2 by done. destruct (V1 a b Ha Hb) as [-> _].
  destruct (Z.eqb_spec a b) as [->|Hne].
  - rewrite bool_decide_eq_true_2; [done|]. split; [done|].
    apply elem_of_range. unfold vertex in *. lia.
  - rewrite bool_decide_eq_false_2; [done|]. tauto.
Qed.

(** The way through [load_from_file] when both header lines are
    integers. *)
Lemma load_with_header raw g n m :
  rbind (py_get (file_lines raw) 0) py_int = Ok n ->
  rbind (py_get (file_lines raw) 1) py_int = Ok m ->
  exists gp,
    loaded_inv gp /\ num_vertices gp = n /\
    (forall a b, vertex gp a -> vertex gp b -> Pf gp a b = []) /\
    (forall a b, vertex gp a -> vertex gp b ->
       Lf gp a b = if a =? b then Fin 0 else Inf) /\
    load_from_file (Some raw) g =
    match for_each (range m) (load_edge (file_lines raw)) gp with
    | (Ok _, g') => (Ok true, g')
    | (Raise e, g') => (Ok false, g')
    end.
Proof.
  intros E0 E1. unfold load_from_file, load_body. fold (file_lines raw).
  destruct (file_lines raw) as [|l0 rest] eqn:El; [done|].
  rewrite <- El in E0, E1 |- *.
  rewrite (bind_Ok _ _ g n g) by (unfold lift; by rewrite E0).
  set (g1 := mkGraph n (L g) (P g) (initial_adj g)).
  rewrite (bind_Ok _ _ g tt g1) by done.
  rewrite (bind_Ok _ _ g1 m g1) by (unfold lift; by rewrite E1).
  destruct (prepared_inv g1) as (gp & Rp & Hinv & Np & HP).
  destruct (prepared_values g1) as (gp' & Rp' & HV).
  rewrite Rp in Rp'. simplify_eq.
  exists gp'. split_and!; try done.
  { intros a b Ha Hb. apply HP; unfold vertex in *; rewrite <- Np; done. }
  { intros a b Ha Hb. apply HV; unfold vertex in *; rewrite <- Np; done. }
  change (fun i : Z => setL i i (Fin 0);;; setA i i (Fin 0)) with zero_diagonal.
  revert Rp. unfold bind, lift.
  destruct (alloc_matrices g1) as [[[]|] g2]; [|done].
  destruct (for_each (range (num_vertices g2)) zero_diagonal g2) as [[[]|] g3];
    [|done].
  intros [= ->].
  destruct (for_each (range m) (load_edge (file_lines raw)) gp') as [[[]|] g4];
    done.
Qed.

Lemma load_true_header raw g0 g :
  load_from_file (Some raw) g0 = (Ok true, g) ->
  exists n m,
    rbind (py_get (file_lines raw) 0) py_int = Ok n /\
    rbind (py_get (file_lines raw) 1) py_int = Ok m.
Proof.
  intros Hload. unfold load_from_file in Hload.
  destruct (load_body_cases raw g0)
    as [[_ E]|[(_ & e & _ & E)|[(_ & n & e & _ & _ & E)|
        (_ & n & m & gp & E0 & E1 & _)]]];
    try (rewrite E in Hload; done).
  eauto.
Qed.

Lemma load_edges_keep lines n xs : forall g g',
  loaded_inv g /\ num_vertices g = n ->
  for_each xs (load_edge lines) g = (Ok tt, g') ->
  loaded_inv g' /\ num_vertices g' = n.
Proof.
  apply (for_each_inv_Ok (fun g1 => loaded_inv g1 /\ num_vertices g1 = n)).
  intros i g1 g2 [H1 N1] R1.
  destruct (load_edge_inv _ _ _ _ H1 R1) as [H2 N2]. split; [done|lia].
Qed.

(** X1: when [load_from_file] returns [True], [num_vertices] is the
    integer of the first non-blank line, [L], [P] and [initial_adj] have
    that many rows of that many cells each (none when the count is not
    positive), and [L] equals [initial_adj]. *)
Theorem load_success_shape raw g0 g :
  load_from_file (Some raw) g0 = (Ok true, g) ->
  rbind (py_get (file_lines raw) 0) py_int = Ok (num_vertices g) /\
  square (num_vertices g) (L g) /\ square (num_vertices g) (P g) /\
  square (num_vertices g) (initial_adj g) /\
  L g = initial_adj g.
Proof.
  intros Hload.
  destruct (load_true_header raw g0 g Hload) as (n & m & E0 & E1).
  destruct (load_with_header raw g0 n m E0 E1)
    as (gp & Hinv & Hn & _ & _ & E).
  rewrite Hload in E.
  destruct (for_each (range m) (load_edge (file_lines raw)) gp)
    as [[[]|] g'] eqn:R; [|done].
  simplify_eq.
  destruct (load_edges_keep _ _ _ _ _ (conj Hinv eq_refl) R)
    as [((HL & HP & HA) & HLA & _) N].
  rewrite <- N in E0. done.
Qed.

Lemma load_success_shape_witness :
  rbind (py_get (file_lines tie_file) 0) py_int
    = Ok (num_vertices (loaded tie_file)) /\
  square (num_vertices (loaded tie_file)) (L (loaded tie_file)) /\
  square (num_vertices (loaded tie_file)) (P (loaded tie_file)) /\
  square (num_vertices (loaded tie_file)) (initial_adj (loaded tie_file)) /\
  L (loaded tie_file) = initial_adj (loaded tie_file).
Proof.
  apply (load_success_shape tie_file init_graph (loaded tie_file)).
  vm_compute. reflexivity.
Defined.

(** ** When [load_from_file] returns [True] *)











(** ** The matrices in terms of the edge lines *)

(** The edges the loop of lines 74-82 reads, in file order. *)
Definition edges_of (lines : list string) (idx : list Z) : list (Z * Z * Z) :=
  omap (fun i => if 2 + i <? Z.of_nat (length lines)
                 then match edge_at lines i with
                      | Ok e => Some e
                      | Raise _ => None
                      end
                 else None) idx.

(** Edge [e] is stored in cell [(a, b)] of an n by n matrix. *)
Definition hits (n a b : Z) (e : Z * Z * Z) : Prop :=
  wrap n e.1.1 = a /\ wrap n e.1.2 = b.

Lemma last_cons_match {A} (x : A) l :
  last (x :: l) = match last l with Some y => Some y | None => Some x end.
Proof. destruct l as [|y l]; [done|]. rewrite last_cons_cons.
       destruct (last (y :: l)) eqn:E; [done|]. by apply last_None in E. Qed.

Lemma load_edges_effect lines n idx : forall g g',
  loaded_inv g -> num_vertices g = n ->
  for_each idx (load_edge lines) g = (Ok tt, g') ->
  forall a b, vertex g a -> vertex g b ->
    Lf g' a b = match last (filter (hits n a b) (edges_of lines idx)) with
                | Some e => Fin e.2
                | None => Lf g a b
                end /\
    (forall u, u ∈ Pf g' a b <->
               u ∈ Pf g a b \/
               exists e, e ∈ edges_of lines idx /\ hits n a b e /\ e.1.1 = u).
Proof.
  induction idx as [|i idx IH]; intros g g' Hinv Hn R a b Ha Hb.
  - simpl in R. unfold ret in R. simplify_eq. split; [done|].
    intros u. split; [by left|]. intros [?|(e & []%elem_of_nil & _)]. done.
  - simpl in R. unfold bind in R.
    destruct (load_edge lines i g) as [[[]|] g1] eqn:R1; [|done].
    destruct (load_edge_inv lines i g g1 Hinv R1) as [Hinv1 N1].
    assert (vertex g1 a /\ vertex g1 b) as [Ha1 Hb1]
      by (unfold vertex in *; lia).
    destruct (IH g1 g' Hinv1 ltac:(lia) R a b Ha1 Hb1) as [IHL IHP].
    rewrite load_edge_unfold in R1. unfold edges_of. simpl.
    fold (edges_of lines idx).
    destruct (2 + i <? Z.of_nat (length lines)).
    2:{ simplify_eq. done. }
    destruct (edge_at lines i) as [[[u v] w]|]; [|done].
    pose proof Hinv as (Hg & HLA & _).
    destruct (decide (- num_vertices g <= u < num_vertices g /\
                      - num_vertices g <= v < num_vertices g))
      as [[Hu Hv]|Hbad].
    2:{ destruct (store_edge_raises g u v w Hg Hbad) as [e He]. congruence. }
    destruct (store_edge_spec g u v w Hg HLA Hu Hv)
      as (g2 & R2 & _ & _ & _ & _ & _ & V).
    rewrite R1 in R2. simplify_eq.
    destruct (V a b Ha Hb) as [VL VP]. clear V.
    rewrite IHL, VL. split.
    + rewrite filter_cons.
      destruct (decide (hits (num_vertices g) a b (u, v, w))) as [Hh|Hh].
      * rewrite last_cons_match.
        destruct (last (filter _ _)); [done|].
        unfold hits in Hh. simpl in Hh. destruct Hh as [<- <-].
        by rewrite decide_True.
      * destruct (last (filter _ _)); [done|].
        rewrite decide_False; [done|].
        intros [-> ->]. apply Hh. done.
    + intros u0. rewrite IHP, VP. clear IHL IHP VL VP.
      split.
      * intros [Hin|(e & He & Hh & Hu0)].
        -- destruct (decide (a = _ /\ b = _)) as [[-> ->]|]; [|by left].
           case_bool_decide; [by left|].
           apply elem_of_app in Hin as [?|Hin]; [by left|].
           apply list_elem_of_singleton in Hin as ->.
           right. exists (u, v, w). split_and!; [left|done|done].
        -- right. exists e. split_and!; [by right|done|done].
      * intros [Hin|(e & He & Hh & Hu0)].
        { left. destruct (decide (a = _ /\ b = _)) as [[-> ->]|]; [|done].
          case_bool_decide; [done|]. apply elem_of_app. by left. }
        apply elem_of_cons in He as [->|He]; [|right; eauto].
        left. destruct Hh as [<- <-]. simpl in *. subst u0.
        rewrite decide_True by done.
        case_bool_decide; [done|]. apply elem_of_app. right. left.
Qed.

(** X3: when [load_from_file] returns [True], [L[a][b]] is the weight on
    the last edge line read for that cell (indices taken modulo the
    wrap-around of negative subscripts), or 0 on the diagonal and
    infinite elsewhere when no line names the cell; and [P[a][b]] holds
    exactly the first fields of the lines that name the cell. *)
Theorem load_last_edge_wins raw g0 g n m a b :
  load_from_file (Some raw) g0 = (Ok true, g) ->
  rbind (py_get (file_lines raw) 0) py_int = Ok n ->
  rbind (py_get (file_lines raw) 1) py_int = Ok m ->
  0 <= a < n -> 0 <= b < n ->
  let edges := edges_of (file_lines raw) (range m) in
  Lf g a b = match last (filter (hits n a b) edges) with
             | Some e => Fin e.2
             | None => if a =? b then Fin 0 else Inf
             end /\
  (forall u, u ∈ Pf g a b <->
             exists e, e ∈ edges /\ hits n a b e /\ e.1.1 = u).
Proof.
  intros Hload E0 E1 Ha Hb edges.
  destruct (load_with_header raw g0 n m E0 E1)
    as (gp & Hinv & Hn & HP & HV & E).
  rewrite Hload in E.
  destruct (for_each (range m) (load_edge (file_lines raw)) gp)
    as [[[]|] g'] eqn:R; [|done].
  simplify_eq.
  assert (vertex gp a /\ vertex gp b) as [Ha' Hb'] by (by unfold vertex).
  destruct (load_edges_effect _ _ _ gp g' Hinv eq_refl R a b Ha' Hb')
    as [HL HPf].
  split.
  - rewrite HL. by rewrite HV.
  - intros u. rewrite HPf, HP by done. split.
    + intros [[]%elem_of_nil|?]. done.
    + by right.
Qed.

Lemma load_last_edge_wins_witness :
  let edges := edges_of (file_lines tie_file) (range 3) in
  Lf (loaded tie_file) 0 2
  = match last (filter (hits 3 0 2) edges) with
    | Some e => Fin e.2
    | None => if 0 =? 2 then Fin 0 else Inf
    end /\
  (forall u, u ∈ Pf (loaded tie_file) 0 2 <->
             exists e, e ∈ edges /\ hits 3 0 2 e /\ e.1.1 = u).
Proof.
  apply (load_last_edge_wins tie_file init_graph (loaded tie_file) 3 3 0 2).
  - vm_compute. reflexivity.
  - vm_compute. reflexivity.
  - vm_compute. reflexivity.
  - lia.
  - lia.
Defined.

(** ** What a failed load leaves *)









(** ** [_add_unique] on its own *)

(** X10: [_add_unique] leaves the target as a prefix and appends to it
    the values of the source that the target lacks, each once, in the
    order of the source. *)
Theorem add_unique_appends_new_values target source :
  exists ext, add_unique target source = target ++ ext /\
    NoDup ext /\ sublist ext source /\
    forall x, x ∈ ext <-> x ∈ source /\ x ∉ target.
Proof.
  revert target. induction source as [|v s IH]; intros t.
  - exists []. rewrite app_nil_r. split_and!; [done|constructor|constructor|].
    intros x. rewrite !elem_of_nil. tauto.
  - change (add_unique t (v :: s))
      with (add_unique (if bool_decide (v ∈ t) then t else t ++ [v]) s).
    case_bool_decide as Hv.
    + destruct (IH t) as (ext & E & Hnd & Hsub & Hin).
      exists ext. split_and!; [done|done|by apply sublist_cons|].
      intros x. rewrite Hin, elem_of_cons. split; [tauto|].
      intros [[->|?] ?]; tauto.
    + destruct (IH (t ++ [v])) as (ext & E & Hnd & Hsub & Hin).
      exists (v :: ext). split_and!.
      * rewrite E, <- app_assoc. done.
      * apply NoDup_cons. split; [|done].
        rewrite Hin, elem_of_app, list_elem_of_singleton. tauto.
      * by apply sublist_skip.
      * intros x. rewrite !elem_of_cons, Hin, elem_of_app,
          list_elem_of_singleton.
        destruct (decide (x = v)) as [->|]; tauto.
Qed.

(** ** [get_negative_cycle_path] *)

(** The scan of lines 188-192 against the scan of [has_negative_cycle]. *)
Lemma find_start_spec g idx :
  match find_start g idx with
  | Ok s =>
      (s = -1 /\ any_negative g idx = Ok false) \/
      (exists pre post, idx = pre ++ s :: post /\
         any_negative g idx = Ok true /\
         wlt (Lf g s s) (Fin 0) = true /\
         forall i, i ∈ pre -> wlt (Lf g i i) (Fin 0) = false)
  | Raise e => any_negative g idx = Raise e
  end.
Proof.
  induction idx as [|i r IH]; simpl; [by left|].
  destruct (mat_get (L g) i i) as [d|e] eqn:E; simpl; [|done].
  destruct (wlt d (Fin 0)) eqn:W.
  - right. exists [], r. split_and!; [done|done| |by intros ? ?%elem_of_nil].
    unfold Lf. by rewrite E.
  - destruct (find_start g r) as [s|e]; [|done].
    destruct IH as [[-> ?]|(pre & post & -> & ? & ? & Hpre)]; [by left|].
    right. exists (i :: pre), post. split_and!; try done.
    intros x [->|?]%elem_of_cons; [|by apply Hpre].
    unfold Lf. by rewrite E.
Qed.

Lemma range_split n pre s post :
  range n = pre ++ s :: post ->
  0 <= s < n /\ forall i, 0 <= i < s -> i ∈ pre.
Proof.
  unfold range. intros E.
  assert (seqZ 0 n !! length pre = Some s) as Hs
    by (rewrite E; apply list_lookup_middle; done).
  apply lookup_seqZ in Hs as [Hs Hlt]. split; [lia|].
  intros i Hi.
  assert (seqZ 0 n !! Z.to_nat i = Some i) as Hl
    by (apply lookup_seqZ; lia).
  rewrite E, lookup_app_l in Hl by lia.
  by apply list_elem_of_lookup_2 in Hl.
Qed.

(** [a] is the first entry of [P[s][b]]. *)
Definition linked (g : Graph) (s a b : Z) : Prop :=
  exists rest, mat_get (P g) s b = Ok (a :: rest).

(** Each vertex of the list is the first recorded predecessor of the
    next one, on the way from [s]. *)
Fixpoint links (g : Graph) (s : Z) (path : list Z) : Prop :=
  match path with
  | a :: r => match r with
              | b :: _ => linked g s a b /\ links g s r
              | [] => True
              end
  | [] => True
  end.

Lemma walk_back_spec g s : forall left curr path walk,
  walk_back g s left curr path = Ok walk ->
  last path = Some curr ->
  links g s (rev path ++ [s]) ->
  exists ext, walk = path ++ ext /\ (length ext <= left)%nat /\
    links g s (rev walk ++ [s]) /\
    (curr = s -> ext = []).
Proof.
  induction left as [|left IH]; intros curr path walk R Hl Hk.
  - simpl in R. exists []. rewrite app_nil_r.
    destruct (curr =? s); simplify_eq; done.
  - simpl in R. destruct (Z.eqb_spec curr s) as [->|Hne].
    { simplify_eq. exists []. rewrite app_nil_r.
      split_and!; [done|simpl; lia|done|done]. }
    destruct (mat_get (P g) s curr) as [preds|] eqn:E; [|done]. simpl in R.
    destruct preds as [|p rest].
    { simplify_eq. exists []. rewrite app_nil_r.
      split_and!; [done|simpl; lia|done|done]. }
    apply last_Some in Hl as [pre ->].
    destruct (IH p ((pre ++ [curr]) ++ [p]) walk R) as (ext & -> & Hlen & Hk' & _).
    + apply last_snoc.
    + rewrite !rev_unit in *. simpl. split; [by exists rest|done].
    + exists (p :: ext). split_and!.
      * by rewrite <- !app_assoc.
      * simpl. lia.
      * done.
      * done.
Qed.

Lemma close_path_length path :
  (length (close_path path) <= S (length path))%nat.
Proof.
  unfold close_path. rewrite <- (length_rev path).
  destruct (rev path) as [|first rest]; [simpl; lia|].
  destruct (last (first :: rest)); [|lia].
  destruct (first =? z); [lia|]. rewrite length_app. simpl. lia.
Qed.

Lemma close_path_rev path first r final :
  rev path = first :: r -> last (first :: r) = Some final ->
  close_path path = if first =? final then first :: r
                    else (first :: r) ++ [first].
Proof. unfold close_path. intros -> ->. done. Qed.

(** X11: when [has_negative_cycle()] returns false,
    [get_negative_cycle_path()] returns the empty list. *)
Theorem cycle_path_empty_without_negative_cycle g :
  has_negative_cycle g = Ok false -> get_negative_cycle_path g = Ok [].
Proof.
  unfold has_negative_cycle, get_negative_cycle_path. intros Hf.
  pose proof (find_start_spec g (range (num_vertices g))) as Hs.
  destruct (find_start g (range (num_vertices g))) as [s|e].
  - destruct Hs as [[-> _]|(pre & post & _ & Ht & _)]; [done|congruence].
  - congruence.
Qed.

Lemma cycle_path_empty_without_negative_cycle_witness :
  get_negative_cycle_path (closed tie_file) = Ok [].
Proof.
  apply (cycle_path_empty_without_negative_cycle (closed tie_file)).
  vm_compute. reflexivity.
Defined.

(** X12: the list [get_negative_cycle_path] returns has at most
    [2 * num_vertices + 2] entries: the guard [max_steps] bounds the way
    back through [P] whatever the predecessor lists hold. *)
Theorem cycle_path_length_bounded g path :
  get_negative_cycle_path g = Ok path ->
  (length path <= Z.to_nat (num_vertices g * 2) + 2)%nat.
Proof.
  unfold get_negative_cycle_path. intros R.
  destruct (find_start g (range (num_vertices g))) as [s|]; [|done].
  simpl in R. destruct (s =? -1); [simplify_eq; simpl; lia|].
  destruct (mat_get (initial_adj g) s s) as [a|]; [|done]. simpl in R.
  destruct (wlt a (Fin 0)); [simplify_eq; simpl; lia|].
  destruct (mat_get (P g) s s) as [[|c rest]|] eqn:EP; [| |done]; simpl in R.
  { simplify_eq. simpl. lia. }
  destruct (walk_back g s (Z.to_nat (num_vertices g * 2)) c [c])
    as [walk|] eqn:W; [|done].
  cbn [rbind] in R. simplify_eq.
  destruct (walk_back_spec g s _ c [c] walk W) as (ext & -> & Hlen & _).
  { done. }
  { simpl. split; [by exists rest|done]. }
  pose proof (close_path_length ([c] ++ ext)) as Hc.
  rewrite length_app in Hc. cbn [length] in Hc. lia.
Qed.

Lemma cycle_path_length_bounded_witness :
  (length [0; 1; 0] <= Z.to_nat (num_vertices (closed negative_file) * 2) + 2)%nat.
Proof.
  apply (cycle_path_length_bounded (closed negative_file) [0; 1; 0]).
  vm_compute. reflexivity.
Defined.

(** X13: a non-empty list returned by [get_negative_cycle_path] means
    that [has_negative_cycle()] is true.  With [s] the first vertex of
    negative [L[s][s]]: when the list begins with [s] it is [[s, s]]
    (the loop at [s] was negative in the file), or [[s]] ([s] is its own
    first predecessor), or it ends with [s] as well and every vertex of
    it is the first entry of [P[s][.]] of the vertex after it. *)
Theorem cycle_path_follows_first_predecessors g path :
  get_negative_cycle_path g = Ok path -> path <> [] ->
  has_negative_cycle g = Ok true /\
  exists s, vertex g s /\ wlt (Lf g s s) (Fin 0) = true /\
    (forall i, 0 <= i < s -> wlt (Lf g i i) (Fin 0) = false) /\
    (hd_error path = Some s ->
       (path = [s; s] /\ wlt (Af g s s) (Fin 0) = true) \/
       (path = [s] /\ linked g s s s) \/
       (last path = Some s /\ links g s path /\ (3 <= length path)%nat)).
Proof.
  unfold has_negative_cycle, get_negative_cycle_path. intros R Hne.
  pose proof (find_start_spec g (range (num_vertices g))) as Hs.
  destruct (find_start g (range (num_vertices g))) as [s|]; [|done].
  cbn [rbind] in R.
  destruct Hs as [[-> _]|(pre & post & Hsplit & Ht & Hneg & Hpre)].
  { simpl in R. simplify_eq. }
  apply range_split in Hsplit as [Hv Hfirst].
  split; [done|]. exists s. split_and!; [done|done|by auto|].
  destruct (Z.eqb_spec s (-1)) as [?|_]; [lia|].
  destruct (mat_get (initial_adj g) s s) as [a|] eqn:EA; [|done].
  cbn [rbind] in R.
  destruct (wlt a (Fin 0)) eqn:Wa.
  { simplify_eq. intros _. left. split; [done|]. unfold Af. by rewrite EA. }
  destruct (mat_get (P g) s s) as [[|c rest]|] eqn:EP; [| |done];
    cbn [rbind] in R; [simplify_eq|].
  destruct (walk_back g s (Z.to_nat (num_vertices g * 2)) c [c])
    as [walk|] eqn:W; [|done].
  cbn [rbind] in R. simplify_eq.
  destruct (walk_back_spec g s _ c [c] walk W) as (ext & -> & _ & Hk & Himm).
  { done. }
  { simpl. split; [by exists rest|done]. }
  clear Hne W. revert Hk.
  change (rev ([c] ++ ext)) with (rev ext ++ [c]).
  destruct (rev ext) as [|x t] eqn:Er.
  - apply (f_equal (@rev Z)) in Er. rewrite rev_involutive in Er. simpl in Er.
    subst ext. rewrite (close_path_rev ([c] ++ []) c [] c) by done.
    rewrite Z.eqb_refl. intros _ [= ->].
    right. left. split; [done|]. by exists rest.
  - assert (rev ([c] ++ ext) = x :: (t ++ [c])) as Hrev
      by (change (rev ([c] ++ ext)) with (rev ext ++ [c]); by rewrite Er).
    rewrite (close_path_rev _ x (t ++ [c]) c Hrev)
      by (rewrite app_comm_cons; apply last_snoc).
    intros Hk. destruct (Z.eqb_spec x c) as [->|Hxc].
    + intros [= ->]. rewrite Himm in Er by done. done.
    + intros [= ->]. right. right. split_and!.
      * apply last_snoc.
      * exact Hk.
      * simpl. rewrite !length_app. simpl. lia.
Qed.

Lemma cycle_path_follows_first_predecessors_witness :
  has_negative_cycle (closed negative_file) = Ok true /\
  exists s, vertex (closed negative_file) s /\
    wlt (Lf (closed negative_file) s s) (Fin 0) = true /\
    (forall i, 0 <= i < s ->
               wlt (Lf (closed negative_file) i i) (Fin 0) = false) /\
    (hd_error [0; 1; 0] = Some s ->
       ([0; 1; 0] = [s; s] /\
        wlt (Af (closed negative_file) s s) (Fin 0) = true) \/
       ([0; 1; 0] = [s] /\ linked (closed negative_file) s s s) \/
       (last [0; 1; 0] = Some s /\ links (closed negative_file) s [0; 1; 0] /\
        (3 <= length [0; 1; 0])%nat)).
Proof.
  apply (cycle_path_follows_first_predecessors (closed negative_file) [0; 1; 0]).
  - vm_compute. reflexivity.
  - intros H. discriminate H.
Defined.

(** ** [get_all_shortest_paths] *)

Lemma extended_paths_elem enum end_ preds : forall res path,
  extended_paths enum end_ preds = Ok res -> path ∈ res ->
  exists p sub q, p ∈ preds /\ p <> end_ /\ enum p = Ok sub /\ q ∈ sub /\
                  path = q ++ [end_].
Proof.
  induction preds as [|p rest IH]; intros res path R Hin; simpl in R.
  - simplify_eq. by apply elem_of_nil in Hin.
  - destruct (Z.eqb_spec p end_) as [->|Hne].
    + destruct (IH res path R Hin) as (p' & sub & q & ? & ?).
      exists p', sub, q. split; [by right|done].
    + destruct (enum p) as [sub|] eqn:E; [|done]. cbn [rbind] in R.
      destruct (extended_paths enum end_ rest) as [others|]; [|done].
      cbn [rbind] in R. simplify_eq.
      apply elem_of_app in Hin as [Hin|Hin].
      * apply list_elem_of_In, in_map_iff in Hin as (q & <- & Hq).
        exists p, sub, q. split_and!; try done; [left|by apply list_elem_of_In].
      * destruct (IH others path eq_refl Hin) as (p' & sub' & q & ? & ?).
        exists p', sub', q. split; [by right|done].
Qed.

(** Each vertex of the list is recorded in [P[start][.]] of the vertex
    after it, differs from it, and that vertex is at finite distance. *)
Fixpoint pred_chain (g : Graph) (start : Z) (path : list Z) : Prop :=
  match path with
  | a :: r => match r with
              | b :: _ => a ∈ Pf g start b /\ a <> b /\
                          finite (Lf g start b) /\ pred_chain g start r
              | [] => True
              end
  | [] => True
  end.

Lemma pred_chain_snoc g start q p e :
  pred_chain g start q -> last q = Some p ->
  p ∈ Pf g start e -> p <> e -> finite (Lf g start e) ->
  pred_chain g start (q ++ [e]).
Proof.
  intros Hq Hl Hp Hne Hf. induction q as [|a r IH]; [done|].
  destruct r as [|b r'].
  - simpl in Hl. simplify_eq. simpl. done.
  - rewrite last_cons_cons in Hl. destruct Hq as (H1 & H2 & H3 & H4).
    change (a ∈ Pf g start b /\ a <> b /\ finite (Lf g start b) /\
            pred_chain g start ((b :: r') ++ [e])).
    split_and!; try done. by apply IH.
Qed.

(** X14: every list that [get_all_shortest_paths(start, end)] returns
    begins with [start], ends with [end], and steps only from a vertex
    recorded in [P[start][v]] to [v]; and nothing is returned unless
    [L[start][end]] is finite. *)
Theorem shortest_paths_follow_predecessors depth g start end_ paths path :
  get_all_shortest_paths depth g start end_ = Ok paths -> path ∈ paths ->
  hd_error path = Some start /\ last path = Some end_ /\
  pred_chain g start path /\ finite (Lf g start end_).
Proof.
  revert end_ paths path.
  induction depth as [|depth IH]; intros end_ paths path R Hin; [done|].
  rewrite get_all_shortest_paths_unfold in R.
  destruct (mat_get (L g) start end_) as [d|] eqn:EL; [|done].
  cbn [rbind] in R.
  assert (Lf g start end_ = d) as HL by (unfold Lf; by rewrite EL).
  destruct (is_inf d) eqn:Ed.
  { simplify_eq. by apply elem_of_nil in Hin. }
  destruct (Z.eqb_spec start end_) as [->|Hne].
  { simplify_eq. apply list_elem_of_singleton in Hin as ->.
    split_and!; try done. }
  destruct (mat_get (P g) start end_) as [preds|] eqn:EP; [|done].
  cbn [rbind] in R.
  destruct (extended_paths_elem _ _ _ _ _ R Hin)
    as (p & sub & q & Hp & Hpe & Hsub & Hq & ->).
  destruct (IH p sub q Hsub Hq) as (Hhd & Hl & Hch & _).
  split_and!.
  - destruct q; [done|]. done.
  - apply last_snoc.
  - apply (pred_chain_snoc g start q p end_); try done.
    + unfold Pf. by rewrite EP.
    + unfold finite. by rewrite HL.
  - unfold finite. by rewrite HL.
Qed.

Lemma shortest_paths_follow_predecessors_witness :
  hd_error [0; 1; 2] = Some 0 /\ last [0; 1; 2] = Some 2 /\
  pred_chain (closed tie_file) 0 [0; 1; 2] /\
  finite (Lf (closed tie_file) 0 2).
Proof.
  apply (shortest_paths_follow_predecessors 5 (closed tie_file) 0 2
           [[0; 2]; [0; 1; 2]] [0; 1; 2]).
  - vm_compute. reflexivity.
  - right. left.
Defined.

(** ** The cost of the paths returned *)

(** Every recorded predecessor [p] of the pair [(i, j)] is a vertex, the
    file has an arc from [p] to [j], and [L[i][j]] is the weight of a
    walk from [i] to [p] followed by that arc. *)
Definition pred_walk (g0 g : Graph) : Prop :=
  forall i j p, vertex g0 i -> vertex g0 j -> p ∈ Pf g i j ->
    vertex g0 p /\
    exists vs z w, Forall (vertex g0) vs /\ last (i :: vs) = Some p /\
      walk_weight g0 i vs = Fin z /\ Af g0 p j = Fin w /\
      Lf g i j = Fin (z + w).

(** What [load_from_file] records in [P[a][b]] names row [a]. *)
Lemma constructed_preds g a b u :
  constructed g -> vertex g a -> vertex g b -> u ∈ Pf g a b ->
  wrap (num_vertices g) u = a.
Proof.
  intros (raw & g0 & Hload) Ha Hb Hu.
  destruct (load_true_header raw g0 g Hload) as (n & m & E0 & E1).
  destruct (load_with_header raw g0 n m E0 E1)
    as (gp & Hinv & Hn & HP & _ & E).
  rewrite Hload in E.
  destruct (for_each (range m) (load_edge (file_lines raw)) gp)
    as [[[]|] g'] eqn:R; [|done].
  simplify_eq.
  destruct (load_edges_keep _ _ _ _ _ (conj Hinv eq_refl) R) as [_ N].
  assert (vertex gp a /\ vertex gp b) as [Ha' Hb']
    by (unfold vertex in *; lia).
  destruct (load_edges_effect _ _ _ gp g' Hinv eq_refl R a b Ha' Hb')
    as [_ HPf].
  apply HPf in Hu as [Hu|(e & _ & [Hh _] & <-)].
  - rewrite HP in Hu by done. by apply elem_of_nil in Hu.
  - by rewrite N.
Qed.

Lemma pred_walk_init g :
  constructed g ->
  (forall i j p, vertex g i -> vertex g j -> p ∈ Pf g i j -> 0 <= p) ->
  pred_walk g g.
Proof.
  intros Hc Hpos i j p Hi Hj Hp.
  pose proof (constructed_preds g i j p Hc Hi Hj Hp) as Hw.
  pose proof (Hpos i j p Hi Hj Hp) as H0.
  assert (p = i) as ->.
  { unfold wrap in Hw. destruct (Z.ltb_spec p 0); lia. }
  split; [done|].
  destruct (constructed_inv g Hc) as (_ & HLA & _ & Hfin & _).
  assert (finite (Lf g i j)) as Hf.
  { apply Hfin; try done. intros E. rewrite E in Hp. by apply elem_of_nil in Hp. }
  destruct (Lf g i j) as [w|] eqn:EL; [|done].
  exists [], 0, w. split_and!; try done.
  unfold Af. rewrite <- HLA. exact EL.
Qed.

(** Where an entry of [P[i][j]] comes from after one relaxation. *)
Lemma relaxed_P_origin l p k i j v :
  v ∈ relaxed_P l p k i j ->
  (v ∈ p i j /\ relaxed_L l k i j = l i j) \/
  (v ∈ p k j /\ exists x y, l i k = Fin x /\ l k j = Fin y /\
                            relaxed_L l k i j = Fin (x + y)).
Proof.
  unfold relaxed_P, relaxed_L, wmin. cbv zeta.
  destruct (l i k) as [x|]; [|left; split; [done|by destruct (l i j)]].
  destruct (l k j) as [y|]; [|left; split; [done|by destruct (l i j)]].
  cbn [wadd is_inf].
  destruct (wlt (Fin (x + y)) (l i j)) eqn:E1.
  - case_bool_decide; [by intros ?%elem_of_nil|].
    intros [[]%elem_of_nil|Hv]%elem_of_add_unique.
    right. split; [done|]. by exists x, y.
  - destruct (weqb (Fin (x + y)) (l i j)) eqn:E2; [|by left].
    intros [Hv|Hv]%elem_of_add_unique; [by left|].
    right. split; [done|]. exists x, y. split_and!; try done.
    revert E2. clear. destruct (l i j); simpl; [|done].
    intros ->%Z.eqb_eq. done.
Qed.

Lemma relax_pred_walk g0 g k i j g' :
  follows g0 g -> walk_inv g0 g -> pred_walk g0 g ->
  vertex g0 k -> vertex g0 i -> vertex g0 j ->
  relax k i j g = (Ok tt, g') -> pred_walk g0 g'.
Proof.
  intros (Hg & N & _ & _) Hw Hpw Hk Hi Hj R a b p Ha Hb Hp.
  assert (forall c, vertex g0 c -> vertex g c) as Hv
    by (unfold vertex; intros; lia).
  destruct (relax_spec g k i j Hg (Hv _ Hk) (Hv _ Hi) (Hv _ Hj))
    as (g1 & R1 & _ & _ & _ & VL & VP).
  rewrite R in R1. simplify_eq.
  rewrite VP in Hp by auto. rewrite VL by auto.
  destruct (decide (a = i /\ b = j)) as [[-> ->]|Hne]; [|by apply Hpw].
  apply relaxed_P_origin in Hp as [[Hp ->]|(Hp & x & y & Ex & Ey & ->)];
    [by apply Hpw|].
  destruct (Hpw k j p Hk Hj Hp) as (Hpv & ws & z & w & Hws & Hl2 & Hw2 & HA & HL).
  destruct (Hw i k x Hi Hk Ex) as (vs & Hvs & Hl1 & Hw1).
  split; [done|]. rewrite HL in Ey. simplify_eq.
  exists (vs ++ ws), (x + z), w. split_and!.
  - by apply Forall_app.
  - destruct ws as [|c ws]; [simpl in Hl2; simplify_eq; by rewrite app_nil_r|].
    rewrite app_comm_cons, last_app.
    rewrite last_cons_cons in Hl2. rewrite Hl2. done.
  - rewrite (walk_weight_app g0 i vs ws k Hl1), Hw1, Hw2. done.
  - done.
  - f_equal. lia.
Qed.

Lemma for_each_inv_elem {A} (Inv : Graph -> Prop) (body : A -> M unit) xs :
  (forall x g g', x ∈ xs -> Inv g -> body x g = (Ok tt, g') -> Inv g') ->
  forall g g', Inv g -> for_each xs body g = (Ok tt, g') -> Inv g'.
Proof.
  induction xs as [|x xs IH]; intros Hbody g g' Hg; simpl.
  - by intros [= <-].
  - unfold bind. destruct (body x g) as [[[]|e] g1] eqn:E; [|done].
    apply IH.
    + intros y h h' Hy. apply Hbody. by right.
    + eapply Hbody; [left|exact Hg|exact E].
Qed.

Lemma floyd_warshall_pred_walk g0 g :
  constructed g0 ->
  (forall i j p, vertex g0 i -> vertex g0 j -> p ∈ Pf g0 i j -> 0 <= p) ->
  floyd_warshall g0 = (Ok tt, g) ->
  follows g0 g /\ walk_inv g0 g /\ pred_walk g0 g.
Proof.
  intros Hc Hpos R. rewrite floyd_warshall_triples in R.
  destruct (constructed_inv g0 Hc) as (Hg & HLA & _).
  revert R.
  apply (for_each_inv_elem
           (fun h => follows g0 h /\ walk_inv g0 h /\ pred_walk g0 h)).
  - intros [[k i] j] h h' (Hk & Hi & Hj)%elem_of_triples (Hf & Hw & Hpw) R.
    change (relax_triple (k, i, j) h) with (relax k i j h) in R.
    destruct (relax_follows g0 h k i j Hf Hk Hi Hj) as (h2 & R2 & Hf2).
    rewrite R in R2. simplify_eq. split_and!; [done| |].
    + by apply (relax_walk_inv g0 h k i j).
    + by apply (relax_pred_walk g0 h k i j).
  - split_and!; [by apply follows_refl|by apply walk_inv_init|
                 by apply pred_walk_init].
Qed.

(** A test for the lists of [P]: none holds a negative index. *)
Lemma preds_check g :
  forallb (forallb (forallb (fun p => 0 <=? p))) (P g) = true ->
  forall i j p, vertex g i -> vertex g j -> p ∈ Pf g i j -> 0 <= p.
Proof.
  intros H i j p _ _. unfold Pf.
  destruct (mat_get (P g) i j) as [preds|] eqn:E;
    [|by intros ?%elem_of_nil].
  apply mat_get_Ok in E as (a & b & row & _ & Hrow & _ & Hcell).
  intros Hp.
  rewrite forallb_forall in H.
  apply list_elem_of_lookup_2, list_elem_of_In, H in Hrow.
  rewrite forallb_forall in Hrow.
  apply list_elem_of_lookup_2, list_elem_of_In, Hrow in Hcell.
  rewrite forallb_forall in Hcell.
  apply list_elem_of_In, Hcell in Hp. lia.
Qed.

(** X9: for a graph file without negative vertex indices, when
    [has_negative_cycle()] is false after the closure, every list that
    [get_all_shortest_paths(start, end)] returns is a walk of the graph
    that was read, from [start] to [end], and for [start != end] its
    weight is exactly [L[start][end]]. *)
Theorem shortest_paths_cost g0 g depth start end_ paths path :
  constructed g0 ->
  (forall i j p, vertex g0 i -> vertex g0 j -> p ∈ Pf g0 i j -> 0 <= p) ->
  floyd_warshall g0 = (Ok tt, g) ->
  has_negative_cycle g = Ok false ->
  vertex g0 start -> vertex g0 end_ ->
  get_all_shortest_paths depth g start end_ = Ok paths -> path ∈ paths ->
  exists vs, path = start :: vs /\ Forall (vertex g0) vs /\
    last (start :: vs) = Some end_ /\
    finite (walk_weight g0 start vs) /\
    walk_weight g0 start vs =
      if start =? end_ then Fin 0 else Lf g start end_.
Proof.
  intros Hc Hpos R Hneg Hs.
  destruct (constructed_inv g0 Hc) as (Hg & HLA & _).
  destruct (floyd_warshall_inv g0 Hg) as (g1 & R1 & Hf & Hinv).
  rewrite R in R1. simplify_eq.
  pose proof Hf as (Hg1 & N1 & _).
  pose proof (has_negative_cycle_false g1 Hg1 Hneg) as Hnn.
  destruct (Hinv Hnn) as [Ht _].
  destruct (floyd_warshall_pred_walk g0 g1 Hc Hpos R) as (_ & Hw & Hpw).
  assert (forall u t vs, vertex g0 u -> Forall (vertex g0) vs ->
            last vs = Some t -> wle (Lf g1 u t) (walk_weight g0 u vs)) as Hmin
    by (intros; by apply walk_bound).
  clear R Hneg Hinv Hpos Ht Hc.
  revert end_ paths path.
  induction depth as [|depth IH]; intros end_ paths path He R Hin; [done|].
  rewrite get_all_shortest_paths_unfold in R.
  destruct (mat_get (L g1) start end_) as [d|] eqn:EL; [|done].
  cbn [rbind] in R.
  destruct (is_inf d) eqn:Ed.
  { simplify_eq. by apply elem_of_nil in Hin. }
  destruct (Z.eqb_spec start end_) as [->|Hne].
  { simplify_eq. apply list_elem_of_singleton in Hin as ->.
    exists []. split_and!; try done. }
  destruct (mat_get (P g1) start end_) as [preds|] eqn:EP; [|done].
  cbn [rbind] in R.
  destruct (extended_paths_elem _ _ _ _ _ R Hin)
    as (p & sub & q & Hp & Hpe & Hsub & Hq & ->).
  assert (p ∈ Pf g1 start end_) as Hp' by (unfold Pf; by rewrite EP).
  destruct (Hpw start end_ p Hs He Hp')
    as (Hpv & ws & z & w & Hws & Hlw & Hww & HA & HL).
  destruct (IH p sub q Hpv Hsub Hq) as (vs & -> & Hvs & Hl & _ & Hwt).
  assert (walk_weight g0 start (vs ++ [end_]) = Fin (z + w)) as Hfinal.
  { assert (wle (Lf g1 start end_) (walk_weight g0 start (vs ++ [end_]))) as Hb.
    { apply Hmin; [done| |apply last_snoc].
      apply Forall_app. split; [done|]. by apply Forall_singleton. }
    rewrite HL in Hb.
    rewrite (walk_weight_app g0 start vs [end_] p Hl) in Hb |- *.
    assert (walk_weight g0 p [end_] = Fin w) as Harc.
    { simpl. unfold arc_weight. rewrite HA.
      destruct (Z.eqb_spec p end_); [done|]. simpl. f_equal. lia. }
    rewrite Harc in Hb |- *.
    assert (wle (walk_weight g0 start vs) (Fin z)) as Ha.
    { rewrite Hwt. destruct (Z.eqb_spec start p) as [<-|Hsp].
      - destruct ws as [|c ws]; [simpl in Hww; by simplify_eq|].
        rewrite last_cons_cons in Hlw.
        pose proof (Hmin start start (c :: ws) Hs Hws Hlw) as Hcyc.
        rewrite Hww in Hcyc.
        assert (vertex g1 start) as Hs1 by (unfold vertex in *; lia).
        pose proof (Hnn start Hs1) as Hn0. revert Hcyc Hn0. unfold nonneg.
        generalize (Lf g1 start start). intros x. clear. wcases.
      - destruct ws as [|c ws]; [simpl in Hlw; by simplify_eq|].
        rewrite last_cons_cons in Hlw.
        pose proof (Hmin start p (c :: ws) Hs Hws Hlw) as Hsp'.
        by rewrite Hww in Hsp'. }
    revert Ha Hb. generalize (walk_weight g0 start vs). intros x. clear.
    wcases. intros _ _. f_equal. lia. }
  exists (vs ++ [end_]). split_and!.
  - done.
  - apply Forall_app. split; [done|]. by apply Forall_singleton.
  - rewrite app_comm_cons. apply last_snoc.
  - by rewrite Hfinal.
  - by rewrite Hfinal, HL.
Qed.

Lemma shortest_paths_cost_witness :
  exists vs, [0; 1; 2] = 0 :: vs /\ Forall (vertex (loaded tie_file)) vs /\
    last (0 :: vs) = Some 2 /\
    finite (walk_weight (loaded tie_file) 0 vs) /\
    walk_weight (loaded tie_file) 0 vs =
      if 0 =? 2 then Fin 0 else Lf (closed tie_file) 0 2.
Proof.
  apply (shortest_paths_cost (loaded tie_file) (closed tie_file) 5 0 2
           [[0; 2]; [0; 1; 2]] [0; 1; 2]).
  - exists tie_file, init_graph. vm_compute. reflexivity.
  - apply preds_check. vm_compute. reflexivity.
  - vm_compute. reflexivity.
  - vm_compute. reflexivity.
  - apply vertex_check. vm_compute. reflexivity.
  - apply vertex_check. vm_compute. reflexivity.
  - vm_compute. reflexivity.
  - right. left.
Defined.

(** ** Loading over an object that holds a graph *)



(** ** The methods on an object without vertices *)

(** X16: with [num_vertices <= 0], as on a new object, [floyd_warshall]
    changes nothing, [has_negative_cycle] is false and
    [get_negative_cycle_path] is empty; none of them raises. *)
Theorem methods_without_vertices g :
  num_vertices g <= 0 ->
  floyd_warshall g = (Ok tt, g) /\
  has_negative_cycle g = Ok false /\
  get_negative_cycle_path g = Ok [].
Proof.
  intros Hn. unfold floyd_warshall, has_negative_cycle, get_negative_cycle_path.
  unfold bind, lift. rewrite (range_neg _ Hn). done.
Qed.

Lemma methods_without_vertices_witness :
  floyd_warshall init_graph = (Ok tt, init_graph) /\
  has_negative_cycle init_graph = Ok false /\
  get_negative_cycle_path init_graph = Ok [].
Proof.
  apply (methods_without_vertices init_graph). simpl. lia.
Defined.

(** ** Subscripts that the methods can and cannot raise on *)

Definition in_range (g : Graph) (v : Z) : Prop :=
  - num_vertices g <= v < num_vertices g.

Lemma in_range_check g v :
  (- num_vertices g <=? v) && (v <? num_vertices g) = true -> in_range g v.
Proof. unfold in_range. intros [?%Z.leb_le ?%Z.ltb_lt]%andb_true_iff. lia. Qed.

(** Every recorded predecessor is a valid subscript. *)
Definition preds_in_range (g : Graph) : Prop :=
  forall i j p, vertex g i -> vertex g j -> p ∈ Pf g i j -> in_range g p.

Lemma reached_preds_in_range g : reached g -> preds_in_range g.
Proof.
  induction 1 as [g Hc|g k i j g' Hr IH Hk Hi Hj R]; intros a b p Ha Hb Hp.
  - pose proof (constructed_preds g a b p Hc Ha Hb Hp) as Hw.
    unfold in_range, vertex, wrap in *. destruct (Z.ltb_spec p 0); lia.
  - destruct (reached_inv g Hr) as [Hg _].
    destruct (relax_spec g k i j Hg Hk Hi Hj) as (g1 & R1 & _ & N & _ & _ & VP).
    rewrite R in R1. simplify_eq.
    assert (vertex g a /\ vertex g b) as [Ha' Hb']
      by (unfold vertex in *; lia).
    rewrite VP in Hp by done. unfold in_range. rewrite N.
    destruct (decide (a = i /\ b = j)) as [[-> ->]|Hne]; [|by apply (IH a b)].
    apply relaxed_P_origin in Hp as [[Hp _]|[Hp _]].
    + by apply (IH i j).
    + by apply (IH k j).
Qed.

Lemma closure_reached g0 g :
  constructed g0 -> floyd_warshall g0 = (Ok tt, g) -> reached g.
Proof.
  intros Hc R. rewrite floyd_warshall_triples in R.
  eapply relaxations_reached; [by apply reached_load| |exact R].
  apply Forall_forall. intros [[k i] j] Ht. by apply elem_of_triples.
Qed.

Lemma mat_get_Raise {A} (m : list (list A)) n i j :
  square n m -> ~ (- n <= i < n /\ - n <= j < n) ->
  mat_get m i j = Raise IndexError.
Proof.
  intros [Hlen Hrows] Hbad. unfold mat_get, rbind, py_get.
  destruct (norm_index (length m) i) as [p|] eqn:Hp; [|done].
  pose proof (norm_index_lt _ _ _ Hp) as Hlt.
  destruct (lookup_lt_is_Some_2 m p Hlt) as [row Hrow]. rewrite Hrow.
  pose proof (Hrows _ _ Hrow) as Hr.
  assert (- n <= i < n) as Hi.
  { destruct (decide (- n <= i < n)) as [|Hn]; [done|].
    assert (norm_index (length m) i = None); [|congruence].
    apply norm_index_None. lia. }
  assert (norm_index (length row) j = None) as ->; [|done].
  apply norm_index_None. lia.
Qed.

Lemma mat_get_in_range {A} (m : list (list A)) n i j :
  square n m -> - n <= i < n -> - n <= j < n ->
  exists x, mat_get m i j = Ok x /\
            mat_get m (wrap n i) (wrap n j) = Ok x /\
            0 <= wrap n i < n /\ 0 <= wrap n j < n.
Proof.
  intros Hsq Hi Hj. rewrite (mat_get_wrap n m i j Hsq Hi Hj).
  assert (0 <= wrap n i < n /\ 0 <= wrap n j < n) as [Hwi Hwj].
  { unfold wrap. destruct (Z.ltb_spec i 0), (Z.ltb_spec j 0); lia. }
  destruct (mat_get_cell n m _ _ Hsq Hwi Hwj) as (x & Hx & _).
  exists x. done.
Qed.

Lemma walk_back_total g s :
  shaped g -> preds_in_range g -> vertex g s ->
  forall left curr path, in_range g curr -> Forall (in_range g) path ->
    exists walk, walk_back g s left curr path = Ok walk /\
                 Forall (in_range g) walk.
Proof.
  intros Hg Hpr Hs. pose proof Hg as (_ & HP & _).
  induction left as [|left IH]; intros curr path Hc Hpath; simpl.
  - exists path. by destruct (curr =? s).
  - destruct (curr =? s); [by exists path|].
    assert (in_range g s) as Hs' by (unfold in_range, vertex in *; lia).
    destruct (mat_get_in_range (P g) _ s curr HP Hs' Hc)
      as (preds & -> & Hw & Hws & Hwc).
    cbn [rbind]. destruct preds as [|p rest]; [by exists path|].
    apply IH.
    + apply (Hpr (wrap (num_vertices g) s) (wrap (num_vertices g) curr)); try done.
      unfold Pf. rewrite Hw. left.
    + apply Forall_app. split; [done|]. apply Forall_singleton.
      apply (Hpr (wrap (num_vertices g) s) (wrap (num_vertices g) curr)); try done.
      unfold Pf. rewrite Hw. left.
Qed.

Lemma close_path_Forall (Q : Z -> Prop) path :
  Forall Q path -> Forall Q (close_path path).
Proof.
  intros H%Forall_rev. unfold close_path.
  destruct (rev path) as [|first rest]; [done|].
  destruct (last (first :: rest)); [|done].
  destruct (first =? z); [done|].
  apply Forall_app. split; [done|]. apply Forall_singleton.
  by apply Forall_cons in H as [? _].
Qed.

Lemma get_negative_cycle_path_total g :
  shaped g -> preds_in_range g ->
  exists path, get_negative_cycle_path g = Ok path /\
               Forall (in_range g) path.
Proof.
  intros Hg Hpr.
  unfold get_negative_cycle_path.
  pose proof (find_start_spec g (range (num_vertices g))) as Hs.
  destruct (has_negative_cycle_spec g Hg) as (b & Hb & _).
  unfold has_negative_cycle in Hb.
  destruct (find_start g (range (num_vertices g))) as [s|e]; [|congruence].
  cbn [rbind].
  destruct Hs as [[-> _]|(pre & post & Hsplit & _)]; [by exists []|].
  apply range_split in Hsplit as [Hv _].
  destruct (Z.eqb_spec s (-1)) as [?|_]; [lia|].
  assert (in_range g s) as Hs' by (unfold in_range; lia).
  rewrite (getA_Af g s s Hg Hv Hv). cbn [rbind].
  destruct (wlt (Af g s s) (Fin 0)).
  { exists [s; s]. split; [done|].
    apply Forall_cons. split; [done|]. by apply Forall_singleton. }
  rewrite (getP_Pf g s s Hg Hv Hv). cbn [rbind].
  destruct (Pf g s s) as [|c rest] eqn:EP; [by exists []|].
  assert (in_range g c) as Hcr.
  { apply (Hpr s s c Hv Hv). rewrite EP. left. }
  destruct (walk_back_total g s Hg Hpr Hv (Z.to_nat (num_vertices g * 2)) c [c])
    as (walk & -> & Hwalk); [done|by apply Forall_singleton|].
  cbn [rbind]. exists (close_path walk). split; [done|].
  by apply close_path_Forall.
Qed.

(** X17: after [floyd_warshall] on a successfully loaded graph
    [get_negative_cycle_path] raises nothing: it returns a list, and
    every entry of the list is a valid subscript of the matrices. *)
Theorem cycle_path_returns g0 g :
  constructed g0 -> floyd_warshall g0 = (Ok tt, g) ->
  exists path, get_negative_cycle_path g = Ok path /\
               Forall (in_range g) path.
Proof.
  intros Hc R. pose proof (closure_reached g0 g Hc R) as Hr.
  destruct (reached_inv g Hr) as [Hg _].
  by apply get_negative_cycle_path_total, reached_preds_in_range.
Qed.

Lemma cycle_path_returns_witness :
  exists path, get_negative_cycle_path (closed two_cycles_file) = Ok path /\
               Forall (in_range (closed two_cycles_file)) path.
Proof.
  apply (cycle_path_returns (loaded two_cycles_file) (closed two_cycles_file)).
  - exists two_cycles_file, init_graph. vm_compute. reflexivity.
  - vm_compute. reflexivity.
Defined.

Lemma extended_paths_raises enum end_ preds e :
  extended_paths enum end_ preds = Raise e ->
  exists p, p ∈ preds /\ enum p = Raise e.
Proof.
  induction preds as [|p rest IH]; simpl; [done|].
  destruct (p =? end_).
  { intros (q & ? & ?)%IH. exists q. split; [by right|done]. }
  destruct (enum p) as [sub|e'] eqn:E; cbn [rbind].
  - destruct (extended_paths enum end_ rest) as [others|e'']; cbn [rbind]; [done|].
    intros [= ->]. destruct (IH eq_refl) as (q & ? & ?).
    exists q. split; [by right|done].
  - intros [= ->]. exists p. split; [left|done].
Qed.

(** X18: after [floyd_warshall] on a successfully loaded graph, with
    both arguments valid subscripts, the only exception
    [get_all_shortest_paths] can raise is [RecursionError]. *)
Theorem shortest_paths_raise_only_recursion_error g0 g depth start end_ e :
  constructed g0 -> floyd_warshall g0 = (Ok tt, g) ->
  in_range g start -> in_range g end_ ->
  get_all_shortest_paths depth g start end_ = Raise e ->
  e = RecursionError.
Proof.
  intros Hc R Hs. pose proof (closure_reached g0 g Hc R) as Hr.
  destruct (reached_inv g Hr) as [Hg _].
  pose proof (reached_preds_in_range g Hr) as Hpr.
  pose proof Hg as (HL & HP & _).
  revert end_. induction depth as [|depth IH]; intros end_ He E.
  { simpl in E. congruence. }
  rewrite get_all_shortest_paths_unfold in E.
  destruct (mat_get_in_range (L g) _ start end_ HL Hs He) as (d & Hd & _).
  rewrite Hd in E. cbn [rbind] in E.
  destruct (is_inf d); [done|]. destruct (start =? end_); [done|].
  destruct (mat_get_in_range (P g) _ start end_ HP Hs He)
    as (preds & Hp & Hw & Hws & Hwe).
  rewrite Hp in E. cbn [rbind] in E.
  apply extended_paths_raises in E as (p & Hin & E).
  apply (IH p); [|done].
  apply (Hpr (wrap (num_vertices g) start) (wrap (num_vertices g) end_));
    try done.
  unfold Pf. by rewrite Hw.
Qed.

Lemma shortest_paths_raise_only_recursion_error_witness :
  RecursionError = RecursionError.
Proof.
  apply (shortest_paths_raise_only_recursion_error
           (loaded zero_cycle_file) (closed zero_cycle_file) 6 0 1
           RecursionError).
  - exists zero_cycle_file, init_graph. vm_compute. reflexivity.
  - vm_compute. reflexivity.
  - apply in_range_check. vm_compute. reflexivity.
  - apply in_range_check. vm_compute. reflexivity.
  - vm_compute. reflexivity.
Defined.

(** X19: on an object whose matrices are n by n, a call of
    [get_all_shortest_paths] with an argument outside [[-n, n)] raises
    [IndexError]. *)
Theorem shortest_paths_index_error g depth start end_ :
  shaped g -> ~ (in_range g start /\ in_range g end_) ->
  get_all_shortest_paths (S depth) g start end_ = Raise IndexError.
Proof.
  intros (HL & _) Hbad. rewrite get_all_shortest_paths_unfold.
  by rewrite (mat_get_Raise (L g) _ start end_ HL Hbad).
Qed.

Lemma shortest_paths_index_error_witness :
  get_all_shortest_paths 1 (loaded tie_file) 0 3 = Raise IndexError.
Proof.
  apply (shortest_paths_index_error (loaded tie_file) 0 0 3).
  - apply constructed_shaped.
    exists tie_file, init_graph. vm_compute. reflexivity.
  - unfold in_range. intros [_ [_ H]]. revert H. vm_compute. intros H. discriminate H.
Defined.

(** ** All the shortest paths *)

(** Where [L[i][j]] still is what was read, [P[i][j]] still holds what
    was recorded when reading. *)
Definition kept (g0 g : Graph) : Prop :=
  forall i j, vertex g0 i -> vertex g0 j -> Lf g i j = Lf g0 i j ->
    forall p, p ∈ Pf g0 i j -> p ∈ Pf g i j.

Lemma relaxed_P_keeps l p k i j v :
  wlt (wadd (l i k) (l k j)) (l i j) = false ->
  v ∈ p i j -> v ∈ relaxed_P l p k i j.
Proof.
  unfold relaxed_P. cbv zeta. intros -> Hv.
  destruct (is_inf _); [done|]. destruct (weqb _ _); [|done].
  apply elem_of_add_unique. by left.
Qed.

Lemma relax_kept g0 g k i j g' :
  follows g0 g -> kept g0 g ->
  vertex g0 k -> vertex g0 i -> vertex g0 j ->
  relax k i j g = (Ok tt, g') -> kept g0 g'.
Proof.
  intros (Hg & N & _ & Hle) Hkept Hk Hi Hj R a b Ha Hb HL p Hp.
  assert (forall c, vertex g0 c -> vertex g c) as Hv
    by (unfold vertex; intros; lia).
  destruct (relax_spec g k i j Hg (Hv _ Hk) (Hv _ Hi) (Hv _ Hj))
    as (g1 & R1 & _ & _ & _ & VL & VP).
  rewrite R in R1. simplify_eq.
  rewrite VP by auto. rewrite VL in HL by auto.
  destruct (decide (a = i /\ b = j)) as [[-> ->]|Hne]; [|by apply Hkept].
  pose proof (Hle i j Hi Hj) as Hij.
  assert (wlt (wadd (Lf g i k) (Lf g k j)) (Lf g i j) = false /\
          Lf g i j = Lf g0 i j) as [Hnot Heq].
  { revert HL Hij. unfold relaxed_L.
    generalize (Lf g i j), (Lf g0 i j), (wadd (Lf g i k) (Lf g k j)).
    intros x y z. clear. wcases; intros E _; simplify_eq; (done || lia). }
  apply relaxed_P_keeps; [done|]. by apply Hkept.
Qed.

Lemma floyd_warshall_kept g0 g :
  shaped g0 -> floyd_warshall g0 = (Ok tt, g) -> kept g0 g.
Proof.
  intros Hg R. rewrite floyd_warshall_triples in R.
  assert (follows g0 g /\ kept g0 g) as [_ H]; [|done].
  revert R.
  apply (for_each_inv_elem (fun h => follows g0 h /\ kept g0 h)).
  - intros [[k i] j] h h' (Hk & Hi & Hj)%elem_of_triples (Hf & Hkept) R.
    change (relax_triple (k, i, j) h) with (relax k i j h) in R.
    destruct (relax_follows g0 h k i j Hf Hk Hi Hj) as (h2 & R2 & Hf2).
    rewrite R in R2. simplify_eq. split; [done|].
    by apply (relax_kept g0 h k i j).
  - split; [by apply follows_refl|]. by intros i j _ _ _ p Hp.
Qed.

(** An arc that was read has its tail recorded as predecessor. *)
Lemma constructed_arc_pred g x e :
  constructed g ->
  (forall i j p, vertex g i -> vertex g j -> p ∈ Pf g i j -> 0 <= p) ->
  vertex g x -> vertex g e -> x <> e -> finite (Lf g x e) ->
  x ∈ Pf g x e.
Proof.
  intros Hc Hpos Hx He Hne Hf.
  destruct (constructed_inv g Hc) as (_ & _ & _ & _ & Hsome).
  pose proof (Hsome x e Hx He Hf Hne) as Hnil.
  destruct (Pf g x e) as [|u rest] eqn:EP; [done|].
  assert (u ∈ Pf g x e) as Hu by (rewrite EP; left).
  pose proof (constructed_preds g x e u Hc Hx He Hu) as Hw.
  pose proof (Hpos x e u Hx He Hu) as H0.
  assert (u = x) as ->.
  { unfold wrap in Hw. destruct (Z.ltb_spec u 0); lia. }
  left.
Qed.

Lemma extended_paths_complete enum end_ preds : forall res p,
  extended_paths enum end_ preds = Ok res -> p ∈ preds -> p <> end_ ->
  exists sub, enum p = Ok sub /\ forall q, q ∈ sub -> q ++ [end_] ∈ res.
Proof.
  induction preds as [|a rest IH]; intros res p R Hin Hne.
  { by apply elem_of_nil in Hin. }
  simpl in R. destruct (Z.eqb_spec a end_) as [->|Hae].
  { apply elem_of_cons in Hin as [->|Hin]; [done|]. by apply IH. }
  destruct (enum a) as [sub|] eqn:E; [|done]. cbn [rbind] in R.
  destruct (extended_paths enum end_ rest) as [others|] eqn:Eo; [|done].
  cbn [rbind] in R. simplify_eq.
  apply elem_of_cons in Hin as [->|Hin].
  - exists sub. split; [done|]. intros q Hq. apply elem_of_app. left.
    apply list_elem_of_In, in_map_iff. exists q.
    split; [done|]. by apply list_elem_of_In.
  - destruct (IH others p eq_refl Hin Hne) as (sub' & E' & Hall).
    exists sub'. split; [done|]. intros q Hq. apply elem_of_app. right. auto.
Qed.

(** X20: for a graph file without negative vertex indices, when
    [has_negative_cycle()] is false after the closure and
    [get_all_shortest_paths(start, end)] returns, the list it returns
    holds every walk from [start] to [end] that follows arcs of the
    graph that was read other than loops of weight zero at a vertex
    (which [walk_weight] does not count as arcs), has weight
    [L[start][end]], and does not come back to [start]. *)
Theorem shortest_paths_complete g0 g depth start end_ paths vs :
  constructed g0 ->
  (forall i j p, vertex g0 i -> vertex g0 j -> p ∈ Pf g0 i j -> 0 <= p) ->
  floyd_warshall g0 = (Ok tt, g) ->
  has_negative_cycle g = Ok false ->
  vertex g0 start -> Forall (vertex g0) vs -> start ∉ vs ->
  last vs = Some end_ ->
  finite (Lf g start end_) ->
  walk_weight g0 start vs = Lf g start end_ ->
  get_all_shortest_paths depth g start end_ = Ok paths ->
  start :: vs ∈ paths.
Proof.
  intros Hc Hpos R Hneg Hs.
  destruct (constructed_inv g0 Hc) as (Hg & HLA & Hdiag & _).
  destruct (floyd_warshall_inv g0 Hg) as (g1 & R1 & Hf & Hinv).
  rewrite R in R1. simplify_eq.
  pose proof Hf as (Hg1 & N1 & _ & Hle).
  pose proof (has_negative_cycle_false g1 Hg1 Hneg) as Hnn.
  destruct (Hinv Hnn) as [Ht Hpinc].
  pose proof (floyd_warshall_kept g0 g1 Hg R) as Hkept.
  assert (forall u t vs, vertex g0 u -> Forall (vertex g0) vs ->
            last vs = Some t -> wle (Lf g1 u t) (walk_weight g0 u vs)) as Hmin
    by (intros; by apply walk_bound).
  assert (forall c, vertex g0 c -> vertex g1 c) as Hv
    by (unfold vertex; intros; lia).
  assert (forall x e w, vertex g0 x -> vertex g0 e -> x <> e ->
            Lf g1 x e = Fin w -> arc_weight g0 x e = Fin w ->
            x ∈ Pf g1 x e) as Harc.
  { intros x e w Hx He Hne HL HA.
    assert (Lf g0 x e = Fin w) as HL0.
    { revert HA. unfold arc_weight, Af, Lf. rewrite HLA.
      destruct (Z.eqb_spec x e); [done|]. done. }
    apply (Hkept x e Hx He); [congruence|].
    apply constructed_arc_pred; try done. unfold finite. by rewrite HL0. }
  clear R Hneg Hinv Hc Hpos.
  revert end_ depth paths.
  induction vs as [|e vs' IH] using rev_ind;
    intros end_ depth paths Hvs Hnin Hl Hfin Hw E; [done|].
  rewrite last_snoc in Hl. simplify_eq.
  apply Forall_app in Hvs as [Hvs' He]. apply Forall_inv in He.
  assert (start <> end_) as Hse.
  { intros ->. apply Hnin, elem_of_app. right. left. }
  assert (start ∉ vs') as Hnin'.
  { intros H. apply Hnin, elem_of_app. by left. }
  destruct depth as [|depth]; [done|].
  rewrite get_all_shortest_paths_unfold in E.
  rewrite (getL_Lf g1 start end_ Hg1 (Hv _ Hs) (Hv _ He)) in E.
  cbn [rbind] in E. rewrite Hfin in E.
  destruct (Z.eqb_spec start end_) as [?|_]; [done|].
  rewrite (getP_Pf g1 start end_ Hg1 (Hv _ Hs) (Hv _ He)) in E.
  cbn [rbind] in E.
  destruct (last (start :: vs')) as [x|] eqn:Hx;
    [|by apply last_None in Hx].
  rewrite (walk_weight_app g0 start vs' [end_] x Hx) in Hw.
  cbn [walk_weight] in Hw.
  destruct (Lf g1 start end_) as [d|] eqn:Hd; [|done].
  destruct (walk_weight g0 start vs') as [a|] eqn:Ha; [|done].
  destruct (arc_weight g0 x end_) as [w|] eqn:Hxe; [|done].
  cbn [wadd] in Hw. simplify_eq.
  destruct vs' as [|v vs'].
  - (* the walk is the arc from [start] *)
    simpl in Hx, Ha. simplify_eq.
    assert (x ∈ Pf g1 x end_) as Hp.
    { apply (Harc x end_ w); try done. rewrite Hd. f_equal. lia. }
    destruct (extended_paths_complete _ _ _ _ x E Hp Hse) as (sub & Hsub & Hall).
    apply (Hall [x]).
    destruct depth as [|depth]; [done|].
    rewrite get_all_shortest_paths_unfold in Hsub.
    rewrite (getL_Lf g1 x x Hg1 (Hv _ Hs) (Hv _ Hs)) in Hsub.
    cbn [rbind] in Hsub.
    assert (finite (Lf g1 x x)) as Hfx.
    { pose proof (Hle x x Hs Hs) as H1. pose proof (Hdiag x Hs) as H2.
      revert H1 H2. generalize (Lf g1 x x), (Lf g0 x x). clear. intros a b.
      wcases. }
    rewrite Hfx, Z.eqb_refl in Hsub. simplify_eq. left.
  - rewrite last_cons_cons in Hx.
    assert (x ∈ v :: vs') as Hxin by (by apply last_Some_elem_of).
    assert (vertex g0 x) as Hxv.
    { rewrite Forall_forall in Hvs'. by apply Hvs'. }
    assert (x <> start) as Hxs by (intros ->; done).
    pose proof (Hmin start x (v :: vs') Hs Hvs' Hx) as H1. rewrite Ha in H1.
    pose proof (Hmin x end_ [end_] Hxv ltac:(by apply Forall_singleton) eq_refl)
      as H2.
    cbn [walk_weight] in H2. rewrite Hxe in H2. cbn [wadd] in H2.
    assert (wle (Lf g1 start end_) (wadd (Lf g1 start x) (Lf g1 x end_))) as H3
      by (apply (Ht start end_ x); unfold vertex in *; lia).
    rewrite Hd in H3.
    destruct (Lf g1 start x) as [a'|] eqn:Ea; [|done].
    destruct (Lf g1 x end_) as [w'|] eqn:Ew; [|done].
    assert (a' = a /\ w' = w) as [-> ->].
    { revert H1 H2 H3. unfold wle. simpl.
      intros ?%Z.ltb_ge ?%Z.ltb_ge ?%Z.ltb_ge. lia. }
    assert (x <> end_) as Hxne.
    { intros ->. pose proof (Hnn end_ (Hv _ He)) as H0.
      rewrite Ew in H0. revert Hxe H0. unfold arc_weight, nonneg, Af.
      rewrite Z.eqb_refl. simpl.
      pose proof (Hmin start end_ (v :: vs') Hs Hvs' Hx) as H4.
      rewrite Ha, Hd in H4. revert H4. unfold wle. simpl.
      intros ?%Z.ltb_ge ? ?%Z.ltb_ge.
      destruct (mat_get (initial_adj g0) end_ end_) as [[z|]|]; try done.
      simpl in *. destruct (Z.eqb_spec z 0); simpl in *; simplify_eq. lia. }
    assert (x ∈ Pf g1 start end_) as Hp.
    { apply (Hpinc start end_ x); unfold vertex in *; try lia.
      - unfold finite. by rewrite Ea.
      - unfold finite. by rewrite Ew.
      - rewrite Ea, Ew, Hd. simpl. f_equal. lia.
      - apply (Harc x end_ w); done. }
    destruct (extended_paths_complete _ _ _ _ x E Hp Hxne) as (sub & Hsub & Hall).
    apply (Hall (start :: v :: vs')).
    apply (IH x depth sub); try done.
    unfold finite. by rewrite Ea.
Qed.

Lemma shortest_paths_complete_witness :
  0 :: [1; 2] ∈ [[0; 2]; [0; 1; 2]].
Proof.
  apply (shortest_paths_complete (loaded tie_file) (closed tie_file) 5 0 2
           [[0; 2]; [0; 1; 2]] [1; 2]).
  - exists tie_file, init_graph. vm_compute. reflexivity.
  - apply preds_check. vm_compute. reflexivity.
  - vm_compute. reflexivity.
  - vm_compute. reflexivity.
  - apply vertex_check. vm_compute. reflexivity.
  - apply vertices_check. vm_compute. reflexivity.
  - intros H. apply list_elem_of_In in H. simpl in H.
    destruct H as [H|[H|[]]]; discriminate H.
  - reflexivity.
  - vm_compute. reflexivity.
  - vm_compute. reflexivity.
  - vm_compute. reflexivity.
Defined.

(** ** No path twice *)

Lemma shortest_paths_last depth g start : forall end_ paths path,
  get_all_shortest_paths depth g start end_ = Ok paths -> path ∈ paths ->
  last path = Some end_.
Proof.
  induction depth as [|depth IH]; intros end_ paths path R Hin; [done|].
  rewrite get_all_shortest_paths_unfold in R.
  destruct (mat_get (L g) start end_) as [d|]; [|done]. cbn [rbind] in R.
  destruct (is_inf d).
  { simplify_eq. by apply elem_of_nil in Hin. }
  destruct (Z.eqb_spec start end_) as [->|Hne].
  { simplify_eq. by apply list_elem_of_singleton in Hin as ->. }
  destruct (mat_get (P g) start end_) as [preds|]; [|done]. cbn [rbind] in R.
  destruct (extended_paths_elem _ _ _ _ _ R Hin) as (p & sub & q & _ & _ & _ & _ & ->).
  apply last_snoc.
Qed.

Lemma extended_paths_NoDup enum end_ preds : forall res,
  NoDup preds ->
  (forall p sub, p ∈ preds -> enum p = Ok sub ->
     NoDup sub /\ forall q, q ∈ sub -> last q = Some p) ->
  extended_paths enum end_ preds = Ok res -> NoDup res.
Proof.
  induction preds as [|a rest IH]; intros res Hnd Hsub R; simpl in R.
  { simplify_eq. constructor. }
  apply NoDup_cons in Hnd as [Ha Hnd].
  assert (forall p sub, p ∈ rest -> enum p = Ok sub ->
            NoDup sub /\ forall q, q ∈ sub -> last q = Some p) as Hrest
    by (intros p sub Hp; apply Hsub; by right).
  destruct (a =? end_); [by apply IH|].
  destruct (enum a) as [sub|] eqn:E; [|done]. cbn [rbind] in R.
  destruct (extended_paths enum end_ rest) as [others|] eqn:Eo; [|done].
  cbn [rbind] in R. simplify_eq.
  destruct (Hsub a sub ltac:(left) E) as [Hnds Hlast].
  apply NoDup_app. split_and!.
  - clear -Hnds. induction Hnds as [|q sub Hq _ IHs]; simpl; [constructor|].
    apply NoDup_cons. split; [|done].
    intros (q' & Heq & Hq')%list_elem_of_In%in_map_iff.
    apply app_inj_tail in Heq as [-> _]. by apply list_elem_of_In in Hq'.
  - intros path (q & <- & Hq)%list_elem_of_In%in_map_iff Hin.
    destruct (extended_paths_elem _ _ _ _ _ Eo Hin)
      as (p & sub' & q' & Hp & _ & E' & Hq' & Heq).
    apply app_inj_tail in Heq as [-> _].
    destruct (Hrest p sub' Hp E') as [_ Hl'].
    pose proof (Hl' q' Hq') as H1.
    rewrite (Hlast q') in H1 by (by apply list_elem_of_In).
    simplify_eq. done.
  - by apply (IH others).
Qed.

(** X21: after [floyd_warshall] on a successfully loaded graph the list
    that [get_all_shortest_paths] returns holds no path twice. *)
Theorem shortest_paths_distinct g0 g depth start end_ paths :
  constructed g0 -> floyd_warshall g0 = (Ok tt, g) ->
  in_range g start -> in_range g end_ ->
  get_all_shortest_paths depth g start end_ = Ok paths ->
  NoDup paths.
Proof.
  intros Hc R Hs. pose proof (closure_reached g0 g Hc R) as Hr.
  destruct (reached_inv g Hr) as [Hg _].
  pose proof (reached_preds_in_range g Hr) as Hpr.
  pose proof (reached_nodup g Hr) as Hnd.
  pose proof Hg as (HL & HP & _).
  revert end_ paths. induction depth as [|depth IH]; intros end_ paths He E;
    [done|].
  rewrite get_all_shortest_paths_unfold in E.
  destruct (mat_get (L g) start end_) as [d|]; [|done]. cbn [rbind] in E.
  destruct (is_inf d); [simplify_eq; constructor|].
  destruct (start =? end_); [simplify_eq; apply NoDup_singleton|].
  destruct (mat_get_in_range (P g) _ start end_ HP Hs He)
    as (preds & Hp & Hw & Hws & Hwe).
  rewrite Hp in E. cbn [rbind] in E.
  assert (preds = Pf g (wrap (num_vertices g) start) (wrap (num_vertices g) end_))
    as Hpreds by (unfold Pf; by rewrite Hw).
  subst preds.
  apply (extended_paths_NoDup (get_all_shortest_paths depth g start) end_
           (Pf g (wrap (num_vertices g) start) (wrap (num_vertices g) end_)));
    [by apply Hnd| |exact E].
  intros p sub Hin Esub. split.
  - apply (IH p sub); [|done]. by apply (Hpr _ _ p Hws Hwe).
  - intros q Hq. by apply (shortest_paths_last depth g start p sub).
Qed.

Lemma shortest_paths_distinct_witness :
  NoDup [[0; 2]; [0; 1; 2]].
Proof.
  apply (shortest_paths_distinct (loaded tie_file) (closed tie_file) 5 0 2).
  - exists tie_file, init_graph. vm_compute. reflexivity.
  - vm_compute. reflexivity.
  - apply in_range_check. vm_compute. reflexivity.
  - apply in_range_check. vm_compute. reflexivity.
  - vm_compute. reflexivity.
Defined.

(** * The textual trace: [_format_matrix_l], [_format_matrix_p],
      [get_matrices_string] and [run_with_trace] *)

From Stdlib Require Import DecimalString.

(** A Python [str] is the list of its code points, so that [len] counts
    the infinity sign and the empty-set sign once each. *)
Definition text : Type := list Z.

(** An ASCII literal. *)
Definition lit (s : string) : text :=
  map (fun c => Z.of_N (N_of_ascii c)) (list_ascii_of_string s).

Definition space : Z := 32.
Definition newline : Z := 10.
Definition dash : Z := 45.
Definition inf_sign : text := [8734].
Definition empty_sign : text := [248].

(** [str(z)] for an [int] *)
Definition str_int (z : Z) : text :=
  lit (NilZero.string_of_int (Z.to_int z)).

(** [sep.join(parts)] *)
Fixpoint join (sep : text) (parts : list text) : text :=
  match parts with
  | [] => []
  | p :: r => match r with
              | [] => p
              | _ :: _ => p ++ sep ++ join sep r
              end
  end.

(** [str(l)] for a list of [int] *)
Definition str_list (l : list Z) : text :=
  lit "[" ++ join (lit ", ") (map str_int l) ++ lit "]".

(** [t.replace(" ", "")] *)
Definition remove_spaces (t : text) : text :=
  filter (fun c => c <> space) t.

(** [f"{t:>{w}}"], and [f"{z:w}"] for an [int]: padded with blanks on
    the left up to [w] characters, never cut. *)
Definition rjust (w : Z) (t : text) : text :=
  replicate (Z.to_nat (w - Z.of_nat (length t))) space ++ t.

(** ["-" * k] *)
Definition dashes (k : Z) : text := replicate (Z.to_nat k) dash.

(** [for x in xs: acc = f(acc, x)], where [f] can raise. *)
Fixpoint fold_result {A B} (f : B -> A -> result B) (xs : list A) (acc : B)
  : result B :=
  match xs with
  | [] => Ok acc
  | x :: r => rbind (f acc x) (fold_result f r)
  end.

(** ** [_format_matrix_l] *)

(** Lines 259-263: one cell of a row. *)
Definition cell_l (val : weight) : text :=
  match val with
  | Inf => rjust 5 inf_sign
  | Fin z => rjust 5 (str_int z)
  end.

(** Lines 257-264: the row of vertex [i]. *)
Definition row_l (g : Graph) (i : Z) : result text :=
  fold_result
    (fun row_str j =>
       rbind (mat_get (L g) i j) (fun val => Ok (row_str ++ cell_l val)))
    (range (num_vertices g))
    (rjust 3 (str_int i) ++ lit " |").

Definition format_matrix_l_lines (g : Graph) : result (list text) :=
  let header :=
    lit "      " ++ concat ((fun v => rjust 5 (str_int v)) <$> range (num_vertices g)) in
  let lines := [header; lit "     " ++ dashes (num_vertices g * 5)] in
  fold_result
    (fun lines i => rbind (row_l g i) (fun row_str => Ok (lines ++ [row_str])))
    (range (num_vertices g)) lines.

Definition format_matrix_l (g : Graph) : result text :=
  rbind (format_matrix_l_lines g) (fun lines => Ok (join [newline] lines)).

(** ** [_format_matrix_p] *)

(** Lines 274-280: the text of one cell. *)
Definition cell_p (preds : list Z) : text :=
  match preds with
  | [] => empty_sign
  | p :: r => match r with
              | [] => str_int p
              | _ :: _ => remove_spaces (str_list preds)
              end
  end.

(** Lines 271-282: the row of texts of vertex [i], and the column width
    as it stands after it. *)
Definition scan_row (g : Graph) (i : Z) (col_width : Z)
  : result (list text * Z) :=
  fold_result
    (fun st j =>
       rbind (mat_get (P g) i j) (fun preds =>
       let txt := cell_p preds in
       Ok (st.1 ++ [txt], Z.max st.2 (Z.of_nat (length txt) + 2))))
    (range (num_vertices g)) ([], col_width).

(** Lines 269-283: [formatted_rows] and [col_width]. *)
Definition scan (g : Graph) : result (list (list text) * Z) :=
  fold_result
    (fun st i =>
       rbind (scan_row g i st.2) (fun r => Ok (st.1 ++ [r.1], r.2)))
    (range (num_vertices g)) ([], 6).

(** Lines 288-291: the row of vertex [i]. *)
Definition row_p (col_width : Z) (formatted_rows : list (list text)) (i : Z)
  : result text :=
  rbind (py_get formatted_rows i) (fun row_data =>
  Ok (fold_left (fun row_str txt => row_str ++ rjust col_width txt) row_data
                (rjust 3 (str_int i) ++ lit " |"))).

Definition format_matrix_p_lines (g : Graph) : result (list text) :=
  rbind (scan g) (fun st =>
  let formatted_rows := st.1 in
  let col_width := st.2 in
  let header :=
    lit "      " ++
    concat ((fun v => rjust col_width (str_int v)) <$> range (num_vertices g)) in
  let lines := [header; lit "     " ++ dashes (num_vertices g * col_width)] in
  fold_result
    (fun lines i =>
       rbind (row_p col_width formatted_rows i) (fun row_str =>
       Ok (lines ++ [row_str])))
    (range (num_vertices g)) lines).

Definition format_matrix_p (g : Graph) : result text :=
  rbind (format_matrix_p_lines g) (fun lines => Ok (join [newline] lines)).

(** ** [get_matrices_string] *)

Definition get_matrices_string (g : Graph) : result text :=
  rbind (format_matrix_l g) (fun tl =>
  let res := lit "Matrix L (Weights):" ++ [newline] ++ tl in
  rbind (format_matrix_p g) (fun tp =>
  Ok (res ++ [newline] ++ lit "Matrix P (Predecessors):" ++ [newline] ++ tp))).

(** ** [run_with_trace] *)

(** [for x in xs: acc = body(acc, x)] in the monad of the methods. *)
Fixpoint for_acc {A B} (xs : list A) (acc : B) (body : B -> A -> M B) : M B :=
  match xs with
  | [] => ret acc
  | x :: r => acc' <- body acc x ;; for_acc r acc' body
  end.

Definition run_with_trace : M text :=
  s0 <- lift get_matrices_string ;;
  let trace := [lit "INITIAL STATE:"; s0; dashes 40] in
  n <- lift (fun g => Ok (num_vertices g)) ;;
  trace <- for_acc (range n) trace (fun trace k =>
    for_each (range n) (fun i =>
      for_each (range n) (fun j => relax k i j)) ;;;
    s <- lift get_matrices_string ;;
    ret (trace ++
         [[newline] ++ lit "State after k = " ++ str_int k ++
            lit " (Processing node " ++ str_int k ++ lit "):";
          s; dashes 40])) ;;
  neg <- lift has_negative_cycle ;;
  if (neg : bool) then
    let trace :=
      trace ++ [[newline] ++ lit "RESULT: NEGATIVE ABSORBING CIRCUIT DETECTED!"] in
    cycle <- lift get_negative_cycle_path ;;
    ret (join [newline] (trace ++ [lit "Cycle Path: " ++ str_list cycle]))
  else
    ret (join [newline] (trace ++ [[newline] ++ lit "RESULT: No negative cycles."])).

(** ** The formatters and the trace on n by n matrices *)

Lemma fold_result_inv {A B} (Inv : list A -> B -> Prop)
      (f : B -> A -> result B) xs : forall pre acc,
  Inv pre acc ->
  (forall done_ x b, Inv done_ b -> x ∈ xs ->
     exists b', f b x = Ok b' /\ Inv (done_ ++ [x]) b') ->
  exists b, fold_result f xs acc = Ok b /\ Inv (pre ++ xs) b.
Proof.
  induction xs as [|x r IH]; intros pre acc Hacc Hstep; simpl.
  - exists acc. by rewrite app_nil_r.
  - destruct (Hstep pre x acc Hacc ltac:(left)) as (b' & -> & Hb').
    cbn [rbind].
    destruct (IH (pre ++ [x]) b' Hb') as (b & E & Hb).
    { intros d y c Hc Hy. apply Hstep; [done|by right]. }
    exists b. split; [done|]. by rewrite <- app_assoc in Hb.
Qed.

Lemma row_l_total g i :
  shaped g -> vertex g i -> exists t, row_l g i = Ok t.
Proof.
  intros Hg Hi. unfold row_l.
  destruct (fold_result_inv (fun _ _ => True)
    (fun row_str j =>
       rbind (mat_get (L g) i j) (fun val => Ok (row_str ++ cell_l val)))
    (range (num_vertices g)) [] (rjust 3 (str_int i) ++ lit " |") I)
    as (t & E & _); [|by exists t].
  intros _ j b _ Hj%elem_of_range.
  rewrite (getL_Lf g i j Hg Hi Hj). cbn [rbind]. eauto.
Qed.

Lemma format_matrix_l_total g :
  shaped g -> exists t, format_matrix_l g = Ok t.
Proof.
  intros Hg. unfold format_matrix_l, format_matrix_l_lines. cbv zeta.
  match goal with
  | |- context [fold_result ?f ?xs ?acc] =>
      destruct (fold_result_inv (fun _ _ => True) f xs [] acc I)
        as (t & -> & _)
  end.
  - intros _ i b _ Hi%elem_of_range.
    destruct (row_l_total g i Hg Hi) as [t ->]. cbn [rbind]. eauto.
  - cbn [rbind]. eauto.
Qed.

(** The text of cell [(i, j)] of the table of [P]. *)
Definition cell_text (g : Graph) (i j : Z) : text := cell_p (Pf g i j).

Lemma scan_row_spec g i cw0 :
  shaped g -> vertex g i ->
  exists cw, scan_row g i cw0 =
             Ok (cell_text g i <$> range (num_vertices g), cw) /\
    cw0 <= cw /\
    forall j, vertex g j -> Z.of_nat (length (cell_text g i j)) + 2 <= cw.
Proof.
  intros Hg Hi. unfold scan_row.
  destruct (fold_result_inv
    (fun done_ (st : list text * Z) =>
       st.1 = cell_text g i <$> done_ /\ cw0 <= st.2 /\
       forall j, j ∈ done_ -> Z.of_nat (length (cell_text g i j)) + 2 <= st.2)
    (fun st j =>
       rbind (mat_get (P g) i j) (fun preds =>
       let txt := cell_p preds in
       Ok (st.1 ++ [txt], Z.max st.2 (Z.of_nat (length txt) + 2))))
    (range (num_vertices g)) [] ([], cw0))
    as ([row cw] & E & Hrow & Hcw & Hall).
  - simpl. split_and!; [done|lia|]. by intros j ?%elem_of_nil.
  - intros d j [row cw] (Hrow & Hcw & Hall) Hj%elem_of_range. simpl in *.
    rewrite (getP_Pf g i j Hg Hi Hj). cbn [rbind]. cbv zeta.
    eexists. split; [done|]. simpl. split_and!.
    + rewrite fmap_app. by rewrite Hrow.
    + lia.
    + intros j' Hin. apply elem_of_app in Hin as [Hj'|Hin].
      * specialize (Hall j' Hj'). lia.
      * apply list_elem_of_singleton in Hin as ->. unfold cell_text. lia.
  - simpl in *. exists cw. rewrite E, Hrow. split_and!; [done|done|].
    intros j Hj. apply Hall. by apply elem_of_range.
Qed.

Lemma scan_spec g :
  shaped g ->
  exists cw, scan g =
             Ok ((fun i => cell_text g i <$> range (num_vertices g))
                   <$> range (num_vertices g), cw) /\
    6 <= cw /\
    forall i j, vertex g i -> vertex g j ->
      Z.of_nat (length (cell_text g i j)) + 2 <= cw.
Proof.
  intros Hg. unfold scan.
  destruct (fold_result_inv
    (fun done_ (st : list (list text) * Z) =>
       st.1 = (fun i => cell_text g i <$> range (num_vertices g)) <$> done_ /\
       6 <= st.2 /\
       forall i j, i ∈ done_ -> vertex g j ->
         Z.of_nat (length (cell_text g i j)) + 2 <= st.2)
    (fun st i =>
       rbind (scan_row g i st.2) (fun r => Ok (st.1 ++ [r.1], r.2)))
    (range (num_vertices g)) [] ([], 6))
    as ([rows cw] & E & Hrows & Hcw & Hall).
  - simpl. split_and!; [done|lia|]. by intros i j ?%elem_of_nil.
  - intros d i [rows cw] (Hrows & Hcw & Hall) Hi%elem_of_range. simpl in *.
    destruct (scan_row_spec g i cw Hg Hi) as (cw' & -> & Hle & Hnew).
    cbn [rbind]. eexists. split; [done|]. simpl. split_and!.
    + rewrite fmap_app. by rewrite Hrows.
    + lia.
    + intros i' j Hin Hj. apply elem_of_app in Hin as [Hi'|Hin].
      * specialize (Hall i' j Hi' Hj). lia.
      * apply list_elem_of_singleton in Hin as ->. by apply Hnew.
  - simpl in *. exists cw. rewrite E, Hrows. split_and!; [done|done|].
    intros i j Hi Hj. apply Hall; [|done]. by apply elem_of_range.
Qed.

Lemma rjust_length w t :
  Z.of_nat (length t) <= w -> Z.of_nat (length (rjust w t)) = w.
Proof.
  intros H. unfold rjust. rewrite length_app, length_replicate. lia.
Qed.

Lemma row_cells_length cw (row_data : list text) : forall init,
  Forall (fun t => Z.of_nat (length t) <= cw) row_data ->
  Z.of_nat (length (fold_left (fun row_str txt => row_str ++ rjust cw txt)
                              row_data init))
  = Z.of_nat (length init) + Z.of_nat (length row_data) * cw.
Proof.
  induction row_data as [|t r IH]; intros init Hall; simpl; [lia|].
  apply Forall_cons in Hall as [Ht Hr].
  rewrite IH by done. rewrite length_app.
  pose proof (rjust_length cw t Ht). lia.
Qed.

Lemma range_lookup n i : 0 <= i < n -> range n !! Z.to_nat i = Some i.
Proof. intros Hi. unfold range. apply lookup_seqZ. lia. Qed.

Lemma range_length n : length (range n) = Z.to_nat n.
Proof. unfold range. apply length_seqZ. Qed.

Lemma format_matrix_p_lines_spec g :
  shaped g ->
  exists col_width lines,
    format_matrix_p_lines g = Ok lines /\
    6 <= col_width /\
    (forall i j, vertex g i -> vertex g j ->
       Z.of_nat (length (cell_text g i j)) + 2 <= col_width) /\
    length lines = (2 + Z.to_nat (num_vertices g))%nat /\
    forall i, vertex g i ->
      exists row, lines !! (2 + Z.to_nat i)%nat = Some row /\
        Z.of_nat (length row) =
        Z.of_nat (length (rjust 3 (str_int i))) + 2 + num_vertices g * col_width.
Proof.
  intros Hg. unfold format_matrix_p_lines.
  destruct (scan_spec g Hg) as (cw & -> & Hcw & Hall). cbn [rbind]. cbv zeta.
  simpl fst. simpl snd.
  set (rows := (fun i => cell_text g i <$> range (num_vertices g))
                 <$> range (num_vertices g)).
  set (row := fun i =>
         fold_left (fun row_str txt => row_str ++ rjust cw txt)
                   (cell_text g i <$> range (num_vertices g))
                   (rjust 3 (str_int i) ++ lit " |")).
  assert (forall i, vertex g i -> row_p cw rows i = Ok (row i)) as Hrow.
  { intros i Hi. unfold row_p.
    assert (py_get rows i = Ok (cell_text g i <$> range (num_vertices g))) as ->.
    { apply py_get_Ok. exists (Z.to_nat i). split.
      - apply norm_index_nonneg. unfold rows.
        rewrite length_fmap, range_length. unfold vertex in Hi. lia.
      - unfold rows. rewrite list_lookup_fmap, range_lookup by done. done. }
    done. }
  match goal with
  | |- context [fold_result ?f ?xs ?acc] =>
      destruct (fold_result_inv
        (fun done_ lines => lines = acc ++ (row <$> done_)) f xs [] acc)
        as (lines & E & Hlines)
  end.
  - simpl. done.
  - intros d i b -> Hi%elem_of_range. rewrite (Hrow i Hi). cbn [rbind].
    eexists. split; [done|]. by rewrite fmap_app, <- app_assoc.
  - exists cw, lines. simpl in Hlines. subst lines.
    split_and!; [done|done|done| |].
    + simpl. by rewrite length_fmap, range_length.
    + intros i Hi. exists (row i). split.
      * change (2 + Z.to_nat i)%nat with (S (S (Z.to_nat i))). simpl.
        by rewrite list_lookup_fmap, range_lookup.
      * unfold row. rewrite row_cells_length.
        -- rewrite length_app, length_fmap, range_length.
           change (length (lit " |")) with 2%nat.
           unfold vertex in Hi. lia.
        -- apply Forall_fmap, Forall_forall. intros j Hj%elem_of_range. simpl.
           specialize (Hall i j Hi Hj). lia.
Qed.

Lemma format_matrix_p_total g :
  shaped g -> exists t, format_matrix_p g = Ok t.
Proof.
  intros Hg. unfold format_matrix_p.
  destruct (format_matrix_p_lines_spec g Hg) as (cw & lines & -> & _).
  cbn [rbind]. eauto.
Qed.

Lemma get_matrices_string_total g :
  shaped g -> exists t, get_matrices_string g = Ok t.
Proof.
  intros Hg. unfold get_matrices_string.
  destruct (format_matrix_l_total g Hg) as [tl ->].
  destruct (format_matrix_p_total g Hg) as [tp ->].
  cbn [rbind]. eauto.
Qed.

(** X22: in the table of [P] every cell is right-aligned in a column
    of the same width, at least 6 and at least two more than the longest
    cell text, so that every row of the table has the same number of
    characters after its label. *)
Theorem predecessor_table_aligned g :
  shaped g ->
  exists col_width lines,
    format_matrix_p_lines g = Ok lines /\
    6 <= col_width /\
    (forall i j, vertex g i -> vertex g j ->
       Z.of_nat (length (cell_text g i j)) + 2 <= col_width) /\
    length lines = (2 + Z.to_nat (num_vertices g))%nat /\
    forall i, vertex g i ->
      exists row, lines !! (2 + Z.to_nat i)%nat = Some row /\
        Z.of_nat (length row) =
        Z.of_nat (length (rjust 3 (str_int i))) + 2 + num_vertices g * col_width.
Proof. apply format_matrix_p_lines_spec. Qed.

Lemma predecessor_table_aligned_witness :
  exists col_width lines,
    format_matrix_p_lines (closed tie_file) = Ok lines /\
    6 <= col_width /\
    (forall i j, vertex (closed tie_file) i -> vertex (closed tie_file) j ->
       Z.of_nat (length (cell_text (closed tie_file) i j)) + 2 <= col_width) /\
    length lines = (2 + Z.to_nat (num_vertices (closed tie_file)))%nat /\
    forall i, vertex (closed tie_file) i ->
      exists row, lines !! (2 + Z.to_nat i)%nat = Some row /\
        Z.of_nat (length row) =
        Z.of_nat (length (rjust 3 (str_int i))) + 2 +
        num_vertices (closed tie_file) * col_width.
Proof.
  apply (predecessor_table_aligned (closed tie_file)).
  destruct (floyd_warshall_follows (loaded tie_file)) as (g' & R & Hg' & _).
  - apply constructed_shaped. exists tie_file, init_graph.
    vm_compute. reflexivity.
  - unfold closed, exec. rewrite R. exact Hg'.
Defined.

(** The loop over [k] of [run_with_trace] against the one of
    [floyd_warshall]. *)
Lemma trace_loop g0 (entry : Z -> text -> list text) ks :
  Forall (vertex g0) ks -> forall g1 g2 trace,
  follows g0 g1 ->
  for_each ks (pass (num_vertices g0)) g1 = (Ok tt, g2) ->
  exists trace',
    for_acc ks trace (fun trace k =>
      for_each (range (num_vertices g0)) (fun i =>
        for_each (range (num_vertices g0)) (fun j => relax k i j)) ;;;
      s <- lift get_matrices_string ;;
      ret (trace ++ entry k s)) g1 = (Ok trace', g2).
Proof.
  induction 1 as [|k ks Hk _ IH]; intros g1 g2 trace Hf R; simpl in *.
  - unfold ret in *. simplify_eq. eauto.
  - destruct (pass_follows g0 g1 k Hf Hk) as (g3 & R3 & Hf3).
    unfold bind in R. rewrite R3 in R.
    unfold bind at 1. unfold bind at 1.
    change (for_each (range (num_vertices g0))
              (fun i => for_each (range (num_vertices g0))
                          (fun j => relax k i j)) g1)
      with (pass (num_vertices g0) k g1).
    rewrite R3. unfold bind at 1, lift at 1.
    pose proof Hf3 as (Hg3 & _).
    destruct (get_matrices_string_total g3 Hg3) as [s ->].
    unfold ret at 1. by apply IH.
Qed.

(** X23: on a successfully loaded graph [run_with_trace] raises nothing
    and leaves the fields exactly as [floyd_warshall] leaves them. *)
Theorem run_with_trace_matrices g0 g :
  constructed g0 -> floyd_warshall g0 = (Ok tt, g) ->
  exists trace, run_with_trace g0 = (Ok trace, g).
Proof.
  intros Hc R. pose proof (closure_reached g0 g Hc R) as Hr.
  destruct (reached_inv g Hr) as [Hg _].
  pose proof (reached_preds_in_range g Hr) as Hpr.
  pose proof (constructed_shaped g0 Hc) as Hg0.
  rewrite floyd_warshall_passes in R.
  unfold run_with_trace.
  unfold bind at 1, lift at 1.
  destruct (get_matrices_string_total g0 Hg0) as [s0 ->].
  unfold bind at 1, lift at 1. unfold bind at 1.
  assert (Forall (vertex g0) (range (num_vertices g0))) as Hks
    by (apply Forall_forall; by intros k Hk%elem_of_range).
  destruct (trace_loop g0
              (fun k s => [[newline] ++ lit "State after k = " ++ str_int k ++
                             lit " (Processing node " ++ str_int k ++ lit "):";
                           s; dashes 40])
              (range (num_vertices g0)) Hks g0 g
              [lit "INITIAL STATE:"; s0; dashes 40]
              (follows_refl g0 Hg0) R) as (trace & E).
  cbv beta in E.
  rewrite E. unfold bind at 1, lift at 1.
  destruct (has_negative_cycle_spec g Hg) as (b & -> & _).
  destruct b.
  - unfold bind, lift.
    destruct (get_negative_cycle_path_total g Hg Hpr) as (path & -> & _).
    unfold ret. eauto.
  - unfold ret. eauto.
Qed.

Lemma run_with_trace_matrices_witness :
  exists trace, run_with_trace (loaded negative_file)
                = (Ok trace, closed negative_file).
Proof.
  apply (run_with_trace_matrices (loaded negative_file) (closed negative_file)).
  - exists negative_file, init_graph. vm_compute. reflexivity.
  - vm_compute. reflexivity.
Defined.

(** ** The table of [L] *)

(** The row of vertex [i] as [row_l] builds it. *)
Definition row_text_l (g : Graph) (i : Z) : text :=
  fold_left (fun row_str j => row_str ++ cell_l (Lf g i j))
            (range (num_vertices g)) (rjust 3 (str_int i) ++ lit " |").

Lemma row_l_spec g i :
  shaped g -> vertex g i -> row_l g i = Ok (row_text_l g i).
Proof.
  intros Hg Hi. unfold row_l, row_text_l.
  destruct (fold_result_inv
    (fun done_ row_str =>
       row_str = fold_left (fun row_str j => row_str ++ cell_l (Lf g i j))
                           done_ (rjust 3 (str_int i) ++ lit " |"))
    (fun row_str j =>
       rbind (mat_get (L g) i j) (fun val => Ok (row_str ++ cell_l val)))
    (range (num_vertices g)) [] (rjust 3 (str_int i) ++ lit " |"))
    as (t & E & Ht).
  - done.
  - intros d j b -> Hj%elem_of_range.
    rewrite (getL_Lf g i j Hg Hi Hj). cbn [rbind].
    eexists. split; [done|]. by rewrite fold_left_app.
  - simpl in Ht. by rewrite E, Ht.
Qed.

Lemma cells_length {A} (cell : A -> text) (w : Z) (xs : list A) : forall init,
  Forall (fun x => Z.of_nat (length (cell x)) = w) xs ->
  Z.of_nat (length (fold_left (fun row_str x => row_str ++ cell x) xs init))
  = Z.of_nat (length init) + Z.of_nat (length xs) * w.
Proof.
  induction xs as [|x r IH]; intros init Hall; simpl; [lia|].
  apply Forall_cons in Hall as [Hx Hr].
  rewrite IH by done. rewrite length_app. lia.
Qed.

(** A test for the cells of [L]: the decimal text of each has at most
    five characters. *)
Lemma weights_check g :
  forallb (forallb (fun c => match c with
                             | Fin z => Z.of_nat (length (str_int z)) <=? 5
                             | Inf => true
                             end)) (L g) = true ->
  forall i j z, vertex g i -> vertex g j -> Lf g i j = Fin z ->
    Z.of_nat (length (str_int z)) <= 5.
Proof.
  intros H i j z _ _. unfold Lf.
  destruct (mat_get (L g) i j) as [c|] eqn:E; [|done].
  apply mat_get_Ok in E as (a & b & row & _ & Hrow & _ & Hcell).
  intros ->.
  rewrite forallb_forall in H.
  apply list_elem_of_lookup_2, list_elem_of_In, H in Hrow.
  rewrite forallb_forall in Hrow.
  apply list_elem_of_lookup_2, list_elem_of_In, Hrow in Hcell. lia.
Qed.

(** X24: when the decimal text of every finite entry of [L] has at most
    five characters, every row of the table of [L] has the same number
    of characters after its label, five per column. *)
Theorem weight_table_aligned g :
  shaped g ->
  (forall i j z, vertex g i -> vertex g j -> Lf g i j = Fin z ->
     Z.of_nat (length (str_int z)) <= 5) ->
  exists lines,
    format_matrix_l_lines g = Ok lines /\
    length lines = (2 + Z.to_nat (num_vertices g))%nat /\
    forall i, vertex g i ->
      exists row, lines !! (2 + Z.to_nat i)%nat = Some row /\
        Z.of_nat (length row) =
        Z.of_nat (length (rjust 3 (str_int i))) + 2 + num_vertices g * 5.
Proof.
  intros Hg Hfit. unfold format_matrix_l_lines. cbv zeta.
  match goal with
  | |- context [fold_result ?f ?xs ?acc] =>
      destruct (fold_result_inv
        (fun done_ lines => lines = acc ++ (row_text_l g <$> done_)) f xs [] acc)
        as (lines & E & Hlines)
  end.
  - simpl. done.
  - intros d i b -> Hi%elem_of_range. rewrite (row_l_spec g i Hg Hi).
    cbn [rbind]. eexists. split; [done|]. by rewrite fmap_app, <- app_assoc.
  - exists lines. simpl in Hlines. subst lines. split_and!; [done| |].
    + simpl. by rewrite length_fmap, range_length.
    + intros i Hi. exists (row_text_l g i). split.
      * change (2 + Z.to_nat i)%nat with (S (S (Z.to_nat i))). simpl.
        by rewrite list_lookup_fmap, range_lookup.
      * unfold row_text_l. rewrite (cells_length _ 5).
        -- rewrite length_app, range_length.
           change (length (lit " |")) with 2%nat.
           unfold vertex in Hi. lia.
        -- apply Forall_forall. intros j Hj%elem_of_range.
           destruct (Lf g i j) as [z|] eqn:EL; simpl.
           ++ apply rjust_length. by apply (Hfit i j).
           ++ done.
Qed.

Lemma weight_table_aligned_witness :
  exists lines,
    format_matrix_l_lines (loaded tie_file) = Ok lines /\
    length lines = (2 + Z.to_nat (num_vertices (loaded tie_file)))%nat /\
    forall i, vertex (loaded tie_file) i ->
      exists row, lines !! (2 + Z.to_nat i)%nat = Some row /\
        Z.of_nat (length row) =
        Z.of_nat (length (rjust 3 (str_int i))) + 2 +
        num_vertices (loaded tie_file) * 5.
Proof.
  apply (weight_table_aligned (loaded tie_file)).
  - apply constructed_shaped. exists tie_file, init_graph.
    vm_compute. reflexivity.
  - apply weights_check. vm_compute. reflexivity.
Defined.

(** ** When the enumeration of paths ends *)

Lemma extended_paths_total enum end_ preds :
  (forall p, p ∈ preds -> p <> end_ -> exists sub, enum p = Ok sub) ->
  exists res, extended_paths enum end_ preds = Ok res.
Proof.
  induction preds as [|p rest IH]; intros Hsub; simpl; [eauto|].
  destruct IH as [others Eo].
  { intros q Hq. apply Hsub. by right. }
  destruct (Z.eqb_spec p end_) as [->|Hne]; [eauto|].
  destruct (Hsub p ltac:(left) Hne) as [sub ->]. cbn [rbind].
  rewrite Eo. cbn [rbind]. eauto.
Qed.

(** Distinct vertices are at most [num_vertices] many. *)
Lemma vertices_bounded g l :
  NoDup l -> Forall (vertex g) l ->
  (length l <= Z.to_nat (num_vertices g))%nat.
Proof.
  intros Hnd Hall. rewrite <- range_length.
  apply submseteq_length, NoDup_submseteq; [done|].
  intros x Hx. apply elem_of_range.
  rewrite Forall_forall in Hall. by apply Hall.
Qed.

(** Every closed walk of at least one arc has positive weight. *)
Definition positive_cycles (g : Graph) : Prop :=
  forall u vs, vertex g u -> Forall (vertex g) vs -> last vs = Some u ->
    wlt (Fin 0) (walk_weight g u vs) = true.

(** A test that implies it: every arc has positive weight. *)
Lemma positive_arcs_check g :
  forallb (fun u => forallb (fun v => wlt (Fin 0) (arc_weight g u v))
                            (range (num_vertices g)))
          (range (num_vertices g)) = true ->
  positive_cycles g.
Proof.
  intros H.
  assert (forall u v, vertex g u -> vertex g v ->
            wlt (Fin 0) (arc_weight g u v) = true) as Harc.
  { intros u v Hu%elem_of_range%list_elem_of_In Hv%elem_of_range%list_elem_of_In.
    rewrite forallb_forall in H. specialize (H u Hu).
    rewrite forallb_forall in H. by apply H. }
  assert (forall vs u, vertex g u -> Forall (vertex g) vs -> vs <> [] ->
            wlt (Fin 0) (walk_weight g u vs) = true) as Hwalk.
  { induction vs as [|v vs IH]; intros u Hu Hvs Hne; [done|].
    apply Forall_cons in Hvs as [Hv Hvs]. simpl.
    pose proof (Harc u v Hu Hv) as H1.
    destruct vs as [|v' vs].
    - simpl. revert H1. generalize (arc_weight g u v). intros x. clear. wcases.
    - pose proof (IH v Hv Hvs ltac:(done)) as H2. revert H1 H2.
      generalize (arc_weight g u v), (walk_weight g v (v' :: vs)).
      intros x y. clear. wcases. }
  intros u vs Hu Hvs Hl. apply Hwalk; try done. by intros ->.
Qed.

(** X25: for a graph file without negative vertex indices in which
    every cycle has positive weight, [get_all_shortest_paths] returns
    after [floyd_warshall] for every pair of vertices, with no more than
    [num_vertices + 1] nested calls. *)
Theorem shortest_paths_terminate g0 g start end_ :
  constructed g0 ->
  (forall i j p, vertex g0 i -> vertex g0 j -> p ∈ Pf g0 i j -> 0 <= p) ->
  floyd_warshall g0 = (Ok tt, g) ->
  positive_cycles g0 ->
  vertex g0 start -> vertex g0 end_ ->
  exists paths,
    get_all_shortest_paths (S (Z.to_nat (num_vertices g0))) g start end_
    = Ok paths.
Proof.
  intros Hc Hpos R Hcyc Hs He.
  destruct (constructed_inv g0 Hc) as (Hg & HLA & Hdiag & _).
  destruct (floyd_warshall_inv g0 Hg) as (g1 & R1 & Hf & Hinv).
  rewrite R in R1. simplify_eq.
  pose proof Hf as (Hg1 & N1 & _ & Hle).
  destruct (floyd_warshall_pred_walk g0 g1 Hc Hpos R) as (_ & Hw & Hpw).
  assert (forall c, vertex g0 c -> vertex g1 c) as Hv
    by (unfold vertex; intros; lia).
  assert (has_negative_cycle g1 = Ok false) as Hneg.
  { destruct (has_negative_cycle_spec g1 Hg1) as (b & Hb & Hiff).
    destruct b; [|done]. exfalso.
    destruct (proj1 Hiff eq_refl) as (i & Hi & Hlt).
    assert (vertex g0 i) as Hi0 by (unfold vertex in *; lia).
    destruct (Lf g1 i i) as [z|] eqn:Ez; [|done].
    destruct (Hw i i z Hi0 Hi0 Ez) as (vs & Hvs & Hl & Hwt).
    destruct vs as [|c vs].
    - simpl in Hwt. by simplify_eq.
    - rewrite last_cons_cons in Hl.
      pose proof (Hcyc i (c :: vs) Hi0 Hvs Hl) as Hp. rewrite Hwt in Hp.
      revert Hlt Hp. simpl. intros ?%Z.ltb_lt ?%Z.ltb_lt. lia. }
  pose proof (has_negative_cycle_false g1 Hg1 Hneg) as Hnn.
  destruct (Hinv Hnn) as [Ht _].
  assert (forall u t vs, vertex g0 u -> Forall (vertex g0) vs ->
            last vs = Some t -> wle (Lf g1 u t) (walk_weight g0 u vs)) as Hmin
    by (intros; by apply walk_bound).
  (* one step back from [e] to a recorded predecessor [p] *)
  assert (forall e p, vertex g0 e -> p ∈ Pf g1 start e -> p <> start -> p <> e ->
            vertex g0 p /\ exists a w, Lf g1 start p = Fin a /\
              arc_weight g0 p e = Fin w /\ Lf g1 start e = Fin (a + w)) as Hstep.
  { intros e p Hev Hp Hps Hpe.
    destruct (Hpw start e p Hs Hev Hp)
      as (Hpv & ws & z & w & Hws & Hlw & Hww & HA & HL).
    split; [done|].
    destruct ws as [|c ws]; [simpl in Hlw; by simplify_eq|].
    rewrite last_cons_cons in Hlw.
    pose proof (Hmin start p (c :: ws) Hs Hws Hlw) as H1. rewrite Hww in H1.
    assert (arc_weight g0 p e = Fin w) as Harc.
    { unfold arc_weight. rewrite HA. by destruct (Z.eqb_spec p e). }
    pose proof (Hmin p e [e] Hpv ltac:(by apply Forall_singleton) eq_refl) as H2.
    cbn [walk_weight] in H2. rewrite Harc in H2. cbn [wadd] in H2.
    assert (wle (Lf g1 start e) (wadd (Lf g1 start p) (Lf g1 p e))) as H3
      by (apply (Ht start e p); unfold vertex in *; lia).
    rewrite HL in H3.
    destruct (Lf g1 start p) as [a|]; [|done].
    destruct (Lf g1 p e) as [w'|]; [|done].
    exists a, w. split_and!; [done|done|].
    revert H1 H2 H3. unfold wle. simpl.
    intros ?%Z.ltb_ge ?%Z.ltb_ge ?%Z.ltb_ge. rewrite HL. f_equal. lia. }
  clear R Hinv Hpos Hc Hpw Hw Ht.
  assert (forall depth end_ seen,
    vertex g0 end_ -> NoDup (end_ :: seen) -> Forall (vertex g0) seen ->
    start ∉ seen ->
    (forall fe, Lf g1 start end_ = Fin fe ->
       forall pre x post, seen = pre ++ x :: post ->
         exists fx, Lf g1 start x = Fin fx /\
                    walk_weight g0 end_ (pre ++ [x]) = Fin (fx - fe)) ->
    (Z.to_nat (num_vertices g0) + 1 <= depth + length seen)%nat ->
    exists paths, get_all_shortest_paths depth g1 start end_ = Ok paths)
    as Hmain.
  { induction depth as [|depth IH];
      intros e seen Hev Hnd Hseen Hsn Hchain Hdepth.
    { apply NoDup_cons in Hnd as [_ Hnd].
      pose proof (vertices_bounded g0 seen Hnd Hseen). lia. }
    assert (length (e :: seen) <= Z.to_nat (num_vertices g0))%nat as Hlen.
    { apply vertices_bounded; [done|]. by apply Forall_cons. }
    simpl in Hlen.
    rewrite get_all_shortest_paths_unfold.
    rewrite (getL_Lf g1 start e Hg1 (Hv _ Hs) (Hv _ Hev)). cbn [rbind].
    destruct (Lf g1 start e) as [fe|] eqn:Efe; [|simpl; eauto]. simpl.
    destruct (Z.eqb_spec start e) as [?|Hse]; [eauto|].
    rewrite (getP_Pf g1 start e Hg1 (Hv _ Hs) (Hv _ Hev)). cbn [rbind].
    apply extended_paths_total. intros p Hp Hpe.
    destruct (decide (p = start)) as [->|Hps].
    { destruct depth as [|depth]; [lia|].
      rewrite get_all_shortest_paths_unfold.
      rewrite (getL_Lf g1 start start Hg1 (Hv _ Hs) (Hv _ Hs)). cbn [rbind].
      destruct (is_inf (Lf g1 start start)); [eauto|].
      rewrite Z.eqb_refl. eauto. }
    destruct (Hstep e p Hev Hp Hps Hpe) as (Hpv & a & w & Ea & Harc & Ee).
    rewrite Efe in Ee. simplify_eq.
    specialize (Hchain (a + w) eq_refl).
    apply (IH p (e :: seen)).
    - done.
    - apply NoDup_cons. split; [|done].
      intros [->|Hin]%elem_of_cons; [done|].
      apply list_elem_of_split in Hin as (pre & post & ->).
      destruct (Hchain pre p post eq_refl) as (fx & Efx & Hwt).
      assert (fx = a) as -> by congruence.
      assert (Forall (vertex g0) (e :: pre ++ [p])) as Hall.
      { apply Forall_cons. split; [done|]. apply Forall_app.
        apply Forall_app in Hseen as [Hpre _]. split; [done|].
        by apply Forall_singleton. }
      pose proof (Hcyc p (e :: pre ++ [p]) Hpv Hall
                    ltac:(rewrite app_comm_cons; apply last_snoc)) as Hc.
      cbn [walk_weight] in Hc. rewrite Harc, Hwt in Hc.
      revert Hc. simpl. intros ?%Z.ltb_lt. lia.
    - by apply Forall_cons.
    - intros [->|Hin]%elem_of_cons; done.
    - intros fp Efp pre x post Hsplit.
      assert (fp = a) as -> by congruence.
      destruct pre as [|y pre]; simpl in Hsplit; simplify_eq.
      + exists (a + w). split; [done|]. simpl. rewrite Harc. simpl.
        f_equal. lia.
      + destruct (Hchain pre x post eq_refl) as (fx & Efx & Hwt).
        exists fx. split; [done|].
        change ((y :: pre) ++ [x]) with (y :: (pre ++ [x])).
        cbn [walk_weight]. rewrite Harc, Hwt. simpl. f_equal. lia.
    - simpl. lia. }
  apply (Hmain _ end_ []); try done.
  - apply NoDup_singleton.
  - by intros ?%elem_of_nil.
  - intros fe _ pre x post Hsplit. by destruct pre.
  - simpl. lia.
Qed.

Lemma shortest_paths_terminate_witness :
  exists paths,
    get_all_shortest_paths (S (Z.to_nat (num_vertices (loaded tie_file))))
      (closed tie_file) 0 2 = Ok paths.
Proof.
  apply (shortest_paths_terminate (loaded tie_file) (closed tie_file) 0 2).
  - exists tie_file, init_graph. vm_compute. reflexivity.
  - apply preds_check. vm_compute. reflexivity.
  - vm_compute. reflexivity.
  - apply positive_arcs_check. vm_compute. reflexivity.
  - apply vertex_check. vm_compute. reflexivity.
  - apply vertex_check. vm_compute. reflexivity.
Defined.
